(** * web-locks: a shallow embedding of [web-locks.js] and its properties

    The module keeps one [LockManager] per execution context.  Every [Lock],
    task, [AbortSignal] and [SharedArrayBuffer] is a JavaScript object that is
    mutated in place and reached through references held by closures, so the
    embedding keeps one store per kind of object and passes references
    (indices) around.  Code that can throw is written in a state monad with
    exceptions; a throw keeps the mutations made before it, as in JavaScript. *)

From Stdlib Require Import ZArith Ascii String List Bool Lia.
From stdpp Require Import base option strings numbers list sorting.

Local Open Scope string_scope.
Local Open Scope list_scope.

(** ** Constants (web-locks.js, lines 8-11) *)

Definition LOCKED : Z := 0.
Definition UNLOCKED : Z := 1.
Definition DEFAULT_CALL : nat := 0.
Definition DIRECT_CALL : nat := 1.

(** ** Object references and opaque values *)

(** References are indices into the stores below.  A [SharedArrayBuffer] of
    4 bytes holds exactly one Int32 cell, so [bufref] names that cell. *)
Abbreviation bufref := nat (only parsing).
Abbreviation lockref := nat (only parsing).
Abbreviation taskref := nat (only parsing).
Abbreviation sigref := nat (only parsing).
(** The identity of a user function passed as handler. *)
Abbreviation fn := nat (only parsing).
(** The value a handler's promise is fulfilled with. *)
Abbreviation jsval := nat (only parsing).
(** A worker attached to the hub. *)
Abbreviation worker := nat (only parsing).

(** What JavaScript code throws, or a promise is rejected with. *)
Inductive exn :=
| Error (message : string)       (* new Error(message) *)
| TypeError (message : string).  (* raised by the runtime itself *)

(** How a handler's promise settles. *)
Inductive settlement :=
| Fulfilled (v : jsval)
| Failed (e : exn).

(** ** The objects *)

(** [class Lock] (lines 15-25); [flag] is the Int32 view of [buffer]. *)
Record Lock := mkLock {
  name : string;
  mode : string;
  queue : list taskref;
  owner : bool;
  trying : bool;
  buffer : bufref
}.

(** The task literal of [Lock.enter] (lines 29-36).  [resolve] and [reject]
    are those of the promise created together with the task, so the promise
    is identified with the task. *)
Record Task := mkTask {
  handler : fn;
  signal : option sigref;      (* None is null *)
  rejected : bool;
  entered : bool
}.

(** [class AbortSignal] (lines 239-253).  The listener installed by the
    constructor sets [aborted]; [once_listeners] are the tasks whose
    [Lock.enter] registered its abort callback with [{ once: true }].
    The class has no [reason] property: [reason] is what the template
    literal [${signal.reason}] prints, "undefined" for this class. *)
Record AbortSignal := mkSignal {
  aborted : bool;
  reason : string;
  once_listeners : list taskref
}.

(** A promise settled by this module: the one [enter] returns (one per
    task) or the one [tryDirect] returns. *)
Inductive promise :=
| OfTask (t : taskref)
| OfDirect (n : nat).

(** The callbacks chained on the promise a handler call returned. *)
Inductive reactions :=
| leave_then_settle (this : lockref) (p : promise)
    (* .then(res => { this.leave(); resolve(res) })
       .catch(err => { this.leave(); reject(err) })      lines 72-79, 100-107 *)
| settle_only (p : promise).
    (* .then(resolve).catch(reject)                       lines 94, 97 *)

(** A handler call whose promise is still pending. *)
Record Call := mkCall {
  call_fn : fn;
  call_arg : option lockref;   (* None is handler(null) *)
  call_reactions : reactions
}.

(** Broadcast messages (lines 86, 166); absent properties are [None]. *)
Record Message := mkMessage {
  webLocks : bool;
  kind : string;
  msg_name : string;
  msg_mode : option string;
  msg_buffer : option bufref
}.

(** What the context does that can be observed from outside. *)
Inductive event :=
| Exchanged (b : bufref) (prev : Z)      (* Atomics.exchange(flag, 0, LOCKED) returned prev *)
| Stored (b : bufref) (v : Z)            (* Atomics.store(flag, 0, v) *)
| Posted (to : option worker) (m : Message)  (* postMessage; None is parentPort *)
| Invoked (p : promise) (h : fn) (arg : option lockref)
| Resolved (p : promise) (v : jsval)
| Rejected (p : promise) (e : exn)
| Uncaught (e : exn).                    (* an exception nobody handles *)

(** ** One execution context and the shared memory it sees *)

Record World := mkWorld {
  mem : list Z;                          (* the SharedArrayBuffers, shared by all contexts *)
  heap : list Lock;                      (* Lock objects *)
  tasks : list Task;                     (* task objects *)
  signals : list AbortSignal;            (* AbortSignal objects *)
  collection : list (string * lockref);  (* locks.collection, a Map in insertion order *)
  workers : list worker;                 (* locks.workers, a Set in insertion order *)
  isWorkerThread : bool;
  timers : list lockref;                 (* pending setTimeout(() => this.tryEnter(), 0) *)
  running : list Call;                   (* handler promises still pending *)
  directs : nat;                         (* promises created by tryDirect so far *)
  trace : list event                     (* oldest first *)
}.

Definition set_mem (x : list Z) (w : World) : World :=
  mkWorld x (heap w) (tasks w) (signals w) (collection w) (workers w)
          (isWorkerThread w) (timers w) (running w) (directs w) (trace w).
Definition set_heap (x : list Lock) (w : World) : World :=
  mkWorld (mem w) x (tasks w) (signals w) (collection w) (workers w)
          (isWorkerThread w) (timers w) (running w) (directs w) (trace w).
Definition set_tasks (x : list Task) (w : World) : World :=
  mkWorld (mem w) (heap w) x (signals w) (collection w) (workers w)
          (isWorkerThread w) (timers w) (running w) (directs w) (trace w).
Definition set_signals (x : list AbortSignal) (w : World) : World :=
  mkWorld (mem w) (heap w) (tasks w) x (collection w) (workers w)
          (isWorkerThread w) (timers w) (running w) (directs w) (trace w).
Definition set_collection (x : list (string * lockref)) (w : World) : World :=
  mkWorld (mem w) (heap w) (tasks w) (signals w) x (workers w)
          (isWorkerThread w) (timers w) (running w) (directs w) (trace w).
Definition set_workers (x : list worker) (w : World) : World :=
  mkWorld (mem w) (heap w) (tasks w) (signals w) (collection w) x
          (isWorkerThread w) (timers w) (running w) (directs w) (trace w).
Definition set_timers (x : list lockref) (w : World) : World :=
  mkWorld (mem w) (heap w) (tasks w) (signals w) (collection w) (workers w)
          (isWorkerThread w) x (running w) (directs w) (trace w).
Definition set_running (x : list Call) (w : World) : World :=
  mkWorld (mem w) (heap w) (tasks w) (signals w) (collection w) (workers w)
          (isWorkerThread w) (timers w) x (directs w) (trace w).
Definition set_directs (x : nat) (w : World) : World :=
  mkWorld (mem w) (heap w) (tasks w) (signals w) (collection w) (workers w)
          (isWorkerThread w) (timers w) (running w) x (trace w).
Definition set_trace (x : list event) (w : World) : World :=
  mkWorld (mem w) (heap w) (tasks w) (signals w) (collection w) (workers w)
          (isWorkerThread w) (timers w) (running w) (directs w) x.

(** ** The monad: state, exceptions, and [Stuck] for what JavaScript cannot
    do (a dangling reference, a recursion that ran out of fuel). *)

Inductive completion (A : Type) :=
| Normal (a : A)
| Throw (e : exn)
| Stuck.
Arguments Normal {A} a.
Arguments Throw {A} e.
Arguments Stuck {A}.

Definition M (A : Type) : Type := World -> World * completion A.

Definition ret {A} (a : A) : M A := fun w => (w, Normal a).
Definition throw {A} (e : exn) : M A := fun w => (w, Throw e).
Definition stuck {A} : M A := fun w => (w, Stuck).
Definition bind {A B} (c : M A) (k : A -> M B) : M B :=
  fun w =>
    match c w with
    | (w', Normal a) => k a w'
    | (w', Throw e) => (w', Throw e)
    | (w', Stuck) => (w', Stuck)
    end.

Declare Scope js_scope.
Delimit Scope js_scope with js.
Notation "x <- c ;; k" := (bind c (fun x => k))
  (at level 20, c at level 99, k at level 200, only parsing) : js_scope.
Notation "c ;; k" := (bind c (fun _ => k))
  (at level 100, k at level 200, only parsing, right associativity) : js_scope.
Bind Scope js_scope with M.
Local Open Scope js_scope.

(** try { c } catch (e) { h e } *)
Definition try_catch {A} (c : M A) (h : exn -> M A) : M A :=
  fun w =>
    match c w with
    | (w', Throw e) => h e w'
    | r => r
    end.

Definition when (b : bool) (c : M unit) : M unit := if b then c else ret tt.

(** for (const x of xs) body(x) *)
Fixpoint for_of {A} (xs : list A) (body : A -> M unit) : M unit :=
  match xs with
  | [] => ret tt
  | x :: xs' => body x ;; for_of xs' body
  end.

Definition exec {A} (c : M A) (w : World) : World := fst (c w).
Definition outcome {A} (c : M A) (w : World) : completion A := snd (c w).

(** ** Primitive operations on the stores *)

Definition log (e : event) : M unit :=
  fun w => (set_trace (trace w ++ [e]) w, Normal tt).

Definition get_lock (l : lockref) : M Lock :=
  fun w => match heap w !! l with Some lk => (w, Normal lk) | None => (w, Stuck) end.
Definition get_task (t : taskref) : M Task :=
  fun w => match tasks w !! t with Some tk => (w, Normal tk) | None => (w, Stuck) end.
Definition get_signal (s : sigref) : M AbortSignal :=
  fun w => match signals w !! s with Some sg => (w, Normal sg) | None => (w, Stuck) end.

Definition update_lock (l : lockref) (f : Lock -> Lock) : M unit :=
  fun w => (set_heap (alter f l (heap w)) w, Normal tt).
Definition update_task (t : taskref) (f : Task -> Task) : M unit :=
  fun w => (set_tasks (alter f t (tasks w)) w, Normal tt).
Definition update_signal (s : sigref) (f : AbortSignal -> AbortSignal) : M unit :=
  fun w => (set_signals (alter f s (signals w)) w, Normal tt).

Definition with_queue (q : list taskref) (lk : Lock) : Lock :=
  mkLock (name lk) (mode lk) q (owner lk) (trying lk) (buffer lk).
Definition with_owner (b : bool) (lk : Lock) : Lock :=
  mkLock (name lk) (mode lk) (queue lk) b (trying lk) (buffer lk).
Definition with_trying (b : bool) (lk : Lock) : Lock :=
  mkLock (name lk) (mode lk) (queue lk) (owner lk) b (buffer lk).
Definition with_rejected (b : bool) (tk : Task) : Task :=
  mkTask (handler tk) (signal tk) b (entered tk).
Definition with_entered (b : bool) (tk : Task) : Task :=
  mkTask (handler tk) (signal tk) (rejected tk) b.
Definition with_aborted (b : bool) (sg : AbortSignal) : AbortSignal :=
  mkSignal b (reason sg) (once_listeners sg).
Definition with_once_listeners (ls : list taskref) (sg : AbortSignal) : AbortSignal :=
  mkSignal (aborted sg) (reason sg) ls.

(** Atomics.exchange(flag, 0, v): writes v, returns what was there. *)
Definition Atomics_exchange (b : bufref) (v : Z) : M Z :=
  fun w =>
    match mem w !! b with
    | Some prev => (set_trace (trace w ++ [Exchanged b prev]) (set_mem (<[b := v]> (mem w)) w), Normal prev)
    | None => (w, Stuck)
    end.

(** Atomics.store(flag, 0, v) *)
Definition Atomics_store (b : bufref) (v : Z) : M unit :=
  fun w =>
    match mem w !! b with
    | Some _ => (set_trace (trace w ++ [Stored b v]) (set_mem (<[b := v]> (mem w)) w), Normal tt)
    | None => (w, Stuck)
    end.

(** new SharedArrayBuffer(4): zero-filled. *)
Definition new_SharedArrayBuffer : M bufref :=
  fun w => (set_mem (mem w ++ [0%Z]) w, Normal (length (mem w))).

(** resolve(v) and reject(e) of a promise. *)
Definition resolve (p : promise) (v : jsval) : M unit := log (Resolved p v).
Definition reject (p : promise) (e : exn) : M unit := log (Rejected p e).

(** A call [handler(arg)]: the handler is user code that returns a promise;
    the promise stays pending until the context is told how it settled
    (see [settle_call]). *)
Definition invoke (p : promise) (h : fn) (arg : option lockref) (r : reactions) : M unit :=
  fun w =>
    (set_trace (trace w ++ [Invoked p h arg]) (set_running (running w ++ [mkCall h arg r]) w),
     Normal tt).

(** new Promise(executor): an exception thrown by the executor rejects the
    promise. *)
Definition Promise_executor (p : promise) (body : M unit) : M promise :=
  try_catch body (fun e => reject p e) ;; ret p.

(** ** class LockManager: send (lines 204-212)

    [send] is defined before [Lock] here because [Lock.leave] calls
    [locks.send]; in the source [locks] is the module-level instance. *)

Definition send (message : Message) : M unit :=
  fun w =>
    if isWorkerThread w
    then log (Posted None message) w                                  (* parentPort.postMessage *)
    else for_of (workers w) (fun wk => log (Posted (Some wk) message)) w.

(** ** class Lock *)

(** constructor(name, mode = 'exclusive', buffer = null), lines 16-25.
    A default parameter applies when the argument is undefined. *)
Definition new_Lock (name : string) (mode : option string) (buffer : option bufref) : M lockref :=
  let mode := default "exclusive" mode in
  b <- match buffer with
       | Some b => ret b
       | None => b <- new_SharedArrayBuffer ;; Atomics_store b UNLOCKED ;; ret b
       end ;;
  fun w => (set_heap (heap w ++ [mkLock name mode [] false false b]) w, Normal (length (heap w))).

(** signal.aborted, where signal may be null *)
Definition signal_aborted (signal : option sigref) : M bool :=
  match signal with
  | None => throw (TypeError "Cannot read properties of null (reading 'aborted')")
  | Some s => sg <- get_signal s ;; ret (aborted sg)
  end.

(** `AbortError: ${signal.reason}` *)
Definition abort_message (signal : option sigref) : M string :=
  match signal with
  | None => throw (TypeError "Cannot read properties of null (reading 'reason')")
  | Some s => sg <- get_signal s ;; ret (String.append "AbortError: " (reason sg))
  end.

(** signal.addEventListener('abort', callback, { once: true }) with the
    callback of lines 41-46 for [task]; AbortSignal.addEventListener
    (lines 248-252) hands it to [this.once]. *)
Definition addEventListener (signal : option sigref) (task : taskref) : M unit :=
  match signal with
  | None => throw (TypeError "Cannot read properties of null (reading 'addEventListener')")
  | Some s =>
      get_signal s ;;
      update_signal s (fun sg => with_once_listeners (once_listeners sg ++ [task]) sg)
  end.

(** setTimeout(() => { this.tryEnter() }, 0) *)
Definition setTimeout (this : lockref) : M unit :=
  fun w => (set_timers (timers w ++ [this]) w, Normal tt).

(** enter(handler, signal), lines 27-53 *)
Definition enter (this : lockref) (handler : fn) (signal : option sigref) : M promise :=
  fun w =>
    let task := length (tasks w) in
    Promise_executor (OfTask task)
      ((fun w => (set_tasks (tasks w ++ [mkTask handler signal false false]) w, Normal tt)) ;;
       update_lock this (fun lk => with_queue (queue lk ++ [task]) lk) ;;
       update_lock this (with_trying true) ;;
       addEventListener signal task ;;
       setTimeout this) w.

(** leave(), lines 82-89, with the [tryEnter] it calls as a parameter *)
Definition leave_with (tryEnter : lockref -> M unit) (this : lockref) : M unit :=
  lk <- get_lock this ;;
  if negb (owner lk) then ret tt else
  Atomics_store (buffer lk) UNLOCKED ;;
  update_lock this (with_owner false) ;;
  let message := mkMessage true "leave" (name lk) None None in
  send message ;;
  tryEnter this.

(** tryEnter(), lines 55-80, with the [leave] it calls as a parameter *)
Definition tryEnter_with (leave : lockref -> M unit) (this : lockref) : M unit :=
  lk <- get_lock this ;;
  match queue lk with
  | [] => ret tt                                       (* queue.length === 0 *)
  | task :: rest =>
      prev <- Atomics_exchange (buffer lk) LOCKED ;;
      if (prev =? LOCKED)%Z then ret tt else
      update_lock this (with_owner true) ;;
      update_lock this (with_trying false) ;;
      update_lock this (with_queue rest) ;;            (* const task = this.queue.shift() *)
      update_task task (with_entered true) ;;
      tk <- get_task task ;;                           (* the destructuring of line 63 *)
      a <- signal_aborted (signal tk) ;;
      if a then
        leave this ;;
        (if negb (rejected tk)
         then (msg <- abort_message (signal tk) ;; reject (OfTask task) (Error msg))
         else ret tt)
      else
        invoke (OfTask task) (handler tk) (Some this) (leave_then_settle this (OfTask task))
  end.

(** [tryEnter] and [leave] call each other.  Every nested [tryEnter] comes
    after a [queue.shift()], so the length of the queue bounds the depth:
    [fuel] counts the nested calls still allowed.  The call stack of the
    engine is not modelled: the nesting may be as deep as the queue is
    long, where the engine gives up with a RangeError on a long run of
    cancelled tasks. *)
Fixpoint tryEnter_fuel (fuel : nat) (this : lockref) : M unit :=
  match fuel with
  | O => stuck
  | S fuel' => tryEnter_with (leave_with (tryEnter_fuel fuel')) this
  end.

Definition tryEnter (this : lockref) : M unit :=
  fun w =>
    match heap w !! this with
    | Some lk => tryEnter_fuel (S (length (queue lk))) this w
    | None => (w, Stuck)
    end.

Definition leave (this : lockref) : M unit := leave_with tryEnter this.

(** tryDirect(handler), lines 91-109 *)
Definition tryDirect (this : lockref) (handler : fn) : M promise :=
  fun w =>
    let p := OfDirect (directs w) in
    Promise_executor p
      ((fun w => (set_directs (S (directs w)) w, Normal tt)) ;;
       lk <- get_lock this ;;
       when (negb (length (queue lk) =? 0)%nat)
            (invoke p handler None (settle_only p)) ;;
       prev <- Atomics_exchange (buffer lk) LOCKED ;;
       when (prev =? LOCKED)%Z
            (invoke p handler None (settle_only p)) ;;
       update_lock this (with_owner true) ;;
       invoke p handler (Some this) (leave_then_settle this p)) w.

(** What runs when the promise of a handler call settles. *)
Definition react (r : reactions) (s : settlement) : M unit :=
  match r, s with
  | settle_only p, Fulfilled v => resolve p v
  | settle_only p, Failed e => reject p e
  | leave_then_settle this p, Fulfilled v =>
      try_catch (leave this ;; resolve p v)
                (fun err => leave this ;; reject p err)
  | leave_then_settle this p, Failed e =>
      leave this ;; reject p e
  end.

(** ** class LockManagerSnapshot (lines 112-128) *)

Record Snapshot := mkSnapshot {
  held : list lockref;
  pending : list taskref
}.

(** The loop of lines 119-126 over an iterable of locks. *)
Fixpoint scan (resources : list lockref) (held : list lockref) (pending : list taskref)
  : M Snapshot :=
  match resources with
  | [] => ret (mkSnapshot held pending)
  | lock :: more =>
      lk <- get_lock lock ;;
      let pending := if (0 <? length (queue lk))%nat then pending ++ queue lk else pending in
      let held := if owner lk then held ++ [lock] else held in
      scan more held pending
  end.

(** constructor(resources); [None] is a call without the argument. *)
Definition LockManagerSnapshot (resources : option (list lockref)) : M Snapshot :=
  match resources with
  | None => throw (TypeError "resources is not iterable")
  | Some locks => scan locks [] []
  end.

(** ** class LockManager (lines 130-230) *)

Record Options := mkOptions {
  opt_mode : option string;
  opt_signal : option sigref;
  opt_ifAvailable : bool;
  opt_steal : bool
}.

(** collection.get(name) *)
Fixpoint Map_get (name : string) (m : list (string * lockref)) : option lockref :=
  match m with
  | [] => None
  | (k, v) :: m' => if String.eqb k name then Some v else Map_get name m'
  end.

(** collection.set(name, lock): an existing key keeps its place. *)
Fixpoint Map_set (name : string) (lock : lockref) (m : list (string * lockref))
  : list (string * lockref) :=
  match m with
  | [] => [(name, lock)]
  | (k, v) :: m' => if String.eqb k name then (k, lock) :: m' else (k, v) :: Map_set name lock m'
  end.

Definition collection_set (name : string) (lock : lockref) : M unit :=
  fun w => (set_collection (Map_set name lock (collection w)) w, Normal tt).

(** name[0] === '-' *)
Definition starts_with_dash (name : string) : bool :=
  match name with
  | String c _ => Ascii.eqb c "-"%char
  | EmptyString => false
  end.

(** async request(name, options, handler), lines 141-185.  [options = None]
    is the call [request(name, handler)].  A throw inside an async function
    rejects the promise it returned; otherwise that promise follows the one
    [enter] or [tryDirect] returned, which is the result here. *)
Definition request (name : string) (options : option Options) (handler : fn) : M promise :=
  let options := default (mkOptions None None false false) options in
  let mode' := default "exclusive" (opt_mode options) in
  let signal := opt_signal options in
  let ifAvailable := opt_ifAvailable options in
  let steal := opt_steal options in
  if starts_with_dash name then throw (Error "NotSupportedError") else
  if steal && ifAvailable then throw (Error "NotSupportedError") else
  if steal && negb (String.eqb mode' "exclusive") then throw (Error "NotSupportedError") else
  if bool_decide (is_Some signal) && (steal || ifAvailable)
  then throw (Error "NotSupportedError") else
  found <- (fun w => (w, Normal (Map_get name (collection w)))) ;;
  lock <- match found with
          | None =>
              lock <- new_Lock name (Some mode') None ;;
              collection_set name lock ;;
              lk <- get_lock lock ;;
              let message := mkMessage true "create" name (Some mode') (Some (buffer lk)) in
              send message ;;
              ret lock
          | Some lock =>
              lk <- get_lock lock ;;
              if negb (String.eqb (mode lk) mode')
              then throw (Error "The mode can`t be changed")
              else ret lock
          end ;;
  a <- match signal with
       | None => ret false
       | Some _ => signal_aborted signal
       end ;;
  (if a then (msg <- abort_message signal ;; throw (Error msg)) else ret tt) ;;
  let type := if ifAvailable then DIRECT_CALL else DEFAULT_CALL in
  let func := [enter lock handler signal; tryDirect lock handler] in
  match func !! type with
  | Some f => f
  | None => throw (TypeError "func[type] is not a function")
  end.

(** query(), lines 187-190: the snapshot is built without an argument. *)
Definition query : M Snapshot := LockManagerSnapshot None.

(** receive(message), lines 214-229 *)
Definition receive (message : Message) : M unit :=
  if negb (webLocks message) then ret tt else
  if String.eqb (kind message) "create" then
    lock <- new_Lock (msg_name message) (msg_mode message) (msg_buffer message) ;;
    collection_set (msg_name message) lock
  else
  if String.eqb (kind message) "leave" then
    fun w =>
      for_of (map snd (collection w))
        (fun lock =>
           lk <- get_lock lock ;;
           if String.eqb (name lk) (msg_name message) && trying lk
           then tryEnter lock else ret tt) w
  else ret tt.

(** attach(worker), lines 192-202: the worker joins the set; the listener it
    installs is [on_worker_message]. *)
Definition attach (wk : worker) : M unit :=
  fun w =>
    (set_workers (if bool_decide (wk ∈ workers w) then workers w else workers w ++ [wk]) w,
     Normal tt).

Definition on_worker_message (wk : worker) (message : Message) : M unit :=
  (fun w =>
     for_of (workers w)
       (fun peer => if bool_decide (peer ≠ wk) then log (Posted (Some peer) message) else ret tt) w) ;;
  receive message.

(** ** class AbortSignal and class AbortController (lines 239-264) *)

(** new AbortController() *)
Definition new_AbortController : M sigref :=
  fun w => (set_signals (signals w ++ [mkSignal false "undefined" []]) w,
            Normal (length (signals w))).

(** The abort callback [enter] registered for [task] (lines 41-46). *)
Definition on_abort (task : taskref) : M unit :=
  tk <- get_task task ;;
  if negb (entered tk) then
    update_task task (with_rejected true) ;;
    msg <- abort_message (signal tk) ;;
    reject (OfTask task) (Error msg)
  else ret tt.

(** abort(): emit('abort') runs the constructor's listener, which sets
    [aborted], then every once-listener in registration order; a
    once-listener is removed as it fires. *)
Definition abort (s : sigref) : M unit :=
  sg <- get_signal s ;;
  update_signal s (with_aborted true) ;;
  update_signal s (with_once_listeners []) ;;
  for_of (once_listeners sg) on_abort.

(** ** The event loop of one context *)

(** What can happen to a context: calls from user code, a timer firing, a
    message arriving, the promise of a running handler settling.  User code
    is handed [Lock] objects (the handler's argument), so it can also call
    their methods directly. *)
Inductive action :=
| Request (name : string) (options : option Options) (handler : fn)
| Query
| NewAbortController
| Abort (s : sigref)
| Attach (wk : worker)
| WorkerMessage (wk : worker) (m : Message)
| ParentMessage (m : Message)
| Timeout
| Settle (i : nat) (s : settlement)
| CallEnter (l : lockref) (handler : fn) (signal : option sigref)
| CallTryEnter (l : lockref)
| CallLeave (l : lockref)
| CallTryDirect (l : lockref) (handler : fn)
| SharedWrite (b : bufref) (v : Z)      (* another context writes the flag of a buffer *)
| SharedAlloc (v : Z).                  (* another context creates a buffer *)

(** A callback run by the event loop: nobody catches what it throws. *)
Definition callback (c : M unit) : M unit :=
  try_catch c (fun e => log (Uncaught e)).

(** The promise reaction of the [i]-th running call. *)
Definition settle_call (i : nat) (s : settlement) : M unit :=
  fun w =>
    match running w !! i with
    | Some c => callback (react (call_reactions c) s) (set_running (delete i (running w)) w)
    | None => (w, Normal tt)
    end.

(** The oldest timer fires. *)
Definition fire_timer : M unit :=
  fun w =>
    match timers w with
    | this :: more => callback (tryEnter this) (set_timers more w)
    | [] => (w, Normal tt)
    end.

Definition perform (a : action) : M unit :=
  match a with
  | Request name options handler => request name options handler ;; ret tt
  | Query => query ;; ret tt
  | NewAbortController => new_AbortController ;; ret tt
  | Abort s => abort s
  | Attach wk => attach wk
  | WorkerMessage wk m =>
      fun w => if bool_decide (wk ∈ workers w) then callback (on_worker_message wk m) w
               else (w, Normal tt)
  | ParentMessage m =>
      fun w => if isWorkerThread w then callback (receive m) w else (w, Normal tt)
  | Timeout => fire_timer
  | Settle i s => settle_call i s
  | CallEnter l handler signal => enter l handler signal ;; ret tt
  | CallTryEnter l => tryEnter l
  | CallLeave l => leave l
  | CallTryDirect l handler => tryDirect l handler ;; ret tt
  | SharedWrite b v => fun w => (set_mem (<[b := v]> (mem w)) w, Normal tt)
  | SharedAlloc v => fun w => (set_mem (mem w ++ [v]) w, Normal tt)
  end.

(** JavaScript has no dangling reference: an action only names objects
    that exist. *)
Definition known_signal (signal : option sigref) (w : World) : bool :=
  match signal with
  | Some s => bool_decide (s < length (signals w))
  | None => true
  end.

Definition known_buffer (m : Message) (w : World) : bool :=
  match msg_buffer m with
  | Some b => bool_decide (b < length (mem w))
  | None => true
  end.

Definition enabled (a : action) (w : World) : bool :=
  match a with
  | Request _ options _ =>
      known_signal (opt_signal (default (mkOptions None None false false) options)) w
  | Abort s => bool_decide (s < length (signals w))
  | WorkerMessage _ m | ParentMessage m => known_buffer m w
  | CallEnter l _ signal => bool_decide (l < length (heap w)) && known_signal signal w
  | CallTryEnter l | CallLeave l | CallTryDirect l _ => bool_decide (l < length (heap w))
  | _ => true
  end.

Definition step (a : action) (w : World) : World :=
  if enabled a w then exec (perform a) w else w.

Definition run (acts : list action) (w : World) : World := foldl (fun w a => step a w) w acts.

(** A fresh context: `locks = new LockManager()` (line 266). *)
Definition init (worker_thread : bool) : World :=
  mkWorld [] [] [] [] [] [] worker_thread [] [] 0 [].

(** ** Views used to state properties *)

(** The registry by value: each registered name with the state of its Lock. *)
Definition registry (w : World) : list (string * option Lock) :=
  map (fun '(n, l) => (n, heap w !! l)) (collection w).

(** The value of the flag of a buffer. *)
Definition flag (b : bufref) (w : World) : option Z := mem w !! b.

(** The events a computation appended. *)
Definition emitted {A} (c : M A) (w : World) : list event :=
  drop (length (trace w)) (trace (exec c w)).

Definition is_invocation (h : fn) (e : event) : bool :=
  match e with
  | Invoked _ h' _ => Nat.eqb h h'
  | _ => false
  end.

Definition invocations (h : fn) (es : list event) : nat :=
  length (filter (fun e => is_invocation h e = true) es).

Definition holds (l : lockref) (c : Call) : bool :=
  match call_arg c with
  | Some l' => Nat.eqb l l'
  | None => false
  end.

(** The running handlers that were given the Lock [l] itself. *)
Definition holders (l : lockref) (w : World) : list Call :=
  filter (fun c => holds l c = true) (running w).

(** The options objects used below: [{ signal }] and [{ ifAvailable: true }]. *)
Definition with_signal (s : sigref) : option Options :=
  Some (mkOptions None (Some s) false false).
Definition if_available : option Options :=
  Some (mkOptions None None true false).

(** The checks of lines 153-159, which come before the lock is looked up. *)
Definition passes_checks (name : string) (options : option Options) : bool :=
  let options := default (mkOptions None None false false) options in
  let mode' := default "exclusive" (opt_mode options) in
  negb (starts_with_dash name)
  && negb (opt_steal options && opt_ifAvailable options)
  && negb (opt_steal options && negb (String.eqb mode' "exclusive"))
  && negb (bool_decide (is_Some (opt_signal options))
           && (opt_steal options || opt_ifAvailable options)).

(** The mode a request asks for. *)
Definition requested_mode (options : option Options) : string :=
  default "exclusive" (opt_mode (default (mkOptions None None false false) options)).

(** What [send] posts: to the parent from a worker thread, to every
    attached worker from the hub. *)
Definition broadcast (w : World) (message : Message) : list event :=
  if isWorkerThread w then [Posted None message]
  else map (fun wk => Posted (Some wk) message) (workers w).

(** The Lock registered under a name, by value. *)
Definition registered (n : string) (w : World) : option Lock :=
  match Map_get n (collection w) with
  | Some l => heap w !! l
  | None => None
  end.

(** Every reference kept in the collection is a Lock object. *)
Definition collection_ok (w : World) : Prop :=
  Forall (fun '(_, l) => l < length (heap w)) (collection w).

(** The settlements of the promise of task [t] among some events. *)
Definition settles (t : taskref) (e : event) : bool :=
  match e with
  | Resolved (OfTask t') _ | Rejected (OfTask t') _ => Nat.eqb t t'
  | _ => false
  end.
Definition settlements (t : taskref) (es : list event) : list event :=
  filter (fun e => settles t e = true) es.

(** The handler calls made for task [t] among some events. *)
Definition runs (t : taskref) (e : event) : bool :=
  match e with
  | Invoked (OfTask t') _ _ => Nat.eqb t t'
  | _ => false
  end.
Definition handler_runs (t : taskref) (es : list event) : list event :=
  filter (fun e => runs t e = true) es.

(** Lines 170-184 of [request]: what is done with the Lock once it is
    known.  Used to say which Lock a request works on. *)
Definition use_lock (lock : lockref) (options : option Options) (handler : fn) : M promise :=
  let options := default (mkOptions None None false false) options in
  let signal := opt_signal options in
  a <- match signal with
       | None => ret false
       | Some _ => signal_aborted signal
       end ;;
  (if a then (msg <- abort_message signal ;; throw (Error msg)) else ret tt) ;;
  let type := if opt_ifAvailable options then DIRECT_CALL else DEFAULT_CALL in
  let func := [enter lock handler signal; tryDirect lock handler] in
  match func !! type with
  | Some f => f
  | None => throw (TypeError "func[type] is not a function")
  end.

(** The message of line 166. *)
Definition create_message (name mode : string) (buffer : bufref) : Message :=
  mkMessage true "create" name (Some mode) (Some buffer).

(** ** Scenarios: the calls a program makes, from a fresh main thread *)

(** request('x', { signal }, h1): the task waits for its timer. *)
Definition one_waiting : World :=
  run [NewAbortController; Request "x" (with_signal 0) 1] (init false).

(** ... and the timer fired: h1 runs and holds the lock. *)
Definition one_running : World :=
  run [Timeout] one_waiting.

(** ... then request('x', { ifAvailable: true }, h2). *)
Definition direct_while_held : World :=
  run [Request "x" if_available 2] one_running.

(** request('x', { signal }, h1); request('x', h2); the timer fires:
    h1 runs, the task of h2 is queued without a signal. *)
Definition running_before_unsignalled : World :=
  run [NewAbortController; Request "x" (with_signal 0) 1; Request "x" None 2; Timeout]
      (init false).

(** The lock 'x' exists and is free; the controller aborts; then
    lock.enter(h2, signal) on the Lock a handler was given. *)
Definition aborted_before_entry : World :=
  run [NewAbortController; Request "x" (with_signal 0) 1; Timeout; Settle 0 (Fulfilled 0);
       Abort 0; CallEnter 0 2 (Some 0)]
      (init false).

(** ... and then request('x', h3), without signal. *)
Definition aborted_before_unsignalled : World :=
  run [NewAbortController; Request "x" (with_signal 0) 1; Timeout; Settle 0 (Fulfilled 0);
       Abort 0; CallEnter 0 2 (Some 0); Request "x" None 3]
      (init false).

(** 'x' is registered as exclusive and the signal is aborted. *)
Definition registered_and_aborted : World :=
  run [Abort 0] one_waiting.

(** The hub with two workers attached.  request('x', { signal }, h1)
    creates 'x' on buffer 0; another context, which got the create
    message, takes the flag; the timer of the main thread fires and finds
    the flag LOCKED: the task waits for the leave message. *)
Definition waiting_for_another_context : World :=
  run [Attach 1; Attach 2; NewAbortController; Request "x" (with_signal 0) 1;
       SharedWrite 0 LOCKED; Timeout]
      (init false).

(** Worker 2 had requested 'x' in the mode 'shared' before it heard of the
    Lock of the main thread: it made a buffer of its own, and its create
    message arrives now. *)
Definition duplicate_create : list action :=
  [SharedAlloc UNLOCKED; WorkerMessage 2 (create_message "x" "shared" 1)].

(** The other context releases the flag of buffer 0 and its leave message
    arrives. *)
Definition released_elsewhere : list action :=
  [SharedWrite 0 UNLOCKED; WorkerMessage 1 (mkMessage true "leave" "x" None None)].

(** ** Invariants of the event loop *)

(** A computation preserves [I], however it ends. *)
Definition preserves (I : World -> Prop) {A} (c : M A) : Prop :=
  forall w, I w -> I (exec c w).

(** ** Cancellation before entry *)

(** The promise that the reactions of a call settle. *)
Definition settled_promise (r : reactions) : promise :=
  match r with
  | leave_then_settle _ p => p
  | settle_only p => p
  end.

(** The parts of the state that say that task [t], with token [s], is out
    of the game: marked rejected; token aborted; no abort callback left
    for it; no call running for it. *)
Definition task_part (t : taskref) (s : sigref) (ts : list Task) : Prop :=
  exists tk, ts !! t = Some tk /\ signal tk = Some s /\ rejected tk = true.
Definition signal_part (s : sigref) (sgs : list AbortSignal) : Prop :=
  exists sg, sgs !! s = Some sg /\ aborted sg = true.
Definition listener_part (t : taskref) (sgs : list AbortSignal) : Prop :=
  forall s' sg', sgs !! s' = Some sg' -> t ∉ once_listeners sg'.
Definition running_part (t : taskref) (rn : list Call) : Prop :=
  forall c, c ∈ rn -> settled_promise (call_reactions c) <> OfTask t.

(** Task [t], waiting with token [s], was cancelled with error [e]: the
    parts above hold, no handler was ever called for it, and its promise
    was settled once, by the rejection with [e]. *)
Record cancelled (t : taskref) (s : sigref) (e : exn) (w : World) : Prop := mkCancelled {
  c_task : task_part t s (tasks w);
  c_signal : signal_part s (signals w);
  c_listeners : listener_part t (signals w);
  c_running : running_part t (running w);
  c_runs : handler_runs t (trace w) = [];
  c_settled : settlements t (trace w) = [Rejected (OfTask t) e]
}.

(** Task [t] exists, and it is in the queue of Lock [l] unless it was
    dequeued. *)
Definition queued_or_entered (l : lockref) (t : taskref) (w : World) : Prop :=
  exists tk, tasks w !! t = Some tk /\
    (entered tk = true \/ exists lk, heap w !! l = Some lk /\ t ∈ queue lk).

(** [t'] is a task whose token is [s]. *)
Definition listens (s : sigref) (w : World) (t' : taskref) : Prop :=
  exists tk', tasks w !! t' = Some tk' /\ signal tk' = Some s.

(** Task [t] waits in the queue of Lock [l] with token [s]: [enter] queued
    it and registered its abort callback, it was neither dequeued nor
    cancelled, and nothing was run or settled for it. *)
Record waiting (l : lockref) (t : taskref) (s : sigref) (w : World) : Prop := mkWaiting {
  w_queued : exists lk, heap w !! l = Some lk /\ t ∈ queue lk;
  w_task : exists tk, tasks w !! t = Some tk /\ signal tk = Some s /\
                      entered tk = false /\ rejected tk = false;
  w_listener : exists sg, signals w !! s = Some sg /\ t ∈ once_listeners sg /\
                 NoDup (once_listeners sg) /\
                 Forall (listens s w) (once_listeners sg);
  w_others : forall s' sg', s' <> s -> signals w !! s' = Some sg' -> t ∉ once_listeners sg';
  w_running : running_part t (running w);
  w_runs : handler_runs t (trace w) = [];
  w_settled : settlements t (trace w) = []
}.

(** The state while [abort] runs the callbacks registered before the one
    of task [t]: the token is aborted, the task not yet marked. *)
Record armed (t : taskref) (s : sigref) (rsn : string) (w : World) : Prop := mkArmed {
  a_task : exists tk, tasks w !! t = Some tk /\ signal tk = Some s /\
                      entered tk = false /\ rejected tk = false;
  a_signal : exists sg, signals w !! s = Some sg /\ aborted sg = true /\ reason sg = rsn;
  a_listeners : listener_part t (signals w);
  a_running : running_part t (running w);
  a_runs : handler_runs t (trace w) = [];
  a_settled : settlements t (trace w) = []
}.

(** ** The states the event loop reaches *)

Definition reachable (w : World) : Prop :=
  exists worker_thread acts, w = run acts (init worker_thread).

(** *** Well-formed worlds: what every reachable state satisfies *)

(** The promise an event is about. *)
Definition about (ev : event) : option promise :=
  match ev with
  | Invoked p _ _ | Resolved p _ | Rejected p _ => Some p
  | _ => None
  end.

(** A promise of a task that exists, among [n] tasks. *)
Definition promise_ok (n : nat) (p : promise) : Prop :=
  match p with
  | OfTask t => t < n
  | OfDirect _ => True
  end.
Definition event_ok (n : nat) (ev : event) : Prop :=
  match about ev with
  | Some p => promise_ok n p
  | None => True
  end.
Definition call_ok (n : nat) (c : Call) : Prop :=
  promise_ok n (settled_promise (call_reactions c)).

(** The abort callbacks registered on each signal. *)
Definition registered_listeners (sgs : list AbortSignal) (s : sigref) : option (list taskref) :=
  once_listeners <$> sgs !! s.

(** [t] is a task whose token is [s]. *)
Definition listens_in (ts : list Task) (s : sigref) (t : taskref) : Prop :=
  exists tk, ts !! t = Some tk /\ signal tk = Some s.

(** The queues hold tasks that exist. *)
Definition queues_ok (h : list Lock) (n : nat) : Prop :=
  forall l lk, h !! l = Some lk -> Forall (fun t => t < n) (queue lk).

(** A callback is registered once, on the token of its task.  [reg] gives
    the callbacks still to run on each signal: the registered ones, except
    while [abort] goes through them. *)
Definition listeners_ok (reg : sigref -> option (list taskref)) (ts : list Task) : Prop :=
  forall s ls, reg s = Some ls -> NoDup ls /\ Forall (listens_in ts s) ls.

(** What holds of a task that was not dequeued: it is in a queue, it was
    never run and no call runs for it; and if it has a token and was not
    cancelled, its callback is registered and its promise is pending. *)
Definition unentered_ok (h : list Lock) (reg : sigref -> option (list taskref))
           (rn : list Call) (tr : list event) (t : taskref) (tk : Task) : Prop :=
  (exists l lk, h !! l = Some lk /\ t ∈ queue lk) /\
  handler_runs t tr = [] /\
  running_part t rn /\
  (rejected tk = false -> forall s, signal tk = Some s ->
     (exists ls, reg s = Some ls /\ t ∈ ls) /\ settlements t tr = []).

Definition tasks_ok (h : list Lock) (ts : list Task) (reg : sigref -> option (list taskref))
           (rn : list Call) (tr : list event) : Prop :=
  forall t tk, ts !! t = Some tk -> entered tk = false -> unentered_ok h reg rn tr t tk.

Record well_formed_with (reg : sigref -> option (list taskref)) (w : World) : Prop := mkWF {
  wf_queues : queues_ok (heap w) (length (tasks w));
  wf_collection : collection_ok w;
  wf_listeners : listeners_ok reg (tasks w);
  wf_events : Forall (event_ok (length (tasks w))) (trace w);
  wf_calls : Forall (call_ok (length (tasks w))) (running w);
  wf_tasks : tasks_ok (heap w) (tasks w) reg (running w) (trace w)
}.

(** The invariant of the event loop. *)
Definition well_formed (w : World) : Prop :=
  well_formed_with (registered_listeners (signals w)) w.

(** Task [t] was dequeued. *)
Definition entered_in (w : World) (t : taskref) : Prop :=
  exists tk, tasks w !! t = Some tk /\ entered tk = true.

(** The invariant while the tasks of [E], already dequeued, are being
    served. *)
Definition well_formed_after (E : list taskref) (w : World) : Prop :=
  well_formed w /\ Forall (entered_in w) E.

(** An event that is not about a task still waiting (the rejection of a
    task already marked, or of one without signal, apart). *)
Definition quiet_in (ts : list Task) (ev : event) : Prop :=
  forall t tk, ts !! t = Some tk -> entered tk = false ->
    runs t ev = false /\ (settles t ev = true -> rejected tk = true \/ signal tk = None).

(** The signals after [addEventListener] for a new task. *)
Definition listening (sig : option sigref) (task : taskref) (sgs : list AbortSignal)
  : list AbortSignal :=
  match sig with
  | Some s => alter (fun sg => with_once_listeners (once_listeners sg ++ [task]) sg) s sgs
  | None => sgs
  end.

(** The world once [enter] has queued its task and registered the callback. *)
Definition entered_world (this : lockref) (handler : fn) (sig : option sigref) (w : World)
  : World :=
  set_signals (listening sig (length (tasks w)) (signals w))
    (set_heap (alter (fun lk => with_queue (queue lk ++ [length (tasks w)]) lk) this (heap w))
       (set_tasks (tasks w ++ [mkTask handler sig false false]) w)).

(** The tasks that must have been dequeued for [p] to be settled. *)
Definition dequeued_for (p : promise) : list taskref :=
  match p with
  | OfTask t => [t]
  | OfDirect _ => []
  end.

(** The callbacks still to run while [abort] goes through the listeners of
    signal [s]: [ls] for [s], the registered ones for the other signals. *)
Definition pending_listeners (s : sigref) (ls : list taskref) (sgs : list AbortSignal)
  : sigref -> option (list taskref) :=
  fun s' => if decide (s' = s) then Some ls else registered_listeners sgs s'.

(** ** Views of a Lock by reference *)

Definition owns (w : World) (l : lockref) : bool := from_option owner false (heap w !! l).
Definition queue_of (w : World) (l : lockref) : list taskref := from_option queue [] (heap w !! l).

(** The world once [leave] has released the flag of [lk], before it
    retries. *)
Definition released (this : lockref) (lk : Lock) (w : World) : World :=
  set_trace (trace w ++ Stored (buffer lk) UNLOCKED
                     :: broadcast w (mkMessage true "leave" (name lk) None None))
    (set_heap (alter (with_owner false) this (heap w))
       (set_mem (<[buffer lk := UNLOCKED]> (mem w)) w)).

(** The world once [tryEnter] has taken the flag of [lk] and dequeued
    [task]. *)
Definition dequeued (this : lockref) (lk : Lock) (task : taskref) (rest : list taskref)
           (prev : Z) (w : World) : World :=
  set_tasks (alter (with_entered true) task (tasks w))
    (set_heap (alter (with_queue rest) this
                 (alter (with_trying false) this (alter (with_owner true) this (heap w))))
       (set_trace (trace w ++ [Exchanged (buffer lk) prev])
          (set_mem (<[buffer lk := LOCKED]> (mem w)) w))).

(** The event that settles [p]. *)
Definition settled (p : promise) (st : settlement) : event :=
  match st with
  | Fulfilled v => Resolved p v
  | Failed e => Rejected p e
  end.

(** The number of handler calls [tryDirect] makes. *)
Definition direct_calls (lk : Lock) (prev : Z) : nat :=
  (if (length (queue lk) =? 0)%nat then 0 else 1) + (if (prev =? LOCKED)%Z then 1 else 0) + 1.

(** ** Mutual exclusion on the enter path *)

(** The actions that go through [enter]: no tryDirect, no call of leave()
    by user code, no write to a flag from outside the module. *)
Definition queued_only (a : action) : bool :=
  match a with
  | Request _ options _ => negb (opt_ifAvailable (default (mkOptions None None false false) options))
  | CallLeave _ | CallTryDirect _ _ | SharedWrite _ _ => false
  | _ => true
  end.

(** No running handler was given the Lock [this]. *)
Definition free (this : lockref) (w : World) : Prop :=
  forall c, c ∈ running w -> call_arg c <> Some this.

(** What one context keeps, [Bo] being buffers that are held from outside
    the context: one owner per buffer; the flag of an owner is LOCKED; a
    running handler holds a Lock that is owner, and is alone to hold it. *)
Record exclusive (Bo : bufref -> Prop) (w : World) : Prop := mkExclusive {
  ex_owner : forall l1 l2 lk1 lk2,
      heap w !! l1 = Some lk1 -> heap w !! l2 = Some lk2 ->
      owner lk1 = true -> owner lk2 = true -> buffer lk1 = buffer lk2 -> l1 = l2;
  ex_flag : forall l lk,
      heap w !! l = Some lk -> owner lk = true ->
      mem w !! buffer lk = Some LOCKED /\ ~ Bo (buffer lk);
  ex_calls : forall c, c ∈ running w ->
      exists l p lk, call_arg c = Some l /\ call_reactions c = leave_then_settle l p /\
                     heap w !! l = Some lk /\ owner lk = true;
  ex_once : forall i j ci cj,
      running w !! i = Some ci -> running w !! j = Some cj ->
      call_arg ci = call_arg cj -> i = j;
  ex_others : forall b, Bo b -> mem w !! b = Some LOCKED
}.

(** How a call of tryEnter or leave on [this] ends: the invariant holds,
    and if the call threw, no handler holds [this]. *)
Definition ends_exclusive (Bo : bufref -> Prop) (this : lockref) {A}
           (r : World * completion A) : Prop :=
  exclusive Bo r.1 /\ match r.2 with Throw _ => free this r.1 | _ => True end.

(** ** Several contexts on one shared memory *)

(** The contexts of a program (the main thread and its workers), each with
    its own module instance, and the memory of the SharedArrayBuffers. *)
Record System := mkSystem {
  shared : list Z;
  contexts : list World
}.

(** Context [i] does [a], on the shared memory as it is now, and runs the
    callback to its end.  This gives the interleavings of whole
    callbacks, which are executions of the program; threads that run in
    parallel have more of them (other threads can write a flag between
    two Atomics operations of a callback), so [sys_run] is used to exhibit
    executions, not to say what holds of all of them. *)
Definition sys_step (i : nat) (a : action) (S : System) : System :=
  match contexts S !! i with
  | Some w =>
      let w' := step a (set_mem (shared S) w) in
      mkSystem (mem w') (<[i := w']> (contexts S))
  | None => S
  end.

Definition sys_run (steps : list (nat * action)) (S : System) : System :=
  foldl (fun S s => sys_step s.1 s.2 S) S steps.

(** Fresh contexts; [threads] says of each whether it is a worker. *)
Definition sys_init (threads : list bool) : System :=
  mkSystem [] (map init threads).

(** The main thread requests 'x' and its handler h1 runs; a worker that
    received the create message requests 'x' with ifAvailable. *)
Definition direct_in_worker : System :=
  sys_run [(0, NewAbortController); (0, Request "x" (with_signal 0) 1); (0, Timeout);
           (1, ParentMessage (create_message "x" "exclusive" 0));
           (1, Request "x" if_available 2)]
          (sys_init [false; true]).

(** ** Views of acquisitions, queues, the collection and messages *)

(** The leave message of a Lock (line 86). *)
Definition leave_message (lk : Lock) : Message :=
  mkMessage true "leave" (name lk) None None.

(** h1 runs with the lock 'x'; a second request waits behind it. *)
Definition one_running_one_waiting : World :=
  run [NewAbortController; Request "x" (with_signal 0) 1; Timeout;
       Request "x" (with_signal 0) 2]
      (init false).

(** ... h1 has finished: the lock 'x' is free again. *)
Definition released_once : World :=
  run [NewAbortController; Request "x" (with_signal 0) 1; Timeout; Settle 0 (Fulfilled 0)]
      (init false).

(** The world once [enter] has queued a task with token [s] and set its
    timer. *)
Definition queued_world (this : lockref) (handler : fn) (s : sigref) (w : World) : World :=
  set_timers (timers w ++ [this])
    (set_signals (alter (fun sg => with_once_listeners (once_listeners sg ++ [length (tasks w)]) sg)
                    s (signals w))
       (set_heap (alter (with_trying true) this
                    (alter (fun lk => with_queue (queue lk ++ [length (tasks w)]) lk) this (heap w)))
          (set_tasks (tasks w ++ [mkTask handler (Some s) false false]) w))).

(** The world once [tryEnter] has dequeued [task] and called its handler. *)
Definition serving (this : lockref) (lk : Lock) (task : taskref) (rest : list taskref)
           (prev : Z) (h : fn) (w : World) : World :=
  let W := dequeued this lk task rest prev w in
  set_trace (trace W ++ [Invoked (OfTask task) h (Some this)])
    (set_running (running W ++ [mkCall h (Some this) (leave_then_settle this (OfTask task))]) W).

(** ** First come, first served; each handler once *)





(** ** What the Lock methods leave alone *)

(** A property of the world that the Lock methods and abort() cannot
    break: it is kept by every write to the flags, the Locks, the tasks,
    the timers, the running calls and the log, and by every update of a
    signal that keeps its reason.  (Nothing is said of the collection
    and of the attached workers.) *)
Record lock_frame (I : World -> Prop) : Prop := mkLockFrame {
  fr_mem : forall x w, I w -> I (set_mem x w);
  fr_heap : forall x w, I w -> I (set_heap x w);
  fr_tasks : forall x w, I w -> I (set_tasks x w);
  fr_signals : forall f s w, (forall sg, reason (f sg) = reason sg) ->
                             I w -> I (set_signals (alter f s (signals w)) w);
  fr_timers : forall x w, I w -> I (set_timers x w);
  fr_running : forall x w, I w -> I (set_running x w);
  fr_directs : forall x w, I w -> I (set_directs x w);
  fr_trace : forall x w, I w -> I (set_trace x w)
}.

(** The events that do not reject a promise with Error('NotSupportedError'). *)
Definition not_unsupported (ev : event) : Prop :=
  forall p, ev <> Rejected p (Error "NotSupportedError").

(** Since [w0], only events that satisfy [ok] were logged. *)
Definition logged_only (ok : event -> Prop) (w0 w : World) : Prop :=
  exists added, trace w = trace w0 ++ added /\ Forall ok added.

(** The actions that deliver a message. *)
Definition is_message (a : action) : bool :=
  match a with
  | WorkerMessage _ _ | ParentMessage _ => true
  | _ => false
  end.

(** What the hub relays when worker [wk] sent [m]: to every other attached
    worker, in the order they were attached. *)
Definition relayed (wk : worker) (m : Message) (w : World) : list event :=
  map (fun peer => Posted (Some peer) m) (filter (fun peer => peer <> wk) (workers w)).

(** No Lock registered under [n] is waiting for a retry. *)
Definition nothing_trying (n : string) (w : World) : Prop :=
  forall k l lk, (k, l) ∈ collection w -> heap w !! l = Some lk ->
                 name lk = n -> trying lk = false.

(** What abort leaves alone for a task that was dequeued. *)
Record untouched (t : taskref) (tk : Task) (w0 w : World) : Prop := {
  un_task : tasks w !! t = Some tk;
  un_settlements : settlements t (trace w) = settlements t (trace w0);
  un_runs : handler_runs t (trace w) = handler_runs t (trace w0);
  un_running : running w = running w0;
  un_timers : timers w = timers w0;
  un_heap : heap w = heap w0;
  un_mem : mem w = mem w0
}.

(** * Properties *)

(** ** Symbolic execution of the monadic code *)

Ltac prims :=
  cbv beta iota zeta delta
    [bind ret throw stuck try_catch when log get_lock get_task get_signal
     update_lock update_task update_signal Atomics_exchange Atomics_store
     new_SharedArrayBuffer resolve reject invoke Promise_executor
     signal_aborted abort_message addEventListener setTimeout collection_set].

Ltac flat :=
  cbn [mem heap tasks signals collection workers isWorkerThread timers running
       directs trace set_mem set_heap set_tasks set_signals set_collection
       set_workers set_timers set_running set_directs set_trace fst snd] in *.

Lemma set_trace_same w : set_trace (trace w) w = w.
Proof. destruct w; reflexivity. Qed.

Lemma post_all message wks w :
  for_of wks (fun wk => log (Posted (Some wk) message)) w
  = (set_trace (trace w ++ map (fun wk => Posted (Some wk) message) wks) w, Normal tt).
Proof.
  revert w. induction wks as [|wk wks IH]; intros w.
  - cbn. rewrite app_nil_r, set_trace_same. reflexivity.
  - cbn [for_of map]. prims. rewrite IH.
    unfold set_trace. flat. rewrite <- app_assoc. reflexivity.
Qed.

(** [send] only appends the posted events. *)
Lemma send_spec message w :
  send message w = (set_trace (trace w ++ broadcast w message) w, Normal tt).
Proof.
  unfold send, broadcast. destruct (isWorkerThread w); [reflexivity|].
  apply post_all.
Qed.

(** The two functions only meet their callee on a world whose store of
    Locks is known. *)
Lemma leave_with_ext k1 k2 this w :
  (forall w', heap w' = alter (with_owner false) this (heap w) -> k1 this w' = k2 this w') ->
  leave_with k1 this w = leave_with k2 this w.
Proof.
  intros H. unfold leave_with. prims.
  destruct (heap w !! this) as [lk|] eqn:Hlk; [|reflexivity].
  destruct (negb (owner lk)); [reflexivity|].
  destruct (mem w !! buffer lk); [|reflexivity].
  rewrite send_spec. apply H. reflexivity.
Qed.

Lemma tryEnter_with_ext leave1 leave2 this w :
  (forall w' lk task rest,
      heap w !! this = Some lk -> queue lk = task :: rest ->
      heap w' = alter (with_queue rest) this
                  (alter (with_trying false) this (alter (with_owner true) this (heap w))) ->
      leave1 this w' = leave2 this w') ->
  tryEnter_with leave1 this w = tryEnter_with leave2 this w.
Proof.
  intros H. unfold tryEnter_with. prims.
  destruct (heap w !! this) as [lk|] eqn:Hlk; [|reflexivity].
  destruct (queue lk) as [|task rest] eqn:Hq; [reflexivity|].
  destruct (mem w !! buffer lk) as [prev|]; [|reflexivity].
  destruct (prev =? LOCKED)%Z; [reflexivity|].
  flat.
  destruct (alter (with_entered true) task (tasks w) !! task) as [tk|]; [|reflexivity].
  destruct (signal tk) as [s|]; [|reflexivity].
  flat.
  destruct (signals w !! s) as [sg|]; [|reflexivity].
  destruct (aborted sg); [|reflexivity].
  erewrite H; [reflexivity|reflexivity|exact Hq|reflexivity].
Qed.

(** The fuel never runs out: [tryEnter] and [leave] satisfy the two
    equations of the source, each calling the other. *)
Lemma tryEnter_unfold this w : tryEnter this w = tryEnter_with leave this w.
Proof.
  unfold tryEnter.
  destruct (heap w !! this) as [lk|] eqn:Hlk.
  2:{ unfold tryEnter_with; prims; try rewrite Hlk; reflexivity. }
  cbn [tryEnter_fuel].
  apply tryEnter_with_ext. intros w' lk' task rest Hlk' Hq Hw'.
  assert (lk' = lk) by congruence. subst lk'.
  unfold leave. apply leave_with_ext. intros w'' Hw''.
  unfold tryEnter. rewrite Hw'', Hw', !list_lookup_alter_eq, Hlk. cbn.
  rewrite Hq. reflexivity.
Qed.

Lemma leave_unfold this w : leave this w = leave_with tryEnter this w.
Proof. reflexivity. Qed.

(** ** tryDirect (C1) *)

(** C1, at a failing input.  The claim: every call of tryDirect invokes the
    handler exactly once.  With a task waiting in the queue and the flag
    free, request('x', { ifAvailable: true }, h2) invokes h2 twice: once
    with null because the queue is not empty, and, there being no return,
    once more with the Lock after the exchange. *)
Theorem tryDirect_invokes_handler_twice :
  registered "x" one_waiting = Some (mkLock "x" "exclusive" [0] false true 0) /\
  flag 0 one_waiting = Some UNLOCKED /\
  emitted (request "x" if_available 2) one_waiting
  = [Invoked (OfDirect 0) 2 None; Exchanged 0 UNLOCKED; Invoked (OfDirect 0) 2 (Some 0)] /\
  invocations 2 (emitted (request "x" if_available 2) one_waiting) = 2.
Proof. vm_compute. repeat split; reflexivity. Qed.

(** The same when the exchange fails: null, then the Lock all the same. *)
Lemma tryDirect_invokes_handler_after_failed_exchange :
  flag 0 one_running = Some LOCKED /\
  emitted (request "x" if_available 2) one_running
  = [Exchanged 0 LOCKED; Invoked (OfDirect 0) 2 None; Invoked (OfDirect 0) 2 (Some 0)].
Proof. vm_compute. split; reflexivity. Qed.

(** ** query (C2) *)

(** C2, the code's behaviour.  The claim: query() returns the snapshot of
    held locks and pending tasks and never fails.  query() builds the
    snapshot without the collection, and the loop over the missing
    argument throws: in every state query() fails with a TypeError. *)
Theorem query_always_throws (w : World) :
  query w = (w, Throw (TypeError "resources is not iterable")).
Proof. reflexivity. Qed.

(** ** Mutual exclusion (C4) *)

(** C4, at a failing input.  The claim: at most one handler runs at a time
    for a name, and at most one context has [owner] true for a flag.  While
    h1 holds 'x', request('x', { ifAvailable: true }, h2) finds the flag
    LOCKED, and still sets [owner] and calls h2 with the Lock: two handlers
    hold the Lock, and when h2 finishes the flag is released under h1.
    The same from a worker: both contexts have [owner] true on the flag,
    and a handler runs with the Lock in each. *)
Theorem two_handlers_hold_the_lock :
  map call_fn (holders 0 one_running) = [1] /\
  map call_fn (holders 0 direct_while_held) = [1; 2] /\
  (let released := run [Settle 2 (Fulfilled 7)] direct_while_held in
   map call_fn (holders 0 released) = [1] /\ flag 0 released = Some UNLOCKED) /\
  map (fun w => (buffer <$> heap w !! 0, owner <$> heap w !! 0)) (contexts direct_in_worker)
  = [(Some 0, Some true); (Some 0, Some true)] /\
  map (fun w => map call_fn (holders 0 w)) (contexts direct_in_worker) = [[1]; [2]].
Proof. vm_compute. repeat split; reflexivity. Qed.

(** ** A request without signal (C5) *)

(** C5, at a failing input.  The claim: without a signal the task is queued
    and the acquisition proceeds and settles normally.  request('x', h)
    queues the task, then fails on signal.addEventListener: the promise is
    rejected with a TypeError and no retry is scheduled, while the task
    stays in the queue. *)
Theorem request_without_signal_is_rejected :
  let w := exec (request "x" None 1) (init false) in
  outcome (request "x" None 1) (init false) = Normal (OfTask 0) /\
  emitted (request "x" None 1) (init false)
  = [Stored 0 UNLOCKED;
     Rejected (OfTask 0) (TypeError "Cannot read properties of null (reading 'addEventListener')")] /\
  registered "x" w = Some (mkLock "x" "exclusive" [0] false true 0) /\
  timers w = [].
Proof. vm_compute. repeat split; reflexivity. Qed.

(** ** Cancellation at entry (C7) *)

(** C7, at a failing input.  The claim: a task dequeued with its token
    already signalled settles with a cancellation error unless it was
    settled before.  Here the head task has an aborted token and was not
    rejected early, and the task behind it has no signal.  tryEnter
    dequeues the head and calls leave(), whose retry dequeues the second
    task and throws on signal.aborted; the reject of the head task is
    never reached, and the flag stays LOCKED. *)
Theorem cancelled_at_entry_is_not_settled :
  let w := aborted_before_unsignalled in
  registered "x" w = Some (mkLock "x" "exclusive" [1; 2] false true 0) /\
  tasks w !! 1 = Some (mkTask 2 (Some 0) false false) /\
  signals w !! 0 = Some (mkSignal true "undefined" [1]) /\
  tasks w !! 2 = Some (mkTask 3 None false false) /\
  outcome (tryEnter 0) w
  = Throw (TypeError "Cannot read properties of null (reading 'aborted')") /\
  emitted (tryEnter 0) w = [Exchanged 0 UNLOCKED; Stored 0 UNLOCKED; Exchanged 0 UNLOCKED] /\
  settlements 1 (trace (exec (tryEnter 0) w)) = [] /\
  flag 0 (exec (tryEnter 0) w) = Some LOCKED.
Proof. vm_compute. repeat split; reflexivity. Qed.

(** ** Release (C9) *)

(** C9, at a failing input.  The claim: when the handler of an entered task
    throws, the error reaches the caller after the flag is released, and
    the lock is never left held.  Here h1 runs and the task behind it has
    no signal.  h1 fails with 'boom': leave() releases the flag and
    retries, the retry takes the flag again and throws on signal.aborted,
    so reject(err) is never reached; the promise of h1 stays pending and
    the flag stays LOCKED with no handler running. *)
Theorem handler_error_is_lost :
  let w := running_before_unsignalled in
  let w' := run [Settle 0 (Failed (Error "boom"))] w in
  map call_fn (running w) = [1] /\
  registered "x" w = Some (mkLock "x" "exclusive" [1] true false 0) /\
  tasks w !! 1 = Some (mkTask 2 None false false) /\
  drop (length (trace w)) (trace w')
  = [Stored 0 UNLOCKED; Exchanged 0 UNLOCKED;
     Uncaught (TypeError "Cannot read properties of null (reading 'aborted')")] /\
  settlements 0 (trace w') = [] /\
  running w' = [] /\
  flag 0 w' = Some LOCKED.
Proof. vm_compute. repeat split; reflexivity. Qed.

(** ** The collection *)

Lemma Map_get_set_eq n l m : Map_get n (Map_set n l m) = Some l.
Proof.
  induction m as [|[k v] m IH]; cbn.
  - rewrite String.eqb_refl. reflexivity.
  - destruct (String.eqb k n) eqn:E; cbn; rewrite E; [reflexivity|exact IH].
Qed.

Lemma Map_get_set_ne n n' l m : n' <> n -> Map_get n' (Map_set n l m) = Map_get n' m.
Proof.
  intros Hne. induction m as [|[k v] m IH]; cbn.
  - destruct (String.eqb n n') eqn:E; [|reflexivity].
    apply String.eqb_eq in E. congruence.
  - destruct (String.eqb k n) eqn:E; cbn.
    + apply String.eqb_eq in E. subst k.
      destruct (String.eqb n n') eqn:E'; [|reflexivity].
      apply String.eqb_eq in E'. congruence.
    + destruct (String.eqb k n'); [reflexivity|exact IH].
Qed.

Lemma Map_get_elem n l m : Map_get n m = Some l -> (n, l) ∈ m.
Proof.
  induction m as [|[k v] m IH]; cbn; [discriminate|].
  destruct (String.eqb k n) eqn:E.
  - intros [= ->]. apply String.eqb_eq in E. subst. left.
  - intros H. right. auto.
Qed.

(** ** receive of a create message (C3) *)

Lemma receive_create w n md b :
  receive (mkMessage true "create" n md (Some b)) w
  = (set_collection (Map_set n (length (heap w)) (collection w))
       (set_heap (heap w ++ [mkLock n (default "exclusive" md) [] false false b]) w),
     Normal tt).
Proof. reflexivity. Qed.

(** C3, the code does otherwise.  The claim: a create message for a name
    that is already registered leaves the registry as it is.  The code:
    receive builds a new Lock and overwrites the entry without looking it
    up.  Here 'x' is registered with a task in its queue, waiting for
    another context to release the flag; when that context releases and
    its leave message arrives, the task is retried and its handler runs.
    If a second create message for 'x' arrives first, the entry of 'x' is
    a new Lock with an empty queue, not trying, of another mode and on
    another buffer; the old Lock, with the waiting task, is in the
    collection no more, so the leave message retries nothing: the flag is
    free, no timer is set, no call is running, and the handler was never
    called. *)
Theorem receive_create_drops_registered_lock :
  let w := waiting_for_another_context in
  let waiting := mkLock "x" "exclusive" [0] false true 0 in
  registered "x" w = Some waiting /\
  handler_runs 0 (trace (run released_elsewhere w)) = [Invoked (OfTask 0) 1 (Some 0)] /\
  let w' := run duplicate_create w in
  registered "x" w' = Some (mkLock "x" "shared" [] false false 1) /\
  registry w' <> registry w /\
  heap w' !! 0 = Some waiting /\
  let w'' := run released_elsewhere w' in
  handler_runs 0 (trace w'') = [] /\
  heap w'' !! 0 = Some waiting /\
  flag 0 w'' = Some UNLOCKED /\ timers w'' = [] /\ running w'' = [].
Proof.
  vm_compute. repeat split; try reflexivity. discriminate.
Qed.

(** ** request (C8, C10) *)

Lemma passes_checks_inv name options :
  passes_checks name options = true ->
  let o := default (mkOptions None None false false) options in
  starts_with_dash name = false /\
  opt_steal o && opt_ifAvailable o = false /\
  opt_steal o && negb (String.eqb (requested_mode options) "exclusive") = false /\
  bool_decide (is_Some (opt_signal o)) && (opt_steal o || opt_ifAvailable o) = false.
Proof.
  unfold passes_checks, requested_mode. cbv zeta.
  rewrite !andb_true_iff, !negb_true_iff. tauto.
Qed.

(** What [request] does once the checks of lines 153-159 have passed. *)
Lemma request_after_checks name options handler w :
  passes_checks name options = true ->
  request name options handler w =
  match Map_get name (collection w) with
  | Some l =>
      match heap w !! l with
      | Some lk =>
          if String.eqb (mode lk) (requested_mode options)
          then use_lock l options handler w
          else (w, Throw (Error "The mode can`t be changed"))
      | None => (w, Stuck)
      end
  | None =>
      let b := length (mem w) in
      let l := length (heap w) in
      let md := requested_mode options in
      use_lock l options handler
        (set_trace (trace w ++ Stored b UNLOCKED :: broadcast w (create_message name md b))
           (set_collection (Map_set name l (collection w))
              (set_heap (heap w ++ [mkLock name md [] false false b])
                 (set_mem (mem w ++ [UNLOCKED]) w))))
  end.
Proof.
  intros Hc. apply passes_checks_inv in Hc. cbv zeta in Hc.
  destruct Hc as (H1 & H2 & H3 & H4).
  unfold request, requested_mode in *. cbv zeta. rewrite H1, H2, H3, H4.
  unfold bind at 1.
  destruct (Map_get name (collection w)) as [l|] eqn:Hget.
  - unfold bind at 1. unfold bind at 1. unfold get_lock at 1.
    destruct (heap w !! l) as [lk|] eqn:Hlk; [|reflexivity].
    destruct (String.eqb (mode lk) _) eqn:E; cbn [negb]; reflexivity.
  - unfold new_Lock.
    destruct w as [m h ts sgs col wks iw tm rn d tr].
    prims. flat.
    rewrite (list_lookup_middle m [] 0%Z (length m)) by reflexivity.
    flat. rewrite (list_lookup_middle h [] _ (length h)) by reflexivity.
    rewrite send_spec. flat.
    unfold use_lock. prims. flat.
    replace (<[length m:=UNLOCKED]> (m ++ [0%Z])) with (m ++ [UNLOCKED]).
    2:{ rewrite (insert_app_r_alt m [0%Z] (length m)) by lia.
        replace (length m - length m) with 0 by lia. reflexivity. }
    unfold set_trace. flat. unfold create_message, buffer, broadcast. flat.
    rewrite <- app_assoc. reflexivity.
Qed.

Lemma use_lock_aborted l o handler w s sg :
  opt_signal o = Some s -> signals w !! s = Some sg -> aborted sg = true ->
  use_lock l (Some o) handler w
  = (w, Throw (Error (String.append "AbortError: " (reason sg)))).
Proof.
  intros Hs Hsg Ha. unfold use_lock. cbn [default from_option id]. rewrite Hs.
  prims. rewrite Hsg. cbv beta iota. rewrite Ha. cbv beta iota.
  rewrite Hsg. reflexivity.
Qed.

(** C8, as the code has it.  For a request that passes the option checks of
    lines 153-159 and names a registered Lock: when the requested mode
    differs from the Lock's, the request fails with the mode error and
    nothing at all has changed; when the modes match, no Lock is created
    and nothing is broadcast: the request goes on (lines 170-184) with the
    registered Lock, from the unchanged state. *)
Theorem request_of_registered_name
  (w : World) (name : string) (options : option Options) (handler : fn)
  (l : lockref) (lk : Lock) :
  passes_checks name options = true ->
  Map_get name (collection w) = Some l ->
  heap w !! l = Some lk ->
  (mode lk <> requested_mode options ->
   request name options handler w = (w, Throw (Error "The mode can`t be changed"))) /\
  (mode lk = requested_mode options ->
   request name options handler w = use_lock l options handler w).
Proof.
  intros Hc Hget Hlk. rewrite (request_after_checks _ _ _ _ Hc), Hget, Hlk.
  split; intros Hm.
  - destruct (String.eqb (mode lk) (requested_mode options)) eqn:E; [|reflexivity].
    apply String.eqb_eq in E. contradiction.
  - rewrite Hm, String.eqb_refl. reflexivity.
Qed.

Lemma request_of_registered_name_witness :
  request "x" (Some (mkOptions (Some "shared") (Some 0) false false)) 2 one_waiting
  = (one_waiting, Throw (Error "The mode can`t be changed")).
Proof.
  refine (proj1 (request_of_registered_name one_waiting "x"
                   (Some (mkOptions (Some "shared") (Some 0) false false)) 2 0
                   (mkLock "x" "exclusive" [0] false true 0) _ _ _) _).
  - reflexivity.
  - reflexivity.
  - reflexivity.
  - discriminate.
Defined.

(** C8, the claim as stated fails: 'x' is registered as exclusive, the
    request asks for 'shared' together with steal, and it fails with
    NotSupportedError, not with the mode error. *)
Lemma request_mode_conflict_behind_checks :
  let options := Some (mkOptions (Some "shared") None false true) in
  (mode <$> registered "x" one_waiting) = Some "exclusive" /\
  requested_mode options = "shared" /\
  request "x" options 2 one_waiting = (one_waiting, Throw (Error "NotSupportedError")).
Proof. vm_compute. repeat split; reflexivity. Qed.

(** C10, as the code has it.  For a request that passes the option checks
    and whose signal is already aborted: if the name is registered with the
    requested mode, the request is rejected with the abort error and
    nothing has changed; if the name is not registered, it is rejected
    with the abort error after a new Lock was created on a fresh UNLOCKED
    buffer, registered and broadcast, and no task, timer or handler call
    was added.  (If the name is registered with another mode, C8 applies:
    the mode error comes first.) *)
Theorem request_with_aborted_signal
  (w : World) (name : string) (o : Options) (handler : fn)
  (s : sigref) (sg : AbortSignal) :
  passes_checks name (Some o) = true ->
  opt_signal o = Some s -> signals w !! s = Some sg -> aborted sg = true ->
  let e := Error (String.append "AbortError: " (reason sg)) in
  match Map_get name (collection w) with
  | Some l =>
      forall lk, heap w !! l = Some lk -> mode lk = requested_mode (Some o) ->
      request name (Some o) handler w = (w, Throw e)
  | None =>
      let b := length (mem w) in
      let l := length (heap w) in
      let md := requested_mode (Some o) in
      let w' := exec (request name (Some o) handler) w in
      outcome (request name (Some o) handler) w = Throw e /\
      mem w' = mem w ++ [UNLOCKED] /\
      heap w' = heap w ++ [mkLock name md [] false false b] /\
      collection w' = Map_set name l (collection w) /\
      emitted (request name (Some o) handler) w
      = Stored b UNLOCKED :: broadcast w (create_message name md b) /\
      tasks w' = tasks w /\ timers w' = timers w /\ running w' = running w
  end.
Proof.
  intros Hc Hs Hsg Ha e.
  destruct (Map_get name (collection w)) as [l|] eqn:Hget.
  - intros lk Hlk Hm.
    rewrite (request_after_checks _ _ _ _ Hc), Hget, Hlk, Hm, String.eqb_refl.
    apply (use_lock_aborted l o handler w s sg Hs Hsg Ha).
  - cbv zeta. unfold exec, outcome, emitted, exec.
    rewrite (request_after_checks _ _ _ _ Hc), Hget. cbv zeta.
    rewrite (use_lock_aborted _ o handler _ s sg Hs); [|exact Hsg|exact Ha].
    flat. repeat split; try reflexivity.
    apply drop_app_length.
Qed.

Lemma request_with_aborted_signal_witness :
  outcome (request "y" (with_signal 0) 2) registered_and_aborted
  = Throw (Error "AbortError: undefined").
Proof.
  refine (proj1 (request_with_aborted_signal registered_and_aborted "y"
                   (mkOptions None (Some 0) false false) 2 0
                   (mkSignal true "undefined" []) _ _ _ _)).
  - reflexivity.
  - reflexivity.
  - reflexivity.
  - reflexivity.
Defined.

(** C10, the claim as stated fails: the signal is aborted, 'x' is
    registered as exclusive and the request asks for 'shared': it is
    rejected with the mode error, not with an AbortError. *)
Lemma request_aborted_signal_behind_mode_check :
  let options := Some (mkOptions (Some "shared") (Some 0) false false) in
  passes_checks "x" options = true /\
  (aborted <$> signals registered_and_aborted !! 0) = Some true /\
  request "x" options 2 registered_and_aborted
  = (registered_and_aborted, Throw (Error "The mode can`t be changed")).
Proof. vm_compute. repeat split; reflexivity. Qed.

(** ** Invariants: how they compose *)

Ltac case_scrutinee :=
  flat;
  match goal with
  | |- context [match ?x with _ => _ end] =>
      lazymatch x with
      | context [match _ with _ => _ end] => fail
      | _ => destruct x eqn:?
      end
  end; flat.

Section Preserved.
Variable I : World -> Prop.

Lemma preserves_ret {A} (a : A) : preserves I (ret a).
Proof. intros w H. exact H. Qed.

Lemma preserves_throw {A} (x : exn) : preserves I (@throw A x).
Proof. intros w H. exact H. Qed.

Lemma preserves_bind {A B} (c : M A) (k : A -> M B) :
  preserves I c -> (forall a, preserves I (k a)) -> preserves I (bind c k).
Proof.
  intros Hc Hk w H. unfold exec, bind. specialize (Hc w H). unfold exec in Hc.
  destruct (c w) as [w' [a| |]]; cbn [fst] in *; [|exact Hc|exact Hc].
  apply Hk. exact Hc.
Qed.

Lemma preserves_try_catch {A} (c : M A) (h : exn -> M A) :
  preserves I c -> (forall x, preserves I (h x)) -> preserves I (try_catch c h).
Proof.
  intros Hc Hh w H. unfold exec, try_catch. specialize (Hc w H). unfold exec in Hc.
  destruct (c w) as [w' [a|x|]]; cbn [fst] in *; [exact Hc| |exact Hc].
  apply Hh. exact Hc.
Qed.

Lemma preserves_for_of {A} (xs : list A) (body : A -> M unit) :
  (forall x, x ∈ xs -> preserves I (body x)) -> preserves I (for_of xs body).
Proof.
  induction xs as [|x xs IH]; intros Hb; cbn [for_of].
  - apply preserves_ret.
  - apply preserves_bind.
    + apply Hb. left.
    + intros _. apply IH. intros y Hy. apply Hb. right. exact Hy.
Qed.

Lemma preserves_callback c :
  (forall x, preserves I (log (Uncaught x))) -> preserves I c -> preserves I (callback c).
Proof. intros Hlog Hc. apply preserves_try_catch; [exact Hc|exact Hlog]. Qed.

(** [tryEnter] and [leave], from their bodies. *)
Lemma preserves_tryEnter_leave :
  (forall leave this, preserves I (leave this) -> preserves I (tryEnter_with leave this)) ->
  (forall tryEnter this, preserves I (tryEnter this) -> preserves I (leave_with tryEnter this)) ->
  (forall this, preserves I (tryEnter this)) /\ (forall this, preserves I (leave this)).
Proof.
  intros Hbody Hleave.
  assert (Hfuel : forall fuel this, preserves I (tryEnter_fuel fuel this)).
  { induction fuel as [|fuel IH]; intros this; [intros w H; exact H|].
    cbn [tryEnter_fuel]. apply Hbody, Hleave, IH. }
  assert (Htry : forall this, preserves I (tryEnter this)).
  { intros this w H. unfold exec, tryEnter. destruct (heap w !! this); [|exact H].
    apply Hfuel. exact H. }
  split; [exact Htry|]. intros this. apply Hleave, Htry.
Qed.

End Preserved.

(** ** Cancellation before entry (C6) *)

Section Cancelled.
Variables (t : taskref) (s : sigref) (e : exn).

(** *** The parts of [cancelled] under each update of a store *)

Lemma task_part_entered ts i :
  task_part t s ts -> task_part t s (alter (with_entered true) i ts).
Proof.
  intros (tk & Htk & Hs & Hr). unfold task_part.
  destruct (decide (i = t)) as [->|Hne].
  - rewrite list_lookup_alter_eq, Htk. eexists. split; [reflexivity|]. split; assumption.
  - rewrite list_lookup_alter_ne by exact Hne. eauto.
Qed.

Lemma task_part_rejected ts i :
  task_part t s ts -> task_part t s (alter (with_rejected true) i ts).
Proof.
  intros (tk & Htk & Hs & Hr). unfold task_part.
  destruct (decide (i = t)) as [->|Hne].
  - rewrite list_lookup_alter_eq, Htk. eexists. split; [reflexivity|].
    split; [assumption|reflexivity].
  - rewrite list_lookup_alter_ne by exact Hne. eauto.
Qed.

Lemma task_part_new ts tk : task_part t s ts -> task_part t s (ts ++ [tk]).
Proof.
  intros (tk0 & Htk & Hs & Hr). exists tk0. split; [|split; assumption].
  apply lookup_app_l_Some. exact Htk.
Qed.

Lemma task_part_fresh ts : task_part t s ts -> t <> length ts.
Proof. intros (tk0 & Htk & _). apply lookup_lt_Some in Htk. lia. Qed.

Lemma signal_part_aborted sgs i :
  signal_part s sgs -> signal_part s (alter (with_aborted true) i sgs).
Proof.
  intros (sg & Hsg & Ha). unfold signal_part.
  destruct (decide (i = s)) as [->|Hne].
  - rewrite list_lookup_alter_eq, Hsg. eexists. split; reflexivity.
  - rewrite list_lookup_alter_ne by exact Hne. eauto.
Qed.

Lemma signal_part_listeners sgs i (f : AbortSignal -> list taskref) :
  signal_part s sgs ->
  signal_part s (alter (fun sg => with_once_listeners (f sg) sg) i sgs).
Proof.
  intros (sg & Hsg & Ha). unfold signal_part.
  destruct (decide (i = s)) as [->|Hne].
  - rewrite list_lookup_alter_eq, Hsg. eexists. split; [reflexivity|exact Ha].
  - rewrite list_lookup_alter_ne by exact Hne. eauto.
Qed.

Lemma signal_part_cleared sgs i :
  signal_part s sgs -> signal_part s (alter (with_once_listeners []) i sgs).
Proof. apply (signal_part_listeners sgs i (fun _ => [])). Qed.

Lemma signal_part_new sgs sg : signal_part s sgs -> signal_part s (sgs ++ [sg]).
Proof.
  intros (sg0 & Hsg & Ha). exists sg0. split; [|assumption].
  apply lookup_app_l_Some. exact Hsg.
Qed.

Lemma listener_part_aborted sgs i :
  listener_part t sgs -> listener_part t (alter (with_aborted true) i sgs).
Proof.
  intros H s' sg'. destruct (decide (i = s')) as [->|Hne].
  - rewrite list_lookup_alter_eq. destruct (sgs !! s') as [sg|] eqn:E; [|discriminate].
    intros [= <-]. exact (H _ _ E).
  - rewrite list_lookup_alter_ne by exact Hne. apply H.
Qed.

Lemma listener_part_cleared sgs i :
  listener_part t sgs -> listener_part t (alter (with_once_listeners []) i sgs).
Proof.
  intros H s' sg'. destruct (decide (i = s')) as [->|Hne].
  - rewrite list_lookup_alter_eq. destruct (sgs !! s') as [sg|] eqn:E; [|discriminate].
    intros [= <-]. cbn. apply not_elem_of_nil.
  - rewrite list_lookup_alter_ne by exact Hne. apply H.
Qed.

Lemma listener_part_added sgs i task :
  task <> t -> listener_part t sgs ->
  listener_part t
    (alter (fun sg => with_once_listeners (once_listeners sg ++ [task]) sg) i sgs).
Proof.
  intros Hne H s' sg'. destruct (decide (i = s')) as [->|Hne'].
  - rewrite list_lookup_alter_eq. destruct (sgs !! s') as [sg|] eqn:E; [|discriminate].
    intros [= <-]. cbn. rewrite elem_of_app, list_elem_of_singleton.
    intros [Hin|Heq]; [exact (H _ _ E Hin)|congruence].
  - rewrite list_lookup_alter_ne by exact Hne'. apply H.
Qed.

Lemma listener_part_new sgs :
  listener_part t sgs -> listener_part t (sgs ++ [mkSignal false "undefined" []]).
Proof.
  intros H s' sg' Hl. apply lookup_app_Some in Hl as [Hl|[_ Hl]]; [exact (H _ _ Hl)|].
  destruct (s' - length sgs); cbn in Hl; [|discriminate].
  injection Hl as <-. apply not_elem_of_nil.
Qed.

Lemma running_part_invoke rn c :
  settled_promise (call_reactions c) <> OfTask t ->
  running_part t rn -> running_part t (rn ++ [c]).
Proof.
  intros Hc H c'. rewrite elem_of_app, list_elem_of_singleton. intros [Hin| ->]; auto.
Qed.

Lemma running_part_delete rn i : running_part t rn -> running_part t (delete i rn).
Proof. intros H c Hin. apply H. eapply list_elem_of_delete_inv. exact Hin. Qed.

Lemma handler_runs_snoc tr ev :
  handler_runs t (tr ++ [ev]) = handler_runs t tr ++ (if runs t ev then [ev] else []).
Proof.
  unfold handler_runs. rewrite filter_app. f_equal.
  rewrite filter_cons, filter_nil. destruct (runs t ev); cbn.
  - destruct (decide _); [reflexivity|congruence].
  - destruct (decide _); [congruence|reflexivity].
Qed.

Lemma settlements_snoc tr ev :
  settlements t (tr ++ [ev]) = settlements t tr ++ (if settles t ev then [ev] else []).
Proof.
  unfold settlements. rewrite filter_app. f_equal.
  rewrite filter_cons, filter_nil. destruct (settles t ev); cbn.
  - destruct (decide _); [reflexivity|congruence].
  - destruct (decide _); [congruence|reflexivity].
Qed.

Lemma handler_runs_posted tr (w : World) m :
  handler_runs t (tr ++ broadcast w m) = handler_runs t tr.
Proof.
  unfold handler_runs. rewrite filter_app. unfold broadcast.
  destruct (isWorkerThread w); [apply app_nil_r|].
  induction (workers w) as [|wk wks IH]; [apply app_nil_r|].
  cbn [map]. rewrite filter_cons. exact IH.
Qed.

Lemma settlements_posted tr (w : World) m :
  settlements t (tr ++ broadcast w m) = settlements t tr.
Proof.
  unfold settlements. rewrite filter_app. unfold broadcast.
  destruct (isWorkerThread w); [apply app_nil_r|].
  induction (workers w) as [|wk wks IH]; [apply app_nil_r|].
  cbn [map]. rewrite filter_cons. exact IH.
Qed.

(** A task dequeued by [tryEnter] whose handler is called, or which is
    rejected there, is not the cancelled one. *)
Lemma aborted_task_stays_out ts sgs task tk s0 sg0 :
  task_part t s ts -> signal_part s sgs ->
  alter (with_entered true) task ts !! task = Some tk ->
  signal tk = Some s0 -> sgs !! s0 = Some sg0 -> aborted sg0 = false ->
  task <> t.
Proof.
  intros (tk0 & Htk & Hs & Hr) (sg & Hsg & Ha) Hget Hsig Hsg0 Ha0 ->.
  rewrite list_lookup_alter_eq, Htk in Hget. cbn in Hget. injection Hget as <-.
  cbn in Hsig. congruence.
Qed.

Lemma rejected_task_is_skipped ts task tk :
  task_part t s ts ->
  alter (with_entered true) task ts !! task = Some tk ->
  negb (rejected tk) = true ->
  task <> t.
Proof.
  intros (tk0 & Htk & Hs & Hr) Hget Hn ->.
  rewrite list_lookup_alter_eq, Htk in Hget. cbn in Hget. injection Hget as <-.
  cbn in Hn. rewrite Hr in Hn. discriminate.
Qed.

Ltac parts H :=
  let Ht := fresh "Ht" in let Hs := fresh "Hs" in let Hl := fresh "Hl" in
  let Hr := fresh "Hr" in let Hruns := fresh "Hruns" in let Hset := fresh "Hset" in
  destruct H as [Ht Hs Hl Hr Hruns Hset]; flat.

Ltac part_step :=
  first
    [ assumption
    | apply task_part_entered | apply task_part_rejected | apply task_part_new
    | apply signal_part_aborted | apply signal_part_cleared
    | apply signal_part_listeners | apply signal_part_new
    | apply listener_part_aborted | apply listener_part_cleared
    | apply listener_part_new
    | apply running_part_delete ].

Ltac trace_step :=
  repeat first [ rewrite handler_runs_snoc | rewrite settlements_snoc
               | rewrite handler_runs_posted | rewrite settlements_posted ];
  cbn [runs settles]; rewrite ?app_nil_r.

Ltac leaf :=
  unfold exec; flat; constructor; flat; repeat part_step; trace_step; try assumption.

Ltac other_task Hne :=
  rewrite (proj2 (Nat.eqb_neq t _)) by (first [exact Hne | congruence]);
  rewrite ?app_nil_r; assumption.

(** *** The methods of Lock *)

Lemma tryEnter_with_cancelled leave this :
  preserves (cancelled t s e) (leave this) ->
  preserves (cancelled t s e) (tryEnter_with leave this).
Proof.
  intros Hleave w H. pose proof H as H0. parts H.
  unfold exec, tryEnter_with. prims.
  destruct (heap w !! this) as [lk|]; [|exact H0].
  destruct (queue lk) as [|task rest]; [exact H0|].
  destruct (mem w !! buffer lk) as [prev|]; [|exact H0].
  destruct (prev =? LOCKED)%Z; flat; [leaf|].
  destruct (alter (with_entered true) task (tasks w) !! task) as [tk|] eqn:Hget; flat; [|leaf].
  destruct (signal tk) as [s0|] eqn:Hsig; flat; [|leaf].
  destruct (signals w !! s0) as [sg0|] eqn:Hsg0; flat; [|leaf].
  destruct (aborted sg0) eqn:Ha0.
  - match goal with |- context [leave this ?W] =>
      assert (Hw1 : cancelled t s e W) by leaf;
      apply Hleave in Hw1; unfold exec in Hw1;
      destruct (leave this W) as [w2 [[]| |]] end; flat; try exact Hw1.
    destruct (negb (rejected tk)) eqn:Hrej; [|exact Hw1].
    destruct (signals w2 !! s0); flat; [|exact Hw1].
    pose proof (rejected_task_is_skipped _ _ _ Ht Hget Hrej) as Hne.
    parts Hw1. leaf; other_task Hne.
  - pose proof (aborted_task_stays_out _ _ _ _ _ _ Ht Hs Hget Hsig Hsg0 Ha0) as Hne.
    leaf.
    + apply running_part_invoke; [cbn; congruence|assumption].
    + other_task Hne.
Qed.

Lemma leave_with_cancelled tryEnter this :
  preserves (cancelled t s e) (tryEnter this) ->
  preserves (cancelled t s e) (leave_with tryEnter this).
Proof.
  intros Htry w H. pose proof H as H0.
  unfold exec, leave_with. prims.
  destruct (heap w !! this) as [lk|]; [|exact H0].
  destruct (negb (owner lk)); [exact H0|].
  destruct (mem w !! buffer lk); [|exact H0].
  flat. rewrite send_spec. apply Htry. parts H. leaf.
Qed.

Lemma tryEnter_cancelled this : preserves (cancelled t s e) (tryEnter this).
Proof.
  apply (preserves_tryEnter_leave _ tryEnter_with_cancelled leave_with_cancelled).
Qed.

Lemma leave_cancelled this : preserves (cancelled t s e) (leave this).
Proof.
  apply (preserves_tryEnter_leave _ tryEnter_with_cancelled leave_with_cancelled).
Qed.

Lemma enter_cancelled this handler signal :
  preserves (cancelled t s e) (enter this handler signal).
Proof.
  intros w H. pose proof H as H0. parts H.
  pose proof (task_part_fresh _ Ht) as Hfresh.
  unfold exec, enter. prims. flat.
  destruct signal as [s0|]; flat.
  - destruct (signals w !! s0); flat; leaf.
    apply listener_part_added; [congruence|assumption].
  - leaf. other_task Hfresh.
Qed.

Lemma tryDirect_cancelled this handler :
  preserves (cancelled t s e) (tryDirect this handler).
Proof.
  intros w H. pose proof H as H0. parts H.
  unfold exec, tryDirect. prims. flat.
  repeat case_scrutinee; leaf.
  all: repeat (apply running_part_invoke; [cbn; congruence|]); assumption.
Qed.

(** *** The rest of the module *)

Lemma log_cancelled ev :
  runs t ev = false -> settles t ev = false -> preserves (cancelled t s e) (log ev).
Proof.
  intros H1 H2 w H. parts H. unfold log. leaf.
  - rewrite H1, app_nil_r. assumption.
  - rewrite H2, app_nil_r. assumption.
Qed.

Lemma settles_other p :
  p <> OfTask t ->
  forall v x, settles t (Resolved p v) = false /\ settles t (Rejected p x) = false.
Proof.
  intros Hp v x. destruct p as [t'|n]; cbn; [|split; reflexivity].
  rewrite (proj2 (Nat.eqb_neq t t')) by congruence. split; reflexivity.
Qed.

Lemma resolve_cancelled p v : p <> OfTask t -> preserves (cancelled t s e) (resolve p v).
Proof.
  intros Hp. apply log_cancelled; [reflexivity|apply (settles_other p Hp v (Error ""))].
Qed.

Lemma reject_cancelled p x : p <> OfTask t -> preserves (cancelled t s e) (reject p x).
Proof.
  intros Hp. apply log_cancelled; [reflexivity|apply (settles_other p Hp 0 x)].
Qed.

Lemma callback_cancelled c :
  preserves (cancelled t s e) c -> preserves (cancelled t s e) (callback c).
Proof. apply preserves_callback. intros x. apply log_cancelled; reflexivity. Qed.

Lemma react_cancelled r st :
  settled_promise r <> OfTask t -> preserves (cancelled t s e) (react r st).
Proof.
  intros Hp. destruct r as [this p|p], st as [v|x]; cbn in Hp; cbn [react].
  - apply preserves_try_catch.
    + apply preserves_bind; [apply leave_cancelled|].
      intros _. apply resolve_cancelled. exact Hp.
    + intros err. apply preserves_bind; [apply leave_cancelled|].
      intros _. apply reject_cancelled. exact Hp.
  - apply preserves_bind; [apply leave_cancelled|].
    intros _. apply reject_cancelled. exact Hp.
  - apply resolve_cancelled. exact Hp.
  - apply reject_cancelled. exact Hp.
Qed.

Lemma settle_call_cancelled i st : preserves (cancelled t s e) (settle_call i st).
Proof.
  intros w H. unfold exec, settle_call.
  destruct (running w !! i) as [c|] eqn:Hc; [|exact H].
  apply callback_cancelled.
  - apply react_cancelled. apply (c_running _ _ _ _ H).
    apply list_elem_of_lookup. eauto.
  - parts H. leaf.
Qed.

Lemma fire_timer_cancelled : preserves (cancelled t s e) fire_timer.
Proof.
  intros w H. unfold exec, fire_timer. destruct (timers w) as [|this more]; [exact H|].
  apply callback_cancelled; [apply tryEnter_cancelled|].
  parts H. leaf.
Qed.

Lemma new_Lock_cancelled n md b : preserves (cancelled t s e) (new_Lock n md b).
Proof.
  intros w H. pose proof H as H0. parts H. unfold exec, new_Lock. prims.
  destruct b as [b|]; flat; [leaf|].
  rewrite (list_lookup_middle (mem w) [] 0%Z (length (mem w))) by reflexivity.
  flat. leaf.
Qed.

Lemma collection_set_cancelled n l : preserves (cancelled t s e) (collection_set n l).
Proof. intros w H. parts H. unfold collection_set. leaf. Qed.

Lemma get_lock_cancelled l : preserves (cancelled t s e) (get_lock l).
Proof. intros w H. unfold exec, get_lock. destruct (heap w !! l); exact H. Qed.

Lemma send_cancelled m : preserves (cancelled t s e) (send m).
Proof. intros w H. unfold exec. rewrite send_spec. parts H. leaf. Qed.

Lemma signal_aborted_cancelled sig : preserves (cancelled t s e) (signal_aborted sig).
Proof.
  intros w H. unfold exec, signal_aborted. destruct sig as [s0|]; [|exact H].
  prims. destruct (signals w !! s0); exact H.
Qed.

Lemma abort_message_cancelled sig : preserves (cancelled t s e) (abort_message sig).
Proof.
  intros w H. unfold exec, abort_message. destruct sig as [s0|]; [|exact H].
  prims. destruct (signals w !! s0); exact H.
Qed.

Lemma receive_cancelled m : preserves (cancelled t s e) (receive m).
Proof.
  unfold receive. destruct (negb (webLocks m)); [apply preserves_ret|].
  destruct (String.eqb (kind m) "create").
  { apply preserves_bind; [apply new_Lock_cancelled|].
    intros l. apply collection_set_cancelled. }
  destruct (String.eqb (kind m) "leave"); [|apply preserves_ret].
  intros w. apply preserves_for_of. intros l _.
  apply preserves_bind; [apply get_lock_cancelled|].
  intros lk. destruct (_ && _); [apply tryEnter_cancelled|apply preserves_ret].
Qed.

Lemma on_worker_message_cancelled wk m :
  preserves (cancelled t s e) (on_worker_message wk m).
Proof.
  unfold on_worker_message. apply preserves_bind; [|intros _; apply receive_cancelled].
  intros w. apply preserves_for_of. intros peer _.
  destruct (bool_decide _); [|apply preserves_ret].
  apply log_cancelled; reflexivity.
Qed.

Lemma request_cancelled n options handler :
  preserves (cancelled t s e) (request n options handler).
Proof.
  unfold request. cbv zeta.
  repeat (match goal with |- preserves _ (if ?b then _ else _) => destruct b end;
          [apply preserves_throw|]).
  apply preserves_bind; [intros w H; exact H|]. intros found.
  apply preserves_bind.
  { destruct found as [l|].
    - apply preserves_bind; [apply get_lock_cancelled|]. intros lk.
      destruct (negb _); [apply preserves_throw|apply preserves_ret].
    - apply preserves_bind; [apply new_Lock_cancelled|]. intros l.
      apply preserves_bind; [apply collection_set_cancelled|]. intros _.
      apply preserves_bind; [apply get_lock_cancelled|]. intros lk.
      apply preserves_bind; [apply send_cancelled|]. intros _. apply preserves_ret. }
  intros l. apply preserves_bind.
  { destruct (opt_signal _); [apply signal_aborted_cancelled|apply preserves_ret]. }
  intros a. apply preserves_bind.
  { destruct a; [|apply preserves_ret].
    apply preserves_bind; [apply abort_message_cancelled|].
    intros msg. apply preserves_throw. }
  intros _. destruct (opt_ifAvailable _); cbn.
  - apply tryDirect_cancelled.
  - apply enter_cancelled.
Qed.

Lemma on_abort_cancelled task : task <> t -> preserves (cancelled t s e) (on_abort task).
Proof.
  intros Hne w H. pose proof H as H0. parts H. unfold exec, on_abort. prims.
  destruct (tasks w !! task) as [tk|]; [|exact H0].
  destruct (negb (entered tk)); [|exact H0]. flat.
  destruct (signal tk) as [s0|]; flat; [|leaf].
  destruct (signals w !! s0); flat; leaf.
  other_task Hne.
Qed.

Lemma abort_cancelled s0 : preserves (cancelled t s e) (abort s0).
Proof.
  intros w H. pose proof H as H0. parts H.
  unfold abort. unfold exec, bind at 1, get_signal.
  destruct (signals w !! s0) as [sg0|] eqn:Hsg0; [|exact H0].
  refine (preserves_bind _ _ _ _ _ w H0).
  { intros w' H'. parts H'. unfold update_signal. leaf. }
  intros _. apply preserves_bind.
  { intros w' H'. parts H'. unfold update_signal. leaf. }
  intros _. apply preserves_for_of. intros task Hin.
  apply on_abort_cancelled. intros ->. exact (Hl _ _ Hsg0 Hin).
Qed.

Lemma perform_cancelled a : preserves (cancelled t s e) (perform a).
Proof.
  destruct a; cbn [perform].
  - apply preserves_bind; [apply request_cancelled|intros _; apply preserves_ret].
  - intros w H. exact H.
  - intros w H. parts H. unfold new_AbortController, bind. leaf.
  - apply abort_cancelled.
  - intros w H. parts H. unfold attach. leaf.
  - intros w. unfold exec. destruct (bool_decide _); [|intros H; exact H].
    apply callback_cancelled, on_worker_message_cancelled.
  - intros w. unfold exec. destruct (isWorkerThread w); [|intros H; exact H].
    apply callback_cancelled, receive_cancelled.
  - apply fire_timer_cancelled.
  - apply settle_call_cancelled.
  - apply preserves_bind; [apply enter_cancelled|intros _; apply preserves_ret].
  - apply tryEnter_cancelled.
  - apply leave_cancelled.
  - apply preserves_bind; [apply tryDirect_cancelled|intros _; apply preserves_ret].
  - intros w H. parts H. leaf.
  - intros w H. parts H. leaf.
Qed.

Lemma step_cancelled a w : cancelled t s e w -> cancelled t s e (step a w).
Proof.
  intros H. unfold step. destruct (enabled a w); [|exact H].
  apply perform_cancelled. exact H.
Qed.

Lemma run_cancelled acts w : cancelled t s e w -> cancelled t s e (run acts w).
Proof.
  revert w. induction acts as [|a acts IH]; intros w H; [exact H|].
  cbn. apply IH, step_cancelled, H.
Qed.

End Cancelled.

(** ** A queued task stays queued until it is dequeued *)

Section Queued.
Variables (l : lockref) (t : taskref).

Lemma queued_same w w' :
  tasks w' = tasks w -> heap w' = heap w ->
  queued_or_entered l t w -> queued_or_entered l t w'.
Proof. unfold queued_or_entered. intros -> ->. auto. Qed.

Lemma queued_task_update (f : Task -> Task) i w w' :
  (forall tk, entered tk = true -> entered (f tk) = true) ->
  tasks w' = alter f i (tasks w) -> heap w' = heap w ->
  queued_or_entered l t w -> queued_or_entered l t w'.
Proof.
  intros Hf Ht Hh (tk & Htk & H). unfold queued_or_entered. rewrite Ht, Hh.
  destruct (decide (i = t)) as [->|Hne].
  - rewrite list_lookup_alter_eq, Htk. eexists. split; [reflexivity|].
    destruct H as [H|H]; [left; auto|right; exact H].
  - rewrite list_lookup_alter_ne by exact Hne. eauto.
Qed.

Lemma queued_lock_update (f : Lock -> Lock) i w w' :
  (forall lk, t ∈ queue lk -> t ∈ queue (f lk)) ->
  tasks w' = tasks w -> heap w' = alter f i (heap w) ->
  queued_or_entered l t w -> queued_or_entered l t w'.
Proof.
  intros Hf Ht Hh (tk & Htk & H). unfold queued_or_entered. rewrite Ht, Hh.
  exists tk. split; [exact Htk|]. destruct H as [H|(lk & Hlk & Hin)]; [left; exact H|].
  right. destruct (decide (i = l)) as [->|Hne].
  - rewrite list_lookup_alter_eq, Hlk. eexists. split; [reflexivity|auto].
  - rewrite list_lookup_alter_ne by exact Hne. eauto.
Qed.

Lemma queued_new_objects w w' ts h :
  tasks w' = tasks w ++ ts -> heap w' = heap w ++ h ->
  queued_or_entered l t w -> queued_or_entered l t w'.
Proof.
  intros Ht Hh (tk & Htk & H). unfold queued_or_entered. rewrite Ht, Hh.
  exists tk. split; [apply lookup_app_l_Some; exact Htk|].
  destruct H as [H|(lk & Hlk & Hin)]; [left; exact H|].
  right. exists lk. split; [apply lookup_app_l_Some; exact Hlk|exact Hin].
Qed.

(** The dequeue of [tryEnter]: [queue.shift()] and [task.entered = true]. *)
Lemma queued_shift this lk task rest w w' :
  heap w !! this = Some lk -> queue lk = task :: rest ->
  heap w' = alter (with_queue rest) this
              (alter (with_trying false) this (alter (with_owner true) this (heap w))) ->
  tasks w' = alter (with_entered true) task (tasks w) ->
  queued_or_entered l t w -> queued_or_entered l t w'.
Proof.
  intros Hlk Hq Hh Ht (tk & Htk & H). unfold queued_or_entered. rewrite Ht, Hh.
  destruct (decide (task = t)) as [->|Hne].
  { rewrite list_lookup_alter_eq, Htk. eexists. split; [reflexivity|]. left. reflexivity. }
  rewrite list_lookup_alter_ne by exact Hne. exists tk. split; [exact Htk|].
  destruct H as [H|(lk0 & Hlk0 & Hin)]; [left; exact H|]. right.
  destruct (decide (this = l)) as [->|Hne'].
  - rewrite !list_lookup_alter_eq, Hlk. eexists. split; [reflexivity|].
    cbn. assert (lk0 = lk) by congruence. subst lk0. rewrite Hq in Hin.
    apply elem_of_cons in Hin as [->|Hin]; [congruence|exact Hin].
  - rewrite !list_lookup_alter_ne by exact Hne'. eauto.
Qed.

Ltac same := eapply queued_same; [| |eassumption]; reflexivity.

Lemma tryEnter_with_queued leave this :
  preserves (queued_or_entered l t) (leave this) ->
  preserves (queued_or_entered l t) (tryEnter_with leave this).
Proof.
  intros Hleave w H.
  unfold exec, tryEnter_with. prims.
  destruct (heap w !! this) as [lk|] eqn:Hlk; [|exact H].
  destruct (queue lk) as [|task rest] eqn:Hq; [exact H|].
  destruct (mem w !! buffer lk) as [prev|]; [|exact H].
  destruct (prev =? LOCKED)%Z; flat; [same|].
  assert (H1 : forall w1,
             heap w1 = alter (with_queue rest) this
                         (alter (with_trying false) this
                                (alter (with_owner true) this (heap w))) ->
             tasks w1 = alter (with_entered true) task (tasks w) ->
             queued_or_entered l t w1)
    by (intros w1 Hh Ht; eapply (queued_shift this lk task rest w); eauto).
  destruct (alter (with_entered true) task (tasks w) !! task) as [tk|]; flat;
    [|apply H1; reflexivity].
  destruct (signal tk) as [s0|]; flat; [|apply H1; reflexivity].
  destruct (signals w !! s0) as [sg0|]; flat; [|apply H1; reflexivity].
  destruct (aborted sg0); [|apply H1; reflexivity].
  match goal with |- context [leave this ?W] =>
    assert (Hw1 : queued_or_entered l t W) by (apply H1; reflexivity);
    apply Hleave in Hw1; unfold exec in Hw1;
    destruct (leave this W) as [w2 [[]| |]] end; flat; try exact Hw1.
  destruct (negb (rejected tk)); [|exact Hw1].
  destruct (signals w2 !! s0); flat; [|exact Hw1].
  same.
Qed.

Lemma leave_with_queued tryEnter this :
  preserves (queued_or_entered l t) (tryEnter this) ->
  preserves (queued_or_entered l t) (leave_with tryEnter this).
Proof.
  intros Htry w H.
  unfold exec, leave_with. prims.
  destruct (heap w !! this) as [lk|]; [|exact H].
  destruct (negb (owner lk)); [exact H|].
  destruct (mem w !! buffer lk); [|exact H].
  flat. rewrite send_spec. apply Htry.
  eapply (queued_lock_update (with_owner false) this w); [auto|reflexivity|reflexivity|exact H].
Qed.

Lemma tryEnter_queued this : preserves (queued_or_entered l t) (tryEnter this).
Proof. apply (preserves_tryEnter_leave _ tryEnter_with_queued leave_with_queued). Qed.

Lemma leave_queued this : preserves (queued_or_entered l t) (leave this).
Proof. apply (preserves_tryEnter_leave _ tryEnter_with_queued leave_with_queued). Qed.

Lemma log_queued ev : preserves (queued_or_entered l t) (log ev).
Proof. intros w H. unfold exec, log. same. Qed.

Lemma enter_queued this handler signal :
  preserves (queued_or_entered l t) (enter this handler signal).
Proof.
  intros w H.
  assert (H1 : forall w1,
             tasks w1 = tasks w ++ [mkTask handler signal false false] ->
             heap w1 = alter (with_trying true) this
                         (alter (fun lk => with_queue (queue lk ++ [length (tasks w)]) lk)
                                this (heap w)) ->
             queued_or_entered l t w1).
  { intros w1 Ht Hh.
    eapply (queued_lock_update (with_trying true) this
              (set_heap (alter (fun lk => with_queue (queue lk ++ [length (tasks w)]) lk)
                               this (heap w)) w1)); [auto|reflexivity|exact Hh|].
    eapply (queued_lock_update _ this (set_tasks (tasks w1) w));
      [|reflexivity|reflexivity|].
    { intros lk Hin. cbn. apply elem_of_app. left. exact Hin. }
    eapply (queued_new_objects w _ _ []); [exact Ht|cbn; rewrite app_nil_r; reflexivity|exact H]. }
  unfold exec, enter. prims. flat.
  destruct signal as [s0|]; flat; [|apply H1; reflexivity].
  destruct (signals w !! s0); flat; apply H1; reflexivity.
Qed.

Lemma tryDirect_queued this handler :
  preserves (queued_or_entered l t) (tryDirect this handler).
Proof.
  intros w H. unfold exec, tryDirect. prims. flat.
  repeat case_scrutinee; try same.
  all: eapply (queued_lock_update (with_owner true) this w);
    [auto|reflexivity|reflexivity|exact H].
Qed.

Lemma callback_queued c :
  preserves (queued_or_entered l t) c -> preserves (queued_or_entered l t) (callback c).
Proof. apply preserves_callback. intros x. apply log_queued. Qed.

Lemma react_queued r st : preserves (queued_or_entered l t) (react r st).
Proof.
  destruct r as [this p|p], st as [v|x]; cbn [react].
  - apply preserves_try_catch.
    + apply preserves_bind; [apply leave_queued|]. intros _. apply log_queued.
    + intros err. apply preserves_bind; [apply leave_queued|]. intros _. apply log_queued.
  - apply preserves_bind; [apply leave_queued|]. intros _. apply log_queued.
  - apply log_queued.
  - apply log_queued.
Qed.

Lemma new_Lock_queued n md b : preserves (queued_or_entered l t) (new_Lock n md b).
Proof.
  intros w H. unfold exec, new_Lock. prims.
  destruct b as [b|]; flat.
  - eapply (queued_new_objects w _ []); [cbn; rewrite app_nil_r| |exact H]; reflexivity.
  - rewrite (list_lookup_middle (mem w) [] 0%Z (length (mem w))) by reflexivity. flat.
    eapply (queued_new_objects w _ []); [cbn; rewrite app_nil_r| |exact H]; reflexivity.
Qed.

Lemma get_lock_queued this : preserves (queued_or_entered l t) (get_lock this).
Proof. intros w H. unfold exec, get_lock. destruct (heap w !! this); exact H. Qed.

Lemma send_queued m : preserves (queued_or_entered l t) (send m).
Proof. intros w H. unfold exec. rewrite send_spec. same. Qed.

Lemma receive_queued m : preserves (queued_or_entered l t) (receive m).
Proof.
  unfold receive. destruct (negb (webLocks m)); [apply preserves_ret|].
  destruct (String.eqb (kind m) "create").
  { apply preserves_bind; [apply new_Lock_queued|].
    intros l0 w H. unfold exec, collection_set. same. }
  destruct (String.eqb (kind m) "leave"); [|apply preserves_ret].
  intros w. apply preserves_for_of. intros l0 _.
  apply preserves_bind; [apply get_lock_queued|].
  intros lk. destruct (_ && _); [apply tryEnter_queued|apply preserves_ret].
Qed.

Lemma request_queued n options handler :
  preserves (queued_or_entered l t) (request n options handler).
Proof.
  unfold request. cbv zeta.
  repeat (match goal with |- preserves _ (if ?b then _ else _) => destruct b end;
          [apply preserves_throw|]).
  apply preserves_bind; [intros w H; exact H|]. intros found.
  apply preserves_bind.
  { destruct found as [l0|].
    - apply preserves_bind; [apply get_lock_queued|]. intros lk.
      destruct (negb _); [apply preserves_throw|apply preserves_ret].
    - apply preserves_bind; [apply new_Lock_queued|]. intros l0.
      apply preserves_bind; [intros w H; unfold exec, collection_set; same|]. intros _.
      apply preserves_bind; [apply get_lock_queued|]. intros lk.
      apply preserves_bind; [apply send_queued|]. intros _. apply preserves_ret. }
  intros l0. apply preserves_bind.
  { destruct (opt_signal _) as [s0|]; [|apply preserves_ret].
    intros w H. unfold exec, signal_aborted. prims. destruct (signals w !! s0); exact H. }
  intros a. apply preserves_bind.
  { destruct a; [|apply preserves_ret].
    apply preserves_bind; [|intros msg; apply preserves_throw].
    intros w H. unfold exec, abort_message. destruct (opt_signal _) as [s0|]; [|exact H].
    prims. destruct (signals w !! s0); exact H. }
  intros _. destruct (opt_ifAvailable _); cbn.
  - apply tryDirect_queued.
  - apply enter_queued.
Qed.

Lemma on_abort_queued task : preserves (queued_or_entered l t) (on_abort task).
Proof.
  intros w H. unfold exec, on_abort. prims.
  destruct (tasks w !! task) as [tk|]; [|exact H].
  destruct (negb (entered tk)); [|exact H]. flat.
  assert (H1 : forall w1, tasks w1 = alter (with_rejected true) task (tasks w) ->
                          heap w1 = heap w -> queued_or_entered l t w1).
  { intros w1 Ht Hh. eapply (queued_task_update (with_rejected true) task w); eauto. }
  destruct (signal tk) as [s0|]; flat; [|apply H1; reflexivity].
  destruct (signals w !! s0); flat; apply H1; reflexivity.
Qed.

Lemma abort_queued s0 : preserves (queued_or_entered l t) (abort s0).
Proof.
  unfold abort. apply preserves_bind.
  { intros w H. unfold exec, get_signal. destruct (signals w !! s0); exact H. }
  intros sg. apply preserves_bind; [intros w H; unfold exec, update_signal; same|].
  intros _. apply preserves_bind; [intros w H; unfold exec, update_signal; same|].
  intros _. apply preserves_for_of. intros task _. apply on_abort_queued.
Qed.

Lemma perform_queued a : preserves (queued_or_entered l t) (perform a).
Proof.
  destruct a; cbn [perform].
  - apply preserves_bind; [apply request_queued|intros _; apply preserves_ret].
  - intros w H. exact H.
  - intros w H. unfold exec, new_AbortController, bind. same.
  - apply abort_queued.
  - intros w H. unfold exec, attach. same.
  - intros w. unfold exec. destruct (bool_decide _); [|intros H; exact H].
    apply callback_queued. unfold on_worker_message.
    apply preserves_bind; [|intros _; apply receive_queued].
    intros w'. apply preserves_for_of. intros peer _.
    destruct (bool_decide _); [apply log_queued|apply preserves_ret].
  - intros w. unfold exec. destruct (isWorkerThread w); [|intros H; exact H].
    apply callback_queued, receive_queued.
  - intros w H. unfold exec, fire_timer. destruct (timers w) as [|this more]; [exact H|].
    apply callback_queued; [apply tryEnter_queued|]. same.
  - intros w H. unfold exec, settle_call. destruct (running w !! i); [|exact H].
    apply callback_queued; [apply react_queued|]. same.
  - apply preserves_bind; [apply enter_queued|intros _; apply preserves_ret].
  - apply tryEnter_queued.
  - apply leave_queued.
  - apply preserves_bind; [apply tryDirect_queued|intros _; apply preserves_ret].
  - intros w H. unfold exec. same.
  - intros w H. unfold exec. same.
Qed.

Lemma run_queued acts w : queued_or_entered l t w -> queued_or_entered l t (run acts w).
Proof.
  revert w. induction acts as [|a acts IH]; intros w H; [exact H|].
  cbn. apply IH. unfold step. destruct (enabled a w); [|exact H].
  apply perform_queued. exact H.
Qed.

End Queued.

(** *** The token fires *)

(** [abort] does not touch the Locks. *)
Lemma abort_heap s w : heap (exec (abort s) w) = heap w.
Proof.
  assert (H : preserves (fun w' => heap w' = heap w) (abort s)); [|exact (H w eq_refl)].
  unfold abort. apply preserves_bind.
  { intros w' H. unfold exec, get_signal. destruct (signals w' !! s); exact H. }
  intros sg. apply preserves_bind; [intros w' H; exact H|].
  intros _. apply preserves_bind; [intros w' H; exact H|].
  intros _. apply preserves_for_of. intros task _ w' H.
  unfold exec, on_abort. prims.
  destruct (tasks w' !! task) as [tk|]; [|exact H].
  destruct (negb (entered tk)); [|exact H]. flat.
  destruct (signal tk) as [s0|]; flat; [|exact H].
  destruct (signals w' !! s0); flat; exact H.
Qed.

Section Abort.
Variables (t : taskref) (s : sigref) (rsn : string).

(** A callback registered before the one of [t] runs to its end and
    leaves [t] as it was. *)
Lemma on_abort_other t' w :
  t' <> t -> listens s w t' -> armed t s rsn w ->
  exists w', on_abort t' w = (w', Normal tt) /\ armed t s rsn w' /\
             (forall t'', listens s w t'' -> listens s w' t'').
Proof.
  intros Hne (tk' & Htk' & Hsig') [H1 H2 H3 H4 H5 H6].
  destruct H2 as (sg & Hsg & Ha & Hr).
  unfold on_abort. prims. rewrite Htk'.
  destruct (negb (entered tk')).
  2:{ eexists. split; [reflexivity|]. split; [constructor; eauto|auto]. }
  flat. rewrite Hsig'. flat. rewrite Hsg.
  eexists. split; [reflexivity|]. split.
  - constructor; flat; eauto.
    + destruct H1 as (tk & Htk & ?). exists tk. split; [|assumption].
      rewrite list_lookup_alter_ne by exact Hne. exact Htk.
    + rewrite handler_runs_snoc, H5. reflexivity.
    + rewrite settlements_snoc, H6. cbn [settles].
      rewrite (proj2 (Nat.eqb_neq t t')) by congruence. reflexivity.
  - intros t'' (tk'' & Htk'' & Hsig''). unfold listens. flat.
    destruct (decide (t' = t'')) as [->|Hne'].
    + rewrite list_lookup_alter_eq, Htk''. eexists. split; [reflexivity|]. exact Hsig''.
    + rewrite list_lookup_alter_ne by exact Hne'. eauto.
Qed.

(** The callback of [t] marks it and rejects its promise. *)
Lemma on_abort_self w :
  armed t s rsn w ->
  exists w', on_abort t w = (w', Normal tt) /\
             cancelled t s (Error (String.append "AbortError: " rsn)) w'.
Proof.
  intros [H1 H2 H3 H4 H5 H6].
  destruct H1 as (tk & Htk & Hsig & He & Hr).
  destruct H2 as (sg & Hsg & Ha & Hrsn).
  unfold on_abort. prims. rewrite Htk, He. cbn [negb]. flat.
  rewrite Hsig. flat. rewrite Hsg.
  eexists. split; [reflexivity|].
  constructor; flat; eauto.
  - unfold task_part. rewrite list_lookup_alter_eq, Htk. eexists.
    split; [reflexivity|]. split; [exact Hsig|reflexivity].
  - exists sg. split; assumption.
  - rewrite handler_runs_snoc, H5. reflexivity.
  - rewrite settlements_snoc, H6. cbn [settles]. rewrite Nat.eqb_refl, Hrsn. reflexivity.
Qed.

Lemma listeners_before before w :
  t ∉ before -> Forall (listens s w) before -> armed t s rsn w ->
  forall rest,
  exists w', armed t s rsn w' /\
    for_of (before ++ rest) on_abort w = for_of rest on_abort w'.
Proof.
  revert w. induction before as [|t' before IH]; intros w Hnot Hall Harmed rest.
  - exists w. split; [exact Harmed|reflexivity].
  - apply not_elem_of_cons in Hnot as [Hne Hnot].
    apply Forall_cons in Hall as [Ht' Hall].
    destruct (on_abort_other t' w (not_eq_sym Hne) Ht' Harmed) as (w1 & Hrun & Harmed1 & Hkeep).
    destruct (IH w1 Hnot) with (rest := rest) as (w' & Harmed' & Heq); [|exact Harmed1|].
    { eapply Forall_impl; [exact Hall|]. exact Hkeep. }
    exists w'. split; [exact Harmed'|].
    cbn [app for_of]. unfold bind at 1. rewrite Hrun. exact Heq.
Qed.

End Abort.

(** When the token of a waiting task fires, the task is cancelled. *)
Lemma abort_cancels l t s w :
  waiting l t s w ->
  exists sg, signals w !! s = Some sg /\
    cancelled t s (Error (String.append "AbortError: " (reason sg))) (exec (abort s) w).
Proof.
  intros [Hq Ht Hls Ho Hr Hruns Hset].
  destruct Hls as (sg & Hsg & Hin & Hnd & Hall).
  exists sg. split; [exact Hsg|].
  apply list_elem_of_split in Hin as (before & after & Hsplit).
  rewrite Hsplit in Hnd, Hall.
  apply NoDup_app in Hnd as (_ & Hnb & Hnd).
  apply NoDup_cons in Hnd as [Hna _].
  assert (Hnb' : t ∉ before). { intros Hb. apply (Hnb _ Hb). left. }
  apply Forall_app in Hall as [Hall _].
  unfold exec, abort. prims. rewrite Hsg. flat.
  set (w1 := set_signals _ _).
  assert (Harmed : armed t s (reason sg) w1).
  { subst w1. constructor; flat; try assumption.
    - rewrite !list_lookup_alter_eq, Hsg. eexists. split; [reflexivity|]. split; reflexivity.
    - intros s' sg'. destruct (decide (s = s')) as [<-|Hne].
      + rewrite !list_lookup_alter_eq, Hsg. cbn. intros [= <-]. cbn. apply not_elem_of_nil.
      + rewrite !list_lookup_alter_ne by exact Hne.
        intros Hl. exact (Ho _ _ (not_eq_sym Hne) Hl). }
  rewrite Hsplit.
  destruct (listeners_before t s (reason sg) before w1 Hnb' Hall Harmed (t :: after))
    as (w2 & Harmed2 & ->).
  cbn [for_of]. unfold bind.
  destruct (on_abort_self t s (reason sg) w2 Harmed2) as (w3 & -> & Hc).
  apply (preserves_for_of _ after on_abort); [|exact Hc].
  intros task Hin. apply on_abort_cancelled. intros ->. contradiction.
Qed.

(** ** Every reachable world is well-formed *)

(** *** The parts of [well_formed] under each update *)

Lemma promise_ok_mono n n' p : n <= n' -> promise_ok n p -> promise_ok n' p.
Proof. destruct p; cbn; [lia|auto]. Qed.

Lemma events_ok_mono n n' tr :
  n <= n' -> Forall (event_ok n) tr -> Forall (event_ok n') tr.
Proof.
  intros Hn H. eapply Forall_impl; [exact H|]. intros ev. unfold event_ok.
  destruct (about ev); [apply promise_ok_mono; exact Hn|auto].
Qed.

Lemma calls_ok_mono n n' rn :
  n <= n' -> Forall (call_ok n) rn -> Forall (call_ok n') rn.
Proof.
  intros Hn H. eapply Forall_impl; [exact H|]. intros c. apply promise_ok_mono. exact Hn.
Qed.

Lemma events_ok_snoc n tr ev :
  event_ok n ev -> Forall (event_ok n) tr -> Forall (event_ok n) (tr ++ [ev]).
Proof. intros He H. apply Forall_app. split; [exact H|]. apply Forall_singleton. exact He. Qed.

Lemma events_ok_posted n tr (w : World) m :
  Forall (event_ok n) tr -> Forall (event_ok n) (tr ++ broadcast w m).
Proof.
  intros H. apply Forall_app. split; [exact H|]. unfold broadcast.
  destruct (isWorkerThread w); [apply Forall_singleton; exact Logic.I|].
  apply Forall_fmap. apply Forall_true. intros wk. exact Logic.I.
Qed.

Lemma calls_ok_snoc n rn c :
  call_ok n c -> Forall (call_ok n) rn -> Forall (call_ok n) (rn ++ [c]).
Proof. intros He H. apply Forall_app. split; [exact H|]. apply Forall_singleton. exact He. Qed.

Lemma calls_ok_delete n rn i : Forall (call_ok n) rn -> Forall (call_ok n) (delete i rn).
Proof. apply Forall_delete. Qed.

(** Nothing was run or settled for a task that does not exist yet. *)
Lemma fresh_task_event n ev t :
  event_ok n ev -> n <= t -> runs t ev = false /\ settles t ev = false.
Proof.
  intros Hev Hn. unfold event_ok in Hev.
  destruct ev as [| | |[t'|]| [t'|] | [t'|] |]; cbn in *; try (split; reflexivity).
  all: rewrite (proj2 (Nat.eqb_neq t t')) by lia; split; reflexivity.
Qed.

Lemma fresh_task_events n tr t :
  Forall (event_ok n) tr -> n <= t -> handler_runs t tr = [] /\ settlements t tr = [].
Proof.
  intros H Hn. unfold handler_runs, settlements.
  induction H as [|ev tr Hev _ [IH1 IH2]]; [split; reflexivity|].
  destruct (fresh_task_event n ev t Hev Hn) as [H1 H2].
  rewrite !filter_cons, IH1, IH2, H1, H2. split; reflexivity.
Qed.

Lemma fresh_task_calls n rn t :
  Forall (call_ok n) rn -> n <= t -> running_part t rn.
Proof.
  intros H Hn c Hc. rewrite Forall_forall in H. specialize (H c Hc).
  unfold call_ok in H. intros Heq. rewrite Heq in H. cbn in H. lia.
Qed.

Lemma tasks_ok_log h ts reg rn tr ev :
  quiet_in ts ev -> tasks_ok h ts reg rn tr -> tasks_ok h ts reg rn (tr ++ [ev]).
Proof.
  intros Hq H t tk Htk He. destruct (H t tk Htk He) as (H1 & H2 & H3 & H4).
  destruct (Hq t tk Htk He) as [Hr Hs].
  split; [exact H1|]. split; [rewrite handler_runs_snoc, H2, Hr; reflexivity|].
  split; [exact H3|]. intros Hrej s Hsig. destruct (H4 Hrej s Hsig) as [H5 H6].
  split; [exact H5|]. rewrite settlements_snoc, H6.
  destruct (settles t ev) eqn:E; [|reflexivity].
  destruct (Hs eq_refl); congruence.
Qed.

Lemma tasks_ok_posted h ts reg rn tr (w : World) m :
  tasks_ok h ts reg rn tr -> tasks_ok h ts reg rn (tr ++ broadcast w m).
Proof.
  intros H t tk Htk He. destruct (H t tk Htk He) as (H1 & H2 & H3 & H4).
  split; [exact H1|]. split; [rewrite handler_runs_posted; exact H2|].
  split; [exact H3|]. intros Hrej s Hsig. destruct (H4 Hrej s Hsig) as [H5 H6].
  split; [exact H5|]. rewrite settlements_posted. exact H6.
Qed.

Lemma tasks_ok_heap h h' ts reg rn tr :
  (forall l lk t, h !! l = Some lk -> t ∈ queue lk ->
                  exists l' lk', h' !! l' = Some lk' /\ t ∈ queue lk') ->
  tasks_ok h ts reg rn tr -> tasks_ok h' ts reg rn tr.
Proof.
  intros Hh H t tk Htk He. destruct (H t tk Htk He) as ((l & lk & Hl & Hin) & H2).
  split; [|exact H2]. exact (Hh l lk t Hl Hin).
Qed.

Lemma queue_kept_alter (f : Lock -> Lock) i (h : list Lock) :
  (forall lk t, t ∈ queue lk -> t ∈ queue (f lk)) ->
  forall l lk t, h !! l = Some lk -> t ∈ queue lk ->
                 exists l' lk', alter f i h !! l' = Some lk' /\ t ∈ queue lk'.
Proof.
  intros Hf l lk t Hl Hin. exists l. destruct (decide (i = l)) as [->|Hne].
  - rewrite list_lookup_alter_eq, Hl. eexists. split; [reflexivity|auto].
  - rewrite list_lookup_alter_ne by exact Hne. eauto.
Qed.

Lemma queue_kept_app (h h2 : list Lock) :
  forall l lk t, h !! l = Some lk -> t ∈ queue lk ->
                 exists l' lk', (h ++ h2) !! l' = Some lk' /\ t ∈ queue lk'.
Proof.
  intros l lk t Hl Hin. exists l, lk. split; [apply lookup_app_l_Some; exact Hl|exact Hin].
Qed.

Lemma tasks_ok_invoke h ts reg rn tr c :
  (forall t tk, ts !! t = Some tk -> entered tk = false ->
                settled_promise (call_reactions c) <> OfTask t) ->
  tasks_ok h ts reg rn tr -> tasks_ok h ts reg (rn ++ [c]) tr.
Proof.
  intros Hc H t tk Htk He. destruct (H t tk Htk He) as (H1 & H2 & H3 & H4).
  split; [exact H1|]. split; [exact H2|]. split; [|exact H4].
  apply running_part_invoke; [apply (Hc t tk Htk He)|exact H3].
Qed.

Lemma tasks_ok_delete h ts reg rn tr i :
  tasks_ok h ts reg rn tr -> tasks_ok h ts reg (delete i rn) tr.
Proof.
  intros H t tk Htk He. destruct (H t tk Htk He) as (H1 & H2 & H3 & H4).
  split; [exact H1|]. split; [exact H2|]. split; [|exact H4].
  apply running_part_delete. exact H3.
Qed.

Lemma tasks_ok_reg h ts reg reg' rn tr :
  (forall s ls t, reg s = Some ls -> t ∈ ls -> exists ls', reg' s = Some ls' /\ t ∈ ls') ->
  tasks_ok h ts reg rn tr -> tasks_ok h ts reg' rn tr.
Proof.
  intros Hreg H t tk Htk He. destruct (H t tk Htk He) as (H1 & H2 & H3 & H4).
  split; [exact H1|]. split; [exact H2|]. split; [exact H3|].
  intros Hrej s Hsig. destruct (H4 Hrej s Hsig) as [(ls & Hls & Hin) H6].
  split; [|exact H6]. exact (Hreg s ls t Hls Hin).
Qed.

Lemma tasks_ok_dequeue h ts reg rn tr this lk task rest :
  h !! this = Some lk -> queue lk = task :: rest ->
  tasks_ok h ts reg rn tr ->
  tasks_ok (alter (with_queue rest) this h) (alter (with_entered true) task ts) reg rn tr.
Proof.
  intros Hlk Hq H t tk. destruct (decide (task = t)) as [->|Hne].
  { rewrite list_lookup_alter_eq. destruct (ts !! t); [|discriminate].
    cbn. intros [= <-]. cbn. discriminate. }
  rewrite list_lookup_alter_ne by exact Hne. intros Htk He.
  destruct (H t tk Htk He) as ((l & lk0 & Hl & Hin) & H2). split; [|exact H2].
  exists l. destruct (decide (this = l)) as [->|Hne'].
  - rewrite list_lookup_alter_eq, Hlk. eexists. split; [reflexivity|]. cbn.
    assert (lk0 = lk) by congruence. subst lk0. rewrite Hq in Hin.
    apply elem_of_cons in Hin as [->|Hin]; [congruence|exact Hin].
  - rewrite list_lookup_alter_ne by exact Hne'. eauto.
Qed.

(** *** Queues, listeners *)

Lemma queues_ok_mono h n n' : n <= n' -> queues_ok h n -> queues_ok h n'.
Proof.
  intros Hn H l lk Hl. eapply Forall_impl; [exact (H l lk Hl)|]. intros t. cbn. lia.
Qed.

Lemma queues_ok_alter (f : Lock -> Lock) i h n :
  (forall lk, h !! i = Some lk -> Forall (fun t => t < n) (queue lk) ->
              Forall (fun t => t < n) (queue (f lk))) ->
  queues_ok h n -> queues_ok (alter f i h) n.
Proof.
  intros Hf H l lk'. destruct (decide (i = l)) as [->|Hne].
  - rewrite list_lookup_alter_eq. destruct (h !! l) as [lk|] eqn:Hl; [|discriminate].
    cbn. intros [= <-]. apply (Hf lk eq_refl). exact (H l lk Hl).
  - rewrite list_lookup_alter_ne by exact Hne. apply H.
Qed.

Lemma queues_ok_new h n lk :
  queue lk = [] -> queues_ok h n -> queues_ok (h ++ [lk]) n.
Proof.
  intros Hq H l lk' Hl. apply lookup_app_Some in Hl as [Hl|[_ Hl]]; [exact (H l lk' Hl)|].
  destruct (l - length h); cbn in Hl; [|discriminate].
  injection Hl as <-. rewrite Hq. constructor.
Qed.

Lemma listens_in_alter (f : Task -> Task) i ts s t :
  (forall tk, signal (f tk) = signal tk) ->
  listens_in ts s t -> listens_in (alter f i ts) s t.
Proof.
  intros Hf (tk & Htk & Hs). unfold listens_in. destruct (decide (i = t)) as [->|Hne].
  - rewrite list_lookup_alter_eq, Htk. eexists. split; [reflexivity|]. rewrite Hf. exact Hs.
  - rewrite list_lookup_alter_ne by exact Hne. eauto.
Qed.

Lemma listens_in_app ts ts2 s t : listens_in ts s t -> listens_in (ts ++ ts2) s t.
Proof.
  intros (tk & Htk & Hs). exists tk. split; [apply lookup_app_l_Some; exact Htk|exact Hs].
Qed.

Lemma listeners_ok_tasks reg ts ts' :
  (forall s t, listens_in ts s t -> listens_in ts' s t) ->
  listeners_ok reg ts -> listeners_ok reg ts'.
Proof.
  intros Ht H s ls Hls. destruct (H s ls Hls) as [Hnd Hall]. split; [exact Hnd|].
  eapply Forall_impl; [exact Hall|]. intros t. apply Ht.
Qed.

Lemma listeners_ok_reg reg reg' ts :
  (forall s ls', reg' s = Some ls' ->
     reg s = Some ls' \/ (NoDup ls' /\ Forall (listens_in ts s) ls')) ->
  listeners_ok reg ts -> listeners_ok reg' ts.
Proof.
  intros Hreg H s ls Hls. destruct (Hreg s ls Hls) as [Hold|Hnew]; [exact (H s ls Hold)|exact Hnew].
Qed.

(** How the registered callbacks change with the signals. *)
Lemma registered_new sgs sg s ls :
  registered_listeners sgs s = Some ls -> registered_listeners (sgs ++ [sg]) s = Some ls.
Proof.
  unfold registered_listeners. destruct (sgs !! s) as [sg0|] eqn:E; [|discriminate].
  rewrite (lookup_app_l_Some _ _ _ _ E). auto.
Qed.

(** *** World-level steps *)

Lemma wf_same w w' :
  heap w' = heap w -> tasks w' = tasks w -> signals w' = signals w ->
  collection w' = collection w -> running w' = running w -> trace w' = trace w ->
  well_formed w -> well_formed w'.
Proof.
  intros Hh Ht Hs Hc Hr Htr [H1 H2 H3 H4 H5 H6]. unfold well_formed.
  constructor; unfold collection_ok in *; rewrite ?Hh, ?Ht, ?Hs, ?Hc, ?Hr, ?Htr; assumption.
Qed.

Lemma wf_log w ev :
  event_ok (length (tasks w)) ev -> quiet_in (tasks w) ev ->
  well_formed w -> well_formed (set_trace (trace w ++ [ev]) w).
Proof.
  intros He Hq [H1 H2 H3 H4 H5 H6]. constructor; flat; try assumption.
  - apply events_ok_snoc; assumption.
  - apply tasks_ok_log; assumption.
Qed.

Lemma wf_posted w w0 m :
  well_formed w -> well_formed (set_trace (trace w ++ broadcast w0 m) w).
Proof.
  intros [H1 H2 H3 H4 H5 H6]. constructor; flat; try assumption.
  - apply events_ok_posted; assumption.
  - apply tasks_ok_posted; assumption.
Qed.

Lemma wf_lock_flag w (f : Lock -> Lock) l :
  (forall lk, queue (f lk) = queue lk) ->
  well_formed w -> well_formed (set_heap (alter f l (heap w)) w).
Proof.
  intros Hf [H1 H2 H3 H4 H5 H6]. constructor; flat; try assumption.
  - apply queues_ok_alter; [|exact H1]. intros lk _. rewrite Hf. auto.
  - unfold collection_ok in *. flat. rewrite length_alter. exact H2.
  - eapply tasks_ok_heap; [|exact H6]. apply queue_kept_alter.
    intros lk t. rewrite Hf. auto.
Qed.

Lemma wf_invoke w c :
  call_ok (length (tasks w)) c ->
  (forall t tk, tasks w !! t = Some tk -> entered tk = false ->
                settled_promise (call_reactions c) <> OfTask t) ->
  well_formed w -> well_formed (set_running (running w ++ [c]) w).
Proof.
  intros Hc Hq [H1 H2 H3 H4 H5 H6]. constructor; flat; try assumption.
  - apply calls_ok_snoc; assumption.
  - apply tasks_ok_invoke; assumption.
Qed.

Lemma wf_delete w i :
  well_formed w -> well_formed (set_running (delete i (running w)) w).
Proof.
  intros [H1 H2 H3 H4 H5 H6]. constructor; flat; try assumption.
  - apply calls_ok_delete; assumption.
  - apply tasks_ok_delete; assumption.
Qed.

Lemma wf_dequeue w this lk task rest :
  heap w !! this = Some lk -> queue lk = task :: rest ->
  well_formed w ->
  well_formed (set_tasks (alter (with_entered true) task (tasks w))
                 (set_heap (alter (with_queue rest) this (heap w)) w)).
Proof.
  intros Hlk Hq [H1 H2 H3 H4 H5 H6]. constructor; flat; rewrite ?length_alter; try assumption.
  - apply queues_ok_alter; [|exact H1]. intros lk0 Hlk0 Hall.
    assert (lk0 = lk) by congruence. subst lk0. rewrite Hq in Hall.
    apply Forall_cons in Hall as [_ Hall]. exact Hall.
  - unfold collection_ok in *. flat. rewrite length_alter. exact H2.
  - eapply listeners_ok_tasks; [|exact H3]. intros s t. apply listens_in_alter. reflexivity.
  - eapply tasks_ok_dequeue; eassumption.
Qed.

Lemma wf_new_lock w lk :
  queue lk = [] -> well_formed w -> well_formed (set_heap (heap w ++ [lk]) w).
Proof.
  intros Hq [H1 H2 H3 H4 H5 H6]. constructor; flat; try assumption.
  - apply queues_ok_new; assumption.
  - unfold collection_ok in *. flat. eapply Forall_impl; [exact H2|].
    intros [n l]. rewrite length_app. cbn. lia.
  - eapply tasks_ok_heap; [|exact H6]. apply queue_kept_app.
Qed.

Lemma Map_set_elem n l m k v :
  (k, v) ∈ Map_set n l m -> (k, v) ∈ m \/ v = l.
Proof.
  induction m as [|[k0 v0] m IH]; cbn.
  - rewrite list_elem_of_singleton. intros [= -> ->]. right. reflexivity.
  - destruct (String.eqb k0 n).
    + rewrite !elem_of_cons. intros [[= -> ->]|H]; [right; reflexivity|left; right; exact H].
    + rewrite !elem_of_cons. intros [H|H]; [left; left; exact H|].
      destruct (IH H) as [H'|H']; [left; right; exact H'|right; exact H'].
Qed.

Lemma wf_collection_set w n l :
  l < length (heap w) ->
  well_formed w -> well_formed (set_collection (Map_set n l (collection w)) w).
Proof.
  intros Hl [H1 H2 H3 H4 H5 H6]. constructor; flat; try assumption.
  unfold collection_ok in *. flat. rewrite Forall_forall in *. intros [k v] Hin.
  apply Map_set_elem in Hin as [Hin| ->]; [exact (H2 _ Hin)|exact Hl].
Qed.

Lemma wf_new_signal w :
  well_formed w -> well_formed (set_signals (signals w ++ [mkSignal false "undefined" []]) w).
Proof.
  intros [H1 H2 H3 H4 H5 H6]. constructor; flat; try assumption.
  - eapply listeners_ok_reg; [|exact H3]. intros s ls'. unfold registered_listeners.
    destruct (signals w !! s) as [sg|] eqn:E.
    + rewrite (lookup_app_l_Some _ _ _ _ E). auto.
    + intros Hl. right. destruct ((signals w ++ _) !! s) as [sg'|] eqn:E'; [|discriminate].
      apply lookup_app_Some in E' as [E'|[_ E']]; [congruence|].
      destruct (s - length (signals w)); cbn in E'; [|discriminate].
      injection E' as <-. cbn in Hl. injection Hl as <-. split; constructor.
  - eapply tasks_ok_reg; [|exact H6]. intros s ls t Hls Hin.
    exists ls. split; [apply registered_new; exact Hls|exact Hin].
Qed.

(** The tasks of [E] stay dequeued. *)
Lemma entered_tasks_alter (f : Task -> Task) i E w w' :
  (forall tk, entered tk = true -> entered (f tk) = true) ->
  tasks w' = alter f i (tasks w) ->
  Forall (entered_in w) E -> Forall (entered_in w') E.
Proof.
  intros Hf Ht H. eapply Forall_impl; [exact H|]. intros t (tk & Htk & He).
  unfold entered_in. rewrite Ht. destruct (decide (i = t)) as [->|Hne].
  - rewrite list_lookup_alter_eq, Htk. eexists. split; [reflexivity|auto].
  - rewrite list_lookup_alter_ne by exact Hne. eauto.
Qed.

Lemma entered_tasks_app E w w' ts :
  tasks w' = tasks w ++ ts ->
  Forall (entered_in w) E -> Forall (entered_in w') E.
Proof.
  intros Ht H. eapply Forall_impl; [exact H|]. intros t (tk & Htk & He).
  exists tk. split; [rewrite Ht; apply lookup_app_l_Some; exact Htk|exact He].
Qed.

Lemma entered_tasks_same E w w' :
  tasks w' = tasks w -> Forall (entered_in w) E -> Forall (entered_in w') E.
Proof. intros Ht. apply (entered_tasks_app E w w' []). rewrite app_nil_r. exact Ht. Qed.

(** An entered task is not a waiting one. *)
Lemma entered_quiet w t :
  entered_in w t ->
  forall t' tk, tasks w !! t' = Some tk -> entered tk = false -> t' <> t.
Proof. intros (tk0 & Htk0 & He) t' tk Htk Hf ->. congruence. Qed.

Lemma entered_exists w t : entered_in w t -> t < length (tasks w).
Proof. intros (tk & Htk & _). apply lookup_lt_Some in Htk. exact Htk. Qed.

Lemma quiet_other ts ev :
  (forall t, runs t ev = false /\ settles t ev = false) -> quiet_in ts ev.
Proof. intros H t tk _ _. destruct (H t) as [-> ->]. split; [reflexivity|discriminate]. Qed.

Lemma quiet_entered w t ev :
  entered_in w t -> about ev = Some (OfTask t) -> quiet_in (tasks w) ev.
Proof.
  intros He Hab t' tk Htk Hf. pose proof (entered_quiet w t He t' tk Htk Hf) as Hne.
  destruct ev as [| | |p ? ?|p ?|p ?|]; cbn in Hab; try discriminate;
    injection Hab as ->; cbn; rewrite (proj2 (Nat.eqb_neq t' t)) by exact Hne;
    split; (reflexivity || discriminate).
Qed.

(** *** The methods of Lock *)

Ltac wf_frame W := apply (wf_same W); [reflexivity|reflexivity|reflexivity|reflexivity|reflexivity|reflexivity|].

Ltac quiet_event :=
  first [ exact Logic.I
        | apply quiet_other; intros ?; split; reflexivity ].

Ltac wf_peel :=
  lazymatch goal with
  | |- well_formed (set_mem _ ?W) => wf_frame W
  | |- well_formed (set_timers _ ?W) => wf_frame W
  | |- well_formed (set_directs _ ?W) => wf_frame W
  | |- well_formed (set_workers _ ?W) => wf_frame W
  | |- well_formed (set_trace (_ ++ broadcast _ _) ?W) => apply (wf_posted W)
  | |- well_formed (set_trace (_ ++ [?ev]) ?W) => apply (wf_log W ev); [try quiet_event|try quiet_event|]
  | |- well_formed (set_heap (alter ?f ?l _) ?W) => apply (wf_lock_flag W f l); [reflexivity|]
  | |- well_formed (set_running (delete ?i _) ?W) => apply (wf_delete W i)
  | |- well_formed (set_running (_ ++ [?c]) ?W) => apply (wf_invoke W c)
  | |- well_formed (set_heap (_ ++ [?lk]) ?W) => apply (wf_new_lock W lk); [reflexivity|]
  | |- well_formed (set_collection (Map_set ?n ?l _) ?W) => apply (wf_collection_set W n l)
  end.

Ltac entered_peel :=
  lazymatch goal with
  | |- Forall (entered_in _) _ =>
      first [ eapply entered_tasks_same; [reflexivity|]
            | eapply (entered_tasks_alter (with_entered true)); [auto|reflexivity|]
            | eapply (entered_tasks_alter (with_rejected true)); [auto|reflexivity|] ]
  end.

Lemma tryEnter_with_wf leave this :
  (forall E, preserves (well_formed_after E) (leave this)) ->
  forall E, preserves (well_formed_after E) (tryEnter_with leave this).
Proof.
  intros Hleave E w [Hwf HE]. pose proof (conj Hwf HE : well_formed_after E w) as H0.
  unfold exec, tryEnter_with. prims.
  destruct (heap w !! this) as [lk|] eqn:Hlk; [|exact H0].
  destruct (queue lk) as [|task rest] eqn:Hq; [exact H0|].
  destruct (mem w !! buffer lk) as [prev|]; [|exact H0].
  destruct (prev =? LOCKED)%Z; flat.
  { split; [repeat wf_peel; exact Hwf|entered_peel; exact HE]. }
  match goal with |- context [alter (with_entered true) task (tasks w) !! task] => idtac end.
  set (W0 := set_heap (alter (with_trying false) this (alter (with_owner true) this (heap w)))
               (set_heap (alter (with_owner true) this (heap w))
                  (set_trace (trace w ++ [Exchanged (buffer lk) prev])
                     (set_mem (<[buffer lk:=LOCKED]> (mem w)) w)))).
  assert (HW0 : well_formed W0) by (subst W0; repeat wf_peel; exact Hwf).
  assert (Hlk0 : heap W0 !! this = Some (with_trying false (with_owner true lk))).
  { subst W0. flat. rewrite !list_lookup_alter_eq, Hlk. reflexivity. }
  pose proof (wf_dequeue W0 this _ task rest Hlk0 Hq HW0) as HW1.
  assert (Htask : task < length (tasks w)).
  { pose proof (wf_queues _ _ Hwf this lk Hlk) as Hall. rewrite Hq in Hall.
    apply Forall_cons in Hall as [Hall _]. exact Hall. }
  destruct (tasks w !! task) as [tk0|] eqn:Htk0.
  2:{ apply lookup_ge_None in Htk0. lia. }
  assert (HE1 : Forall (entered_in
                  (set_tasks (alter (with_entered true) task (tasks W0))
                     (set_heap (alter (with_queue rest) this (heap W0)) W0))) (task :: E)).
  { apply Forall_cons. split.
    - unfold entered_in. subst W0. flat. rewrite list_lookup_alter_eq, Htk0.
      eexists. split; reflexivity.
    - eapply (entered_tasks_alter (with_entered true)); [auto|reflexivity|].
      subst W0. flat. exact HE. }
  subst W0. flat.
  rewrite list_lookup_alter_eq, Htk0. cbn [fmap option_fmap option_map]. flat.
  cbn [signal with_entered rejected handler].
  destruct (signal tk0) as [s0|] eqn:Hsig; flat.
  2:{ split; [exact HW1|]. apply Forall_cons in HE1 as [_ HE1]. exact HE1. }
  destruct (signals w !! s0) as [sg0|] eqn:Hsg0; flat.
  2:{ split; [exact HW1|]. apply Forall_cons in HE1 as [_ HE1]. exact HE1. }
  destruct (aborted sg0) eqn:Ha0.
  - match goal with |- context [leave this ?W] =>
      pose proof (Hleave (task :: E) W (conj HW1 HE1)) as Hw2; unfold exec in Hw2;
      destruct (leave this W) as [w2 [[]| |]] end; flat;
      destruct Hw2 as [Hwf2 HE2]; apply Forall_cons in HE2 as [Ht2 HE2];
      try (split; assumption).
    destruct (negb (rejected tk0)); [|split; assumption].
    destruct (signals w2 !! s0); flat; [|split; assumption].
    split; [|entered_peel; exact HE2].
    apply wf_log; [exact (entered_exists _ _ Ht2)| |exact Hwf2].
    apply (quiet_entered w2 task); [exact Ht2|reflexivity].
  - flat. apply Forall_cons in HE1 as [Ht1 HE1]. split; [|entered_peel; exact HE1].
    match goal with |- well_formed (set_trace (_ ++ [?ev]) ?W) => apply (wf_log W ev) end;
      [exact (entered_exists _ _ Ht1)| |].
    { apply (quiet_entered _ task); [exact Ht1|reflexivity]. }
    match goal with |- well_formed (set_running (_ ++ [?c]) ?W) => apply (wf_invoke W c) end;
      [exact (entered_exists _ _ Ht1)| |exact HW1].
    intros t tk Htk Hf. cbn. intros [= <-].
    exact (entered_quiet _ _ Ht1 _ _ Htk Hf eq_refl).
Qed.

Lemma leave_with_wf tryEnter this :
  (forall E, preserves (well_formed_after E) (tryEnter this)) ->
  forall E, preserves (well_formed_after E) (leave_with tryEnter this).
Proof.
  intros Htry E w [Hwf HE]. pose proof (conj Hwf HE : well_formed_after E w) as H0.
  unfold exec, leave_with. prims.
  destruct (heap w !! this) as [lk|]; [|exact H0].
  destruct (negb (owner lk)); [exact H0|].
  destruct (mem w !! buffer lk); [|exact H0].
  flat. rewrite send_spec. apply Htry. flat.
  split; [repeat wf_peel; exact Hwf|entered_peel; exact HE].
Qed.

(** [tryEnter] and [leave], from their bodies, for a family of invariants. *)
Lemma preserves_family {X} (I : X -> World -> Prop) :
  (forall leave this, (forall x, preserves (I x) (leave this)) ->
                      forall x, preserves (I x) (tryEnter_with leave this)) ->
  (forall tryEnter this, (forall x, preserves (I x) (tryEnter this)) ->
                         forall x, preserves (I x) (leave_with tryEnter this)) ->
  (forall this x, preserves (I x) (tryEnter this)) /\
  (forall this x, preserves (I x) (leave this)).
Proof.
  intros Hbody Hleave.
  assert (Hfuel : forall fuel this x, preserves (I x) (tryEnter_fuel fuel this)).
  { induction fuel as [|fuel IH]; intros this x; [intros w H; exact H|].
    cbn [tryEnter_fuel]. apply Hbody. intros x'. apply Hleave. intros x''. apply IH. }
  assert (Htry : forall this x, preserves (I x) (tryEnter this)).
  { intros this x w H. unfold exec, tryEnter. destruct (heap w !! this); [|exact H].
    apply Hfuel. exact H. }
  split; [exact Htry|]. intros this x. apply Hleave. intros x'. apply Htry.
Qed.

Lemma tryEnter_wf this E : preserves (well_formed_after E) (tryEnter this).
Proof. apply (preserves_family _ tryEnter_with_wf leave_with_wf). Qed.

Lemma leave_wf this E : preserves (well_formed_after E) (leave this).
Proof. apply (preserves_family _ tryEnter_with_wf leave_with_wf). Qed.

Lemma well_formed_after_nil w : well_formed w <-> well_formed_after [] w.
Proof. split; [intros H; split; [exact H|constructor]|intros [H _]; exact H]. Qed.

Lemma wf_direct_call W handler arg r p :
  settled_promise r = OfDirect p ->
  well_formed W ->
  well_formed (set_trace (trace W ++ [Invoked (OfDirect p) handler arg])
                 (set_running (running W ++ [mkCall handler arg r]) W)).
Proof.
  intros Hr HW.
  wf_peel. wf_peel; [unfold call_ok; cbn; rewrite Hr; exact Logic.I| |exact HW].
  intros t tk _ _. cbn. rewrite Hr. discriminate.
Qed.

Ltac direct_call :=
  lazymatch goal with
  | |- well_formed (set_trace (_ ++ [Invoked (OfDirect ?p) ?h ?arg])
                      (set_running (_ ++ [mkCall _ _ ?r]) ?W)) =>
      apply (wf_direct_call W h arg r p eq_refl)
  end.

Lemma tryDirect_wf this handler : preserves well_formed (tryDirect this handler).
Proof.
  intros w Hwf. unfold exec, tryDirect. prims. flat.
  destruct (heap w !! this) as [lk|]; flat; [|repeat wf_peel; exact Hwf].
  destruct (negb _); flat;
    (destruct (mem w !! buffer lk) as [prev|]; flat;
     [|repeat first [direct_call | wf_peel]; exact Hwf]);
    (destruct (Z.eqb prev LOCKED); flat;
     repeat first [direct_call | wf_peel]; exact Hwf).
Qed.

(** *** enter *)

Lemma known_signal_lookup sig w s :
  known_signal sig w = true -> sig = Some s -> exists sg, signals w !! s = Some sg.
Proof.
  intros Hk ->. cbn in Hk. apply bool_decide_eq_true_1 in Hk.
  apply lookup_lt_is_Some_2 in Hk. destruct Hk as [sg Hsg]. eauto.
Qed.

Lemma registered_listening sig task sgs s :
  registered_listeners (listening sig task sgs) s
  = if decide (sig = Some s)
    then (fun ls => ls ++ [task]) <$> registered_listeners sgs s
    else registered_listeners sgs s.
Proof.
  unfold registered_listeners, listening. destruct sig as [s0|].
  - destruct (decide (Some s0 = Some s)) as [[= ->]|Hne].
    + rewrite list_lookup_alter_eq. destruct (sgs !! s); reflexivity.
    + rewrite list_lookup_alter_ne by congruence. reflexivity.
  - destruct (decide (None = Some s)); [discriminate|reflexivity].
Qed.

Lemma wf_enter w w' this handler sig :
  well_formed w -> this < length (heap w) -> known_signal sig w = true ->
  tasks w' = tasks w ++ [mkTask handler sig false false] ->
  heap w' = alter (fun lk => with_queue (queue lk ++ [length (tasks w)]) lk) this (heap w) ->
  signals w' = listening sig (length (tasks w)) (signals w) ->
  collection w' = collection w -> running w' = running w -> trace w' = trace w ->
  well_formed w'.
Proof.
  intros [H1 H2 H3 H4 H5 H6] Hthis Hsig Ht Hh Hs Hc Hr Htr.
  apply lookup_lt_is_Some_2 in Hthis as [lk Hlk].
  assert (Hlen : length (tasks w') = S (length (tasks w))).
  { rewrite Ht, length_app. cbn. lia. }
  assert (Hfresh : forall s, ~ listens_in (tasks w) s (length (tasks w))).
  { intros s (tk & Htk & _). apply lookup_lt_Some in Htk. lia. }
  unfold well_formed. constructor; unfold collection_ok; rewrite ?Hh, ?Hs, ?Hc, ?Hr, ?Htr, ?Hlen.
  - apply queues_ok_alter; [|apply (queues_ok_mono _ (length (tasks w))); [lia|exact H1]].
    intros lk0 _ Hall. cbn. apply Forall_app. split; [exact Hall|].
    apply Forall_singleton. lia.
  - rewrite length_alter. exact H2.
  - intros s ls. rewrite registered_listening, Ht.
    destruct (decide (sig = Some s)) as [->|Hne].
    + destruct (registered_listeners (signals w) s) as [ls0|] eqn:Hls0; [|discriminate].
      cbn. intros [= <-]. destruct (H3 s ls0 Hls0) as [Hnd Hall]. split.
      * apply NoDup_app. split; [exact Hnd|]. split; [|apply NoDup_singleton].
        intros t Hin. rewrite list_elem_of_singleton. intros ->.
        rewrite Forall_forall in Hall. exact (Hfresh s (Hall _ Hin)).
      * apply Forall_app. split.
        -- eapply Forall_impl; [exact Hall|]. intros t. apply listens_in_app.
        -- apply Forall_singleton. exists (mkTask handler (Some s) false false).
           split; [|reflexivity].
           apply (list_lookup_middle (tasks w) [] _ (length (tasks w))). reflexivity.
    + intros Hls. destruct (H3 s ls Hls) as [Hnd Hall]. split; [exact Hnd|].
      eapply Forall_impl; [exact Hall|]. intros t. apply listens_in_app.
  - apply (events_ok_mono (length (tasks w))); [lia|exact H4].
  - apply (calls_ok_mono (length (tasks w))); [lia|exact H5].
  - intros t tk. rewrite Ht. intros Htk He.
    apply lookup_app_Some in Htk as [Htk|[Hge Htk]].
    + destruct (H6 t tk Htk He) as ((l0 & lk0 & Hl0 & Hin0) & H7 & H8 & H9).
      split; [|split; [exact H7|split; [exact H8|]]].
      * apply (queue_kept_alter _ this (heap w)) with (l := l0) (lk := lk0); try assumption.
        intros lk1 t1 Hin1. cbn. apply elem_of_app. left. exact Hin1.
      * intros Hrej s Hsg. destruct (H9 Hrej s Hsg) as [(ls & Hls & Hin) Hset].
        split; [|exact Hset]. rewrite registered_listening, Hls.
        destruct (decide (sig = Some s)); cbn; eexists; (split; [reflexivity|]);
          [apply elem_of_app; left; exact Hin|exact Hin].
    + destruct (t - length (tasks w)) eqn:Hd; cbn in Htk; [|discriminate].
      injection Htk as <-. assert (t = length (tasks w)) as -> by lia.
      destruct (fresh_task_events _ _ (length (tasks w)) H4 (le_n _)) as [Hruns Hset].
      split; [|split; [exact Hruns|split; [apply (fresh_task_calls _ _ _ H5 (le_n _))|]]].
      * exists this. rewrite list_lookup_alter_eq, Hlk. eexists. split; [reflexivity|].
        cbn. apply elem_of_app. right. left.
      * intros _ s. cbn. intros ->. split; [|exact Hset].
        destruct (known_signal_lookup _ _ s Hsig eq_refl) as [sg Hsg].
        rewrite registered_listening. rewrite decide_True by reflexivity.
        unfold registered_listeners. rewrite Hsg. cbn. eexists. split; [reflexivity|].
        apply elem_of_app. right. left.
Qed.

Lemma enter_wf this handler sig w :
  well_formed w -> this < length (heap w) -> known_signal sig w = true ->
  well_formed (exec (enter this handler sig) w).
Proof.
  intros Hwf Hthis Hsig.
  assert (HW : well_formed (entered_world this handler sig w)).
  { apply (wf_enter w _ this handler sig); try assumption; reflexivity. }
  pose proof (wf_lock_flag _ (with_trying true) this (fun lk => eq_refl) HW) as HW'.
  unfold exec, enter. prims. flat. destruct sig as [s|]; flat.
  - destruct (known_signal_lookup _ _ s Hsig eq_refl) as [sg ->]. flat.
    wf_peel. revert HW'. apply wf_same; reflexivity.
  - match goal with |- well_formed (set_trace (_ ++ [?ev]) ?W) => apply (wf_log W ev) end.
    + cbn. rewrite length_app. cbn. lia.
    + intros t tk Htk He. split; [reflexivity|]. cbn [settles]. intros Heq.
      apply Nat.eqb_eq in Heq. subst t. flat.
      rewrite (list_lookup_middle (tasks w) [] _ (length (tasks w))) in Htk by reflexivity.
      injection Htk as <-. right. reflexivity.
    + revert HW'. apply wf_same; reflexivity.
Qed.

(** *** Promise reactions, timers, messages *)

Lemma log_wf_after E ev :
  match about ev with
  | Some (OfTask t) => t ∈ E
  | _ => True
  end ->
  preserves (well_formed_after E) (log ev).
Proof.
  intros Hev w [Hwf HE]. unfold exec, log. flat.
  split; [|entered_peel; exact HE].
  destruct (about ev) as [[t|n]|] eqn:Hab.
  - rewrite Forall_forall in HE. specialize (HE t Hev).
    apply wf_log; [|apply (quiet_entered w t ev HE Hab)|exact Hwf].
    unfold event_ok. rewrite Hab. exact (entered_exists _ _ HE).
  - apply wf_log; [unfold event_ok; rewrite Hab; exact Logic.I| |exact Hwf].
    apply quiet_other. intros t.
    destruct ev as [| | |p ? ?|p ?|p ?|]; cbn in Hab; try discriminate;
      injection Hab as ->; split; reflexivity.
  - apply wf_log; [unfold event_ok; rewrite Hab; exact Logic.I| |exact Hwf].
    apply quiet_other. intros t.
    destruct ev as [| | |p ? ?|p ?|p ?|]; cbn in Hab; try discriminate; split; reflexivity.
Qed.

Lemma settle_wf_after E p :
  (forall t, p = OfTask t -> t ∈ E) ->
  (forall v, preserves (well_formed_after E) (resolve p v)) /\
  (forall x, preserves (well_formed_after E) (reject p x)).
Proof.
  intros Hp. split; intros ?; apply log_wf_after; cbn; destruct p; auto.
Qed.

Lemma callback_wf_after E c :
  preserves (well_formed_after E) c -> preserves (well_formed_after E) (callback c).
Proof. apply preserves_callback. intros x. apply log_wf_after. exact Logic.I. Qed.

Lemma react_wf_after E r st :
  (forall t, settled_promise r = OfTask t -> t ∈ E) ->
  preserves (well_formed_after E) (react r st).
Proof.
  intros Hp. destruct (settle_wf_after E _ Hp) as [Hres Hrej].
  destruct r as [this p|p], st as [v|x]; cbn [react settled_promise] in *.
  - apply preserves_try_catch.
    + apply preserves_bind; [apply leave_wf|]. intros _. apply Hres.
    + intros err. apply preserves_bind; [apply leave_wf|]. intros _. apply Hrej.
  - apply preserves_bind; [apply leave_wf|]. intros _. apply Hrej.
  - apply Hres.
  - apply Hrej.
Qed.

(** The task a running call works for was dequeued. *)
Lemma running_task_entered w c t :
  well_formed w -> c ∈ running w -> settled_promise (call_reactions c) = OfTask t ->
  entered_in w t.
Proof.
  intros Hwf Hc Hp.
  pose proof (wf_calls _ _ Hwf) as Hcalls. rewrite Forall_forall in Hcalls.
  specialize (Hcalls c Hc). unfold call_ok in Hcalls. rewrite Hp in Hcalls. cbn in Hcalls.
  apply lookup_lt_is_Some_2 in Hcalls as [tk Htk].
  exists tk. split; [exact Htk|]. destruct (entered tk) eqn:He; [reflexivity|].
  destruct (wf_tasks _ _ Hwf t tk Htk He) as (_ & _ & Hr & _).
  exfalso. exact (Hr c Hc Hp).
Qed.

Lemma settle_call_wf i st : preserves well_formed (settle_call i st).
Proof.
  intros w Hwf. unfold exec, settle_call.
  destruct (running w !! i) as [c|] eqn:Hc; [|exact Hwf].
  set (E := dequeued_for (settled_promise (call_reactions c))).
  refine (proj1 (callback_wf_after E _ _ _ _)).
  - apply react_wf_after. intros t Ht. subst E. rewrite Ht. left.
  - split; [apply wf_delete; exact Hwf|].
    eapply entered_tasks_same; [reflexivity|].
    subst E. destruct (settled_promise (call_reactions c)) as [t|n] eqn:Hp; [|constructor].
    apply Forall_singleton. apply (running_task_entered w c t Hwf); [|exact Hp].
    apply list_elem_of_lookup. eauto.
Qed.

Lemma preserves_wf_nil {A} (c : M A) :
  preserves (well_formed_after []) c -> preserves well_formed c.
Proof. intros H w Hwf. apply well_formed_after_nil, H, well_formed_after_nil, Hwf. Qed.

Lemma tryEnter_wf_nil this : preserves well_formed (tryEnter this).
Proof. apply preserves_wf_nil, tryEnter_wf. Qed.

Lemma leave_wf_nil this : preserves well_formed (leave this).
Proof. apply preserves_wf_nil, leave_wf. Qed.

Lemma callback_wf c : preserves well_formed c -> preserves well_formed (callback c).
Proof.
  apply preserves_callback. intros x w Hwf. unfold exec, log. flat. wf_peel. exact Hwf.
Qed.

Lemma fire_timer_wf : preserves well_formed fire_timer.
Proof.
  intros w Hwf. unfold exec, fire_timer. destruct (timers w) as [|this more]; [exact Hwf|].
  apply callback_wf; [apply tryEnter_wf_nil|]. wf_peel. exact Hwf.
Qed.

Lemma get_lock_wf l : preserves well_formed (get_lock l).
Proof. intros w H. unfold exec, get_lock. destruct (heap w !! l); exact H. Qed.

(** [new Lock] makes a Lock object with an empty queue; its reference is
    the next one. *)
Lemma new_Lock_wf n md b w :
  well_formed w ->
  well_formed (exec (new_Lock n md b) w) /\
  forall l, outcome (new_Lock n md b) w = Normal l -> l < length (heap (exec (new_Lock n md b) w)).
Proof.
  intros Hwf. unfold exec, outcome, new_Lock. prims. destruct b as [b|]; flat.
  - split; [apply wf_new_lock; [reflexivity|exact Hwf]|].
    intros l [= <-]. rewrite length_app. cbn. lia.
  - rewrite (list_lookup_middle (mem w) [] 0%Z (length (mem w))) by reflexivity. flat.
    split.
    + match goal with |- well_formed (set_heap (_ ++ [?lk]) ?W) => apply (wf_new_lock W lk) end;
        [reflexivity|].
      repeat wf_peel. exact Hwf.
    + intros l [= <-]. rewrite length_app. cbn. lia.
Qed.

Lemma receive_wf m : preserves well_formed (receive m).
Proof.
  unfold receive. destruct (negb (webLocks m)); [apply preserves_ret|].
  destruct (String.eqb (kind m) "create").
  { intros w Hwf. unfold exec, bind.
    destruct (new_Lock_wf (msg_name m) (msg_mode m) (msg_buffer m) w Hwf) as [H1 H2].
    unfold exec, outcome in H1, H2.
    destruct (new_Lock _ _ _ w) as [w1 [l| |]]; flat; try exact H1.
    unfold collection_set. flat. apply wf_collection_set; [apply H2; reflexivity|exact H1]. }
  destruct (String.eqb (kind m) "leave"); [|apply preserves_ret].
  intros w. apply preserves_for_of. intros l _.
  apply preserves_bind; [apply get_lock_wf|].
  intros lk. destruct (_ && _); [apply tryEnter_wf_nil|apply preserves_ret].
Qed.

Lemma on_worker_message_wf wk m : preserves well_formed (on_worker_message wk m).
Proof.
  unfold on_worker_message. apply preserves_bind; [|intros _; apply receive_wf].
  intros w. apply preserves_for_of. intros peer _.
  destruct (bool_decide _); [|apply preserves_ret].
  intros w' Hwf. unfold exec, log. flat. wf_peel. exact Hwf.
Qed.

(** *** request *)

Lemma request_failed_checks name options handler w :
  passes_checks name options = false -> exec (request name options handler) w = w.
Proof.
  unfold passes_checks, requested_mode, request, exec. cbv zeta.
  destruct (starts_with_dash name); [reflexivity|].
  destruct (opt_steal _ && opt_ifAvailable _); [reflexivity|].
  destruct (opt_steal _ && negb _); [reflexivity|].
  destruct (bool_decide _ && _); [reflexivity|].
  discriminate.
Qed.

Lemma use_lock_wf l options handler w :
  well_formed w -> l < length (heap w) ->
  known_signal (opt_signal (default (mkOptions None None false false) options)) w = true ->
  well_formed (exec (use_lock l options handler) w).
Proof.
  intros Hwf Hl Hsig. unfold use_lock. cbv zeta.
  set (o := default (mkOptions None None false false) options) in *.
  assert (Hrun : forall w', w' = w ->
            well_formed (exec (match [enter l handler (opt_signal o); tryDirect l handler]
                                     !! (if opt_ifAvailable o then DIRECT_CALL else DEFAULT_CALL)
                               with Some f => f
                               | None => throw (TypeError "func[type] is not a function")
                               end) w')).
  { intros w' ->. destruct (opt_ifAvailable o); cbn.
    - apply tryDirect_wf. exact Hwf.
    - apply enter_wf; assumption. }
  unfold exec in *. prims. destruct (opt_signal o) as [s|]; flat.
  - destruct (signals w !! s) as [sg|]; flat; [|exact Hwf].
    destruct (aborted sg); flat; [|apply Hrun; reflexivity].
    destruct (signals w !! s); exact Hwf.
  - apply Hrun. reflexivity.
Qed.

Lemma request_wf name options handler w :
  well_formed w ->
  known_signal (opt_signal (default (mkOptions None None false false) options)) w = true ->
  well_formed (exec (request name options handler) w).
Proof.
  intros Hwf Hsig. destruct (passes_checks name options) eqn:Hc.
  2:{ rewrite request_failed_checks by exact Hc. exact Hwf. }
  unfold exec. rewrite (request_after_checks _ _ _ _ Hc).
  destruct (Map_get name (collection w)) as [l|] eqn:Hget.
  - destruct (heap w !! l) as [lk|] eqn:Hlk; [|exact Hwf].
    destruct (String.eqb _ _); [|exact Hwf].
    apply use_lock_wf; [exact Hwf| |exact Hsig].
    apply lookup_lt_Some in Hlk. exact Hlk.
  - cbv zeta. apply use_lock_wf.
    + match goal with |- well_formed (set_trace (_ ++ ?e :: ?es) ?W) =>
        apply (wf_same (set_trace (trace (set_trace (trace W ++ [e]) W) ++ es)
                          (set_trace (trace W ++ [e]) W)))
      end; try reflexivity.
      { flat. rewrite <- app_assoc. reflexivity. }
      wf_peel. wf_peel. wf_peel; [flat; rewrite length_app; cbn; lia|].
      wf_peel. wf_peel. exact Hwf.
    + flat. rewrite length_app. cbn. lia.
    + destruct (opt_signal _); [|reflexivity]. exact Hsig.
Qed.

(** *** abort *)

Lemma well_formed_with_ext reg reg' w :
  (forall s, reg s = reg' s) -> well_formed_with reg w -> well_formed_with reg' w.
Proof.
  intros Heq [H1 H2 H3 H4 H5 H6]. constructor; try assumption.
  - eapply listeners_ok_reg; [|exact H3]. intros s ls. rewrite <- Heq. auto.
  - eapply tasks_ok_reg; [|exact H6]. intros s ls t. rewrite Heq. eauto.
Qed.

Lemma well_formed_with_signals reg sgs w :
  well_formed_with reg w <-> well_formed_with reg (set_signals sgs w).
Proof. split; intros [H1 H2 H3 H4 H5 H6]; constructor; assumption. Qed.

(** One callback: it ends normally, and is no longer pending. *)
Lemma on_abort_wf s task rest w :
  is_Some (signals w !! s) ->
  well_formed_with (pending_listeners s (task :: rest) (signals w)) w ->
  exists w', on_abort task w = (w', Normal tt) /\ signals w' = signals w /\
             well_formed_with (pending_listeners s rest (signals w)) w'.
Proof.
  intros [sg Hsg] [H1 H2 H3 H4 H5 H6].
  assert (Hs : pending_listeners s (task :: rest) (signals w) s = Some (task :: rest)).
  { unfold pending_listeners. rewrite decide_True by reflexivity. reflexivity. }
  destruct (H3 s _ Hs) as [Hnd Hall].
  apply NoDup_cons in Hnd as [Hnot Hnd]. apply Forall_cons in Hall as [(tk & Htk & Hsig) Hall].
  assert (Hreg : forall s' ls t, t <> task ->
            pending_listeners s (task :: rest) (signals w) s' = Some ls -> t ∈ ls ->
            exists ls', pending_listeners s rest (signals w) s' = Some ls' /\ t ∈ ls').
  { intros s' ls t Hne. unfold pending_listeners. destruct (decide (s' = s)); [|eauto].
    intros [= <-] Hin. apply elem_of_cons in Hin as [->|Hin]; [contradiction|eauto]. }
  assert (Hls : forall ts', (forall s' t, listens_in (tasks w) s' t -> listens_in ts' s' t) ->
            listeners_ok (pending_listeners s rest (signals w)) ts').
  { intros ts' Hts' s' ls. unfold pending_listeners. destruct (decide (s' = s)) as [->|Hne].
    - intros [= <-]. split; [exact Hnd|]. eapply Forall_impl; [exact Hall|]. apply Hts'.
    - intros Hl. destruct (H3 s' ls) as [Hnd' Hall'].
      { unfold pending_listeners. rewrite decide_False by exact Hne. exact Hl. }
      split; [exact Hnd'|]. eapply Forall_impl; [exact Hall'|]. apply Hts'. }
  unfold on_abort. prims. rewrite Htk. destruct (entered tk) eqn:He; cbn [negb].
  - eexists. split; [reflexivity|]. split; [reflexivity|].
    constructor; try assumption; [apply Hls; auto|].
    intros t tk' Htk' He'. destruct (H6 t tk' Htk' He') as (H7 & H8 & H9 & H10).
    split; [exact H7|]. split; [exact H8|]. split; [exact H9|].
    intros Hrej s' Hsig'. destruct (H10 Hrej s' Hsig') as [(ls & Hls' & Hin) Hset].
    split; [|exact Hset]. apply (Hreg s' ls t); [congruence|exact Hls'|exact Hin].
  - flat. rewrite Hsig. flat. rewrite Hsg.
    eexists. split; [reflexivity|]. split; [reflexivity|].
    constructor; flat; rewrite ?length_alter; try assumption.
    + apply Hls. intros s' t. apply listens_in_alter. reflexivity.
    + apply events_ok_snoc; [|exact H4]. cbn. apply lookup_lt_Some in Htk. exact Htk.
    + intros t tk'. destruct (decide (task = t)) as [<-|Hne].
      * rewrite list_lookup_alter_eq, Htk. cbn. intros [= <-] _.
        destruct (H6 task tk Htk He) as (H7 & H8 & H9 & H10).
        split; [exact H7|]. split; [rewrite handler_runs_snoc, H8; reflexivity|].
        split; [exact H9|]. cbn. discriminate.
      * rewrite list_lookup_alter_ne by exact Hne. intros Htk' He'.
        destruct (H6 t tk' Htk' He') as (H7 & H8 & H9 & H10).
        split; [exact H7|]. split; [rewrite handler_runs_snoc, H8; reflexivity|].
        split; [exact H9|].
        intros Hrej s' Hsig'. destruct (H10 Hrej s' Hsig') as [(ls & Hls' & Hin) Hset].
        split; [apply (Hreg s' ls t); [congruence|exact Hls'|exact Hin]|].
        rewrite settlements_snoc, Hset. cbn [settles].
        rewrite (proj2 (Nat.eqb_neq t task)) by congruence. reflexivity.
Qed.

Lemma on_abort_loop s ls w :
  is_Some (signals w !! s) ->
  well_formed_with (pending_listeners s ls (signals w)) w ->
  exists w', for_of ls on_abort w = (w', Normal tt) /\ signals w' = signals w /\
             well_formed_with (pending_listeners s [] (signals w)) w'.
Proof.
  revert w. induction ls as [|task rest IH]; intros w Hs Hwf.
  - exists w. split; [reflexivity|]. split; [reflexivity|exact Hwf].
  - destruct (on_abort_wf s task rest w Hs Hwf) as (w1 & Hrun & Hsg1 & Hwf1).
    rewrite <- Hsg1 in Hs, Hwf1. destruct (IH w1 Hs Hwf1) as (w2 & Hrun2 & Hsg2 & Hwf2).
    exists w2. cbn [for_of]. unfold bind. rewrite Hrun.
    split; [exact Hrun2|]. split; [congruence|]. rewrite <- Hsg1. exact Hwf2.
Qed.

Lemma abort_wf s : preserves well_formed (abort s).
Proof.
  intros w Hwf. unfold exec, abort. prims.
  destruct (signals w !! s) as [sg|] eqn:Hsg; [|exact Hwf]. flat.
  set (sgs := alter (with_once_listeners []) s (alter (with_aborted true) s (signals w))).
  assert (Hsgs : sgs !! s = Some (with_once_listeners [] (with_aborted true sg))).
  { subst sgs. rewrite !list_lookup_alter_eq, Hsg. reflexivity. }
  match goal with |- well_formed (for_of _ _ ?W).1 =>
    destruct (on_abort_loop s (once_listeners sg) W) as (w' & Hrun & Hsg' & Hwf')
  end.
  - flat. fold sgs. rewrite Hsgs. eauto.
  - flat. fold sgs. apply -> well_formed_with_signals. apply -> well_formed_with_signals.
    revert Hwf. apply well_formed_with_ext. intros s'. unfold pending_listeners.
    destruct (decide (s' = s)) as [->|Hne].
    + unfold registered_listeners. rewrite Hsg. reflexivity.
    + subst sgs. unfold registered_listeners.
      rewrite !list_lookup_alter_ne by congruence. reflexivity.
  - rewrite Hrun. flat. flat. fold sgs in Hsg', Hwf'.
    unfold well_formed. rewrite Hsg'. revert Hwf'. apply well_formed_with_ext.
    intros s'. unfold pending_listeners. destruct (decide (s' = s)) as [->|Hne]; [|reflexivity].
    unfold registered_listeners. rewrite Hsgs. reflexivity.
Qed.

(** *** The event loop *)

Lemma exec_then_ret {A} (c : M A) w : exec (c ;; ret tt) w = exec c w.
Proof. unfold exec, bind, ret. destruct (c w) as [w' [a| |]]; reflexivity. Qed.

Lemma perform_wf a w : enabled a w = true -> well_formed w -> well_formed (exec (perform a) w).
Proof.
  intros Hen Hwf. destruct a; cbn [perform enabled] in *.
  - rewrite exec_then_ret. apply request_wf; assumption.
  - exact Hwf.
  - unfold exec, new_AbortController, bind. flat. apply wf_new_signal. exact Hwf.
  - apply abort_wf. exact Hwf.
  - unfold exec, attach. flat. wf_peel. exact Hwf.
  - unfold exec. destruct (bool_decide _); [|exact Hwf].
    apply callback_wf; [apply on_worker_message_wf|exact Hwf].
  - unfold exec. destruct (isWorkerThread w); [|exact Hwf].
    apply callback_wf; [apply receive_wf|exact Hwf].
  - apply fire_timer_wf. exact Hwf.
  - apply settle_call_wf. exact Hwf.
  - rewrite exec_then_ret. apply andb_true_iff in Hen as [Hl Hs].
    apply bool_decide_eq_true_1 in Hl. apply enter_wf; assumption.
  - apply tryEnter_wf_nil. exact Hwf.
  - apply leave_wf_nil. exact Hwf.
  - rewrite exec_then_ret. apply tryDirect_wf. exact Hwf.
  - unfold exec. flat. wf_peel. exact Hwf.
  - unfold exec. flat. wf_peel. exact Hwf.
Qed.

Lemma step_wf a w : well_formed w -> well_formed (step a w).
Proof.
  intros Hwf. unfold step. destruct (enabled a w) eqn:Hen; [|exact Hwf].
  apply perform_wf; assumption.
Qed.

Lemma run_wf acts w : well_formed w -> well_formed (run acts w).
Proof.
  revert w. induction acts as [|a acts IH]; intros w Hwf; [exact Hwf|].
  cbn. apply IH, step_wf, Hwf.
Qed.

Lemma init_wf worker_thread : well_formed (init worker_thread).
Proof.
  constructor; cbn.
  - intros l lk Hl. discriminate.
  - constructor.
  - intros s ls Hl. discriminate.
  - constructor.
  - constructor.
  - intros t tk Htk. discriminate.
Qed.

Lemma reachable_wf w : reachable w -> well_formed w.
Proof. intros (b & acts & ->). apply run_wf, init_wf. Qed.

(** In a well-formed world, a task with a token that was neither dequeued
    nor cancelled is waiting in the queue of some Lock. *)
Lemma well_formed_waiting w t tk s :
  well_formed w -> tasks w !! t = Some tk -> signal tk = Some s ->
  entered tk = false -> rejected tk = false ->
  exists l, waiting l t s w.
Proof.
  intros Hwf Htk Hsig He Hrej.
  destruct (wf_tasks _ _ Hwf t tk Htk He) as ((l & lk & Hl & Hin) & Hruns & Hrn & Hrest).
  destruct (Hrest Hrej s Hsig) as [(ls & Hls & Hinl) Hset].
  unfold registered_listeners in Hls.
  destruct (signals w !! s) as [sg|] eqn:Hsg; [|discriminate]. injection Hls as <-.
  exists l. constructor; try assumption.
  - eauto.
  - exists tk. auto.
  - exists sg. split; [exact Hsg|]. split; [exact Hinl|].
    apply (wf_listeners _ _ Hwf s). unfold registered_listeners. rewrite Hsg. reflexivity.
  - intros s' sg' Hne Hsg' Hin'.
    destruct (wf_listeners _ _ Hwf s' (once_listeners sg')) as [_ Hall].
    { unfold registered_listeners. rewrite Hsg'. reflexivity. }
    rewrite Forall_forall in Hall. destruct (Hall t Hin') as (tk' & Htk' & Hsig').
    congruence.
Qed.

(** ** Cancellation before entry, from any reachable state (C6) *)

(** A task waits in the queue of a Lock with a token; the token fires.
    Then the promise of the task has been settled exactly once, by the
    rejection with the abort error; the task is marked rejected; the
    queues are as they were.  And whatever happens afterwards, that
    rejection remains the only settlement of the promise, the handler of
    the task is never called, and the task is in the queue unless it was
    dequeued. *)
Lemma abort_of_waiting (w : World) (l : lockref) (t : taskref) (s : sigref) :
  waiting l t s w ->
  exists sg, signals w !! s = Some sg /\
    let e := Error (String.append "AbortError: " (reason sg)) in
    let w' := step (Abort s) w in
    settlements t (trace w') = [Rejected (OfTask t) e] /\
    (rejected <$> tasks w' !! t) = Some true /\
    heap w' = heap w /\
    forall acts,
      settlements t (trace (run acts w')) = [Rejected (OfTask t) e] /\
      handler_runs t (trace (run acts w')) = [] /\
      queued_or_entered l t (run acts w').
Proof.
  intros Hw. destruct (abort_cancels l t s w Hw) as (sg & Hsg & Hc).
  exists sg. split; [exact Hsg|]. cbv zeta.
  assert (Hstep : step (Abort s) w = exec (abort s) w).
  { unfold step. cbn [enabled perform].
    rewrite bool_decide_eq_true_2; [reflexivity|]. apply lookup_lt_Some in Hsg. exact Hsg. }
  rewrite Hstep.
  split; [exact (c_settled _ _ _ _ Hc)|]. split.
  { destruct (c_task _ _ _ _ Hc) as (tk & -> & _ & Hr). cbn. rewrite Hr. reflexivity. }
  split; [apply abort_heap|].
  intros acts.
  pose proof (run_cancelled t s _ acts _ Hc) as Hc'.
  split; [exact (c_settled _ _ _ _ Hc')|]. split; [exact (c_runs _ _ _ _ Hc')|].
  apply run_queued.
  destruct (c_task _ _ _ _ Hc) as (tk & Htk & _).
  exists tk. split; [exact Htk|]. right. rewrite abort_heap.
  exact (w_queued _ _ _ _ Hw).
Qed.

(** C6.  In every state the event loop reaches, take a task with a token
    that was neither dequeued nor cancelled.  It is in the queue of a Lock
    and its promise is pending.  When its token fires, the promise is
    settled exactly once, by the rejection with the abort error; the task
    is marked rejected; the queues are as they were, so the task is still
    queued.  And whatever happens afterwards, that rejection remains the
    only settlement of the promise, the handler of the task is never
    called, and the task stays in the queue until tryEnter dequeues it. *)
Theorem cancellation_before_entry (w : World) (t : taskref) (tk : Task) (s : sigref) :
  reachable w ->
  tasks w !! t = Some tk -> signal tk = Some s ->
  entered tk = false -> rejected tk = false ->
  exists l sg,
    (exists lk, heap w !! l = Some lk /\ t ∈ queue lk) /\
    signals w !! s = Some sg /\
    settlements t (trace w) = [] /\
    let e := Error (String.append "AbortError: " (reason sg)) in
    let w' := step (Abort s) w in
    settlements t (trace w') = [Rejected (OfTask t) e] /\
    (rejected <$> tasks w' !! t) = Some true /\
    heap w' = heap w /\
    forall acts,
      settlements t (trace (run acts w')) = [Rejected (OfTask t) e] /\
      handler_runs t (trace (run acts w')) = [] /\
      queued_or_entered l t (run acts w').
Proof.
  intros Hreach Htk Hsig He Hrej.
  destruct (well_formed_waiting w t tk s (reachable_wf w Hreach) Htk Hsig He Hrej) as [l Hw].
  destruct (abort_of_waiting w l t s Hw) as (sg & Hsg & H).
  exists l, sg. split; [exact (w_queued _ _ _ _ Hw)|]. split; [exact Hsg|].
  split; [exact (w_settled _ _ _ _ Hw)|]. exact H.
Qed.

Lemma cancellation_before_entry_witness :
  exists l sg,
    (exists lk, heap one_waiting !! l = Some lk /\ 0 ∈ queue lk) /\
    signals one_waiting !! 0 = Some sg /\
    settlements 0 (trace (step (Abort 0) one_waiting))
    = [Rejected (OfTask 0) (Error (String.append "AbortError: " (reason sg)))].
Proof.
  destruct (cancellation_before_entry one_waiting 0 (mkTask 1 (Some 0) false false) 0)
    as (l & sg & Hq & Hsg & _ & H & _).
  - exists false, [NewAbortController; Request "x" (with_signal 0) 1]. reflexivity.
  - reflexivity.
  - reflexivity.
  - reflexivity.
  - reflexivity.
  - exists l, sg. split; [exact Hq|]. split; [exact Hsg|exact H].
Defined.

(** ** The methods, one by one *)

Lemma scan_spec w ls held pending :
  Forall (fun l => l < length (heap w)) ls ->
  scan ls held pending w
  = (w, Normal (mkSnapshot (held ++ filter (fun l => owns w l = true) ls)
                           (pending ++ concat (map (queue_of w) ls)))).
Proof.
  intros Hall. revert held pending.
  induction Hall as [|l ls Hl _ IH]; intros held pending.
  - cbn. rewrite !app_nil_r. reflexivity.
  - apply lookup_lt_is_Some_2 in Hl as [lk Hlk].
    assert (Ho : owns w l = owner lk) by (unfold owns; rewrite Hlk; reflexivity).
    assert (Hq : queue_of w l = queue lk) by (unfold queue_of; rewrite Hlk; reflexivity).
    cbn [scan]. unfold bind, get_lock. rewrite Hlk, IH.
    rewrite filter_cons. cbn [map concat]. rewrite Hq.
    destruct (decide (owns w l = true)) as [Hd|Hd]; rewrite Ho in Hd.
    + rewrite Hd. destruct (queue lk) as [|t q]; cbn [length Nat.ltb Nat.leb];
        rewrite <- ?app_assoc; cbn [app]; rewrite ?app_nil_r; reflexivity.
    + apply not_true_is_false in Hd. rewrite Hd.
      destruct (queue lk) as [|t q]; cbn [length Nat.ltb Nat.leb];
        rewrite <- ?app_assoc; cbn [app]; rewrite ?app_nil_r; reflexivity.
Qed.

(** X1.  The snapshot constructor, given the Locks to scan: [held] is the
    Locks among them whose owner flag is true, in order, [pending] the
    concatenation of their queues; nothing is changed. *)
Theorem snapshot_scans_resources (w : World) (ls : list lockref) :
  Forall (fun l => l < length (heap w)) ls ->
  LockManagerSnapshot (Some ls) w
  = (w, Normal (mkSnapshot (filter (fun l => owns w l = true) ls)
                           (concat (map (queue_of w) ls)))).
Proof. intros Hall. unfold LockManagerSnapshot. rewrite (scan_spec w ls [] [] Hall). reflexivity. Qed.

Lemma snapshot_scans_resources_witness :
  outcome (LockManagerSnapshot (Some (map snd (collection running_before_unsignalled))))
          running_before_unsignalled
  = Normal (mkSnapshot [0] [1]).
Proof.
  unfold outcome. rewrite snapshot_scans_resources; [reflexivity|].
  vm_compute. repeat constructor.
Defined.

(** leave() on a Lock that is owner. *)
Lemma leave_releases (w : World) (this : lockref) (lk : Lock) :
  heap w !! this = Some lk -> owner lk = true -> is_Some (mem w !! buffer lk) ->
  leave this w = tryEnter this (released this lk w).
Proof.
  intros Hlk Ho [prev Hprev]. unfold leave, leave_with. prims. rewrite Hlk, Ho.
  cbn [negb]. rewrite Hprev. flat. rewrite send_spec. flat. unfold released.
  rewrite <- app_assoc. reflexivity.
Qed.

(** X2.  leave() does nothing when [owner] is false; otherwise it stores
    UNLOCKED in the flag, clears [owner], posts the leave message with the
    Lock's name, and calls tryEnter() on what results. *)
Theorem leave_protocol (w : World) (this : lockref) (lk : Lock) :
  heap w !! this = Some lk -> is_Some (mem w !! buffer lk) ->
  leave this w = if owner lk then tryEnter this (released this lk w) else (w, Normal tt).
Proof.
  intros Hlk [prev Hprev]. unfold leave, leave_with. prims. rewrite Hlk.
  destruct (owner lk); cbn [negb]; [|reflexivity].
  rewrite Hprev. flat. rewrite send_spec. flat. unfold released.
  rewrite <- app_assoc. reflexivity.
Qed.

Lemma leave_protocol_witness :
  flag 0 one_running = Some LOCKED /\
  flag 0 (exec (leave 0) one_running) = Some UNLOCKED /\
  leave 0 one_waiting = (one_waiting, Normal tt).
Proof.
  split; [reflexivity|]. split.
  - unfold exec.
    rewrite (leave_protocol one_running 0 (mkLock "x" "exclusive" [] true false 0));
      [reflexivity|reflexivity|eexists; reflexivity].
  - rewrite (leave_protocol one_waiting 0 (mkLock "x" "exclusive" [0] false true 0));
      [reflexivity|reflexivity|eexists; reflexivity].
Defined.

(** X3.  enter without a signal, on any Lock: the task is pushed on the
    queue and [trying] is set; then signal.addEventListener fails on null,
    the promise is rejected with the TypeError, and no timer is set. *)
Theorem enter_without_signal (w : World) (this : lockref) (handler : fn) :
  let task := length (tasks w) in
  enter this handler None w
  = (set_trace (trace w ++ [Rejected (OfTask task)
              (TypeError "Cannot read properties of null (reading 'addEventListener')")])
       (set_heap (alter (with_trying true) this
                    (alter (fun lk => with_queue (queue lk ++ [task]) lk) this (heap w)))
          (set_tasks (tasks w ++ [mkTask handler None false false]) w)),
     Normal (OfTask task)).
Proof.
  cbv zeta. unfold enter. prims. flat. reflexivity.
Qed.

(** X4.  The handler calls of tryDirect: one with null when the queue is
    not empty, one with null when the flag was LOCKED, and in every case
    one with the Lock. *)
Theorem tryDirect_handler_calls (w : World) (this : lockref) (lk : Lock) (prev : Z) (h : fn) :
  heap w !! this = Some lk -> mem w !! buffer lk = Some prev ->
  invocations h (emitted (tryDirect this h) w) = direct_calls lk prev /\
  (invocations h (emitted (tryDirect this h) w) = 1 <-> queue lk = [] /\ prev <> LOCKED).
Proof.
  intros Hlk Hprev.
  assert (Hcalls : invocations h (emitted (tryDirect this h) w) = direct_calls lk prev).
  { unfold invocations, emitted, exec, tryDirect, direct_calls, when. prims. flat.
    rewrite Hlk. flat.
    destruct (length (queue lk) =? 0)%nat; cbn [negb]; flat; rewrite Hprev; flat;
      destruct (prev =? LOCKED)%Z; flat;
      rewrite <- ?app_assoc, drop_app_length; cbn [app filter list_filter is_invocation];
      rewrite ?Nat.eqb_refl; reflexivity. }
  split; [exact Hcalls|]. rewrite Hcalls. unfold direct_calls.
  destruct (queue lk) as [|t q]; cbn [length Nat.eqb].
  - destruct (Z.eqb_spec prev LOCKED) as [->|Hne]; split.
    + discriminate.
    + intros [_ H]. contradiction.
    + auto.
    + reflexivity.
  - split; [destruct (prev =? LOCKED)%Z; discriminate|]. intros [H _]. discriminate.
Qed.

Lemma tryDirect_handler_calls_witness :
  invocations 2 (emitted (tryDirect 0 2) one_running) = 2.
Proof.
  exact (proj1 (tryDirect_handler_calls one_running 0 (mkLock "x" "exclusive" [] true false 0)
                  LOCKED 2 eq_refl eq_refl)).
Defined.

(** [tryEnter] and [leave] do not touch the signals. *)
Lemma tryEnter_leave_signals sgs :
  (forall this, preserves (fun w => signals w = sgs) (tryEnter this)) /\
  (forall this, preserves (fun w => signals w = sgs) (leave this)).
Proof.
  apply preserves_tryEnter_leave.
  - intros leave this Hleave w Hw. unfold exec, tryEnter_with. prims.
    destruct (heap w !! this) as [lk|]; [|exact Hw].
    destruct (queue lk) as [|task rest]; [exact Hw|].
    destruct (mem w !! buffer lk) as [prev|]; [|exact Hw].
    destruct (prev =? LOCKED)%Z; flat; [exact Hw|].
    destruct (alter _ task (tasks w) !! task) as [tk|]; flat; [|exact Hw].
    destruct (signal tk) as [s|]; flat; [|exact Hw].
    destruct (signals w !! s) as [sg|]; flat; [|exact Hw].
    destruct (aborted sg); flat; [|exact Hw].
    match goal with |- context [leave this ?W] =>
      pose proof (Hleave W Hw) as Hw2; unfold exec in Hw2;
      destruct (leave this W) as [w2 [[]| |]] end; flat; try exact Hw2.
    destruct (negb (rejected tk)); [|exact Hw2].
    destruct (signals w2 !! s); exact Hw2.
  - intros tryEnter this Htry w Hw. unfold exec, leave_with. prims.
    destruct (heap w !! this) as [lk|]; [|exact Hw].
    destruct (negb (owner lk)); [exact Hw|].
    destruct (mem w !! buffer lk); [|exact Hw].
    flat. rewrite send_spec. apply Htry. exact Hw.
Qed.

(** X5.  Cancellation at entry.  tryEnter finds the flag free and dequeues
    a task whose token is already aborted: it takes the flag, releases it
    at once as leave() does, without a handler call, and retries for the
    rest of the queue; when the retry returns, all that is added is the
    rejection of the task with the abort error, and not even that when
    the abort callback had rejected it already. *)
Theorem cancellation_at_entry (w w2 : World) (this : lockref) (lk : Lock) (task : taskref)
        (rest : list taskref) (prev : Z) (tk : Task) (s : sigref) (sg : AbortSignal) :
  heap w !! this = Some lk -> queue lk = task :: rest ->
  mem w !! buffer lk = Some prev -> prev <> LOCKED ->
  tasks w !! task = Some tk -> signal tk = Some s ->
  signals w !! s = Some sg -> aborted sg = true ->
  tryEnter this (released this lk (dequeued this lk task rest prev w)) = (w2, Normal tt) ->
  tryEnter this w
  = (if rejected tk then w2
     else set_trace (trace w2 ++ [Rejected (OfTask task)
                                    (Error (String.append "AbortError: " (reason sg)))]) w2,
     Normal tt).
Proof.
  intros Hlk Hq Hprev Hne Htk Hsig Hsg Ha Hretry.
  rewrite tryEnter_unfold. unfold tryEnter_with. prims. rewrite Hlk, Hq, Hprev.
  rewrite (proj2 (Z.eqb_neq prev LOCKED) Hne). flat.
  rewrite list_lookup_alter_eq, Htk. cbn [fmap option_fmap option_map]. flat.
  cbn [signal with_entered rejected]. rewrite Hsig. flat. rewrite Hsg. flat. rewrite Ha.
  match goal with |- context [leave this ?W] =>
    assert (Hleave : leave this W = (w2, Normal tt)) end.
  { match goal with |- leave this ?W = _ =>
      rewrite (leave_releases W this (with_queue rest (with_trying false (with_owner true lk))))
    end.
    - rewrite <- Hretry. reflexivity.
    - flat. rewrite !list_lookup_alter_eq, Hlk. reflexivity.
    - reflexivity.
    - flat. cbn [buffer with_queue with_trying with_owner].
      apply lookup_lt_is_Some. rewrite length_insert. apply lookup_lt_Some in Hprev. exact Hprev. }
  rewrite Hleave. flat.
  destruct (rejected tk); cbn [negb]; [reflexivity|].
  assert (Hs2 : signals w2 = signals w).
  { pose proof (proj2 (tryEnter_leave_signals (signals w)) this) as H.
    match type of Hleave with leave this ?W = _ => specialize (H W eq_refl) end.
    unfold exec in H. rewrite Hleave in H. exact H. }
  rewrite Hs2, Hsg. reflexivity.
Qed.

Lemma cancellation_at_entry_witness :
  emitted (tryEnter 0) aborted_before_entry
  = [Exchanged 0 UNLOCKED; Stored 0 UNLOCKED; Rejected (OfTask 1) (Error "AbortError: undefined")] /\
  flag 0 (exec (tryEnter 0) aborted_before_entry) = Some UNLOCKED.
Proof.
  unfold emitted, exec.
  rewrite (cancellation_at_entry aborted_before_entry
             (released 0 (mkLock "x" "exclusive" [] true false 0)
                (dequeued 0 (mkLock "x" "exclusive" [1] false true 0) 1 [] UNLOCKED
                   aborted_before_entry))
             0 (mkLock "x" "exclusive" [1] false true 0) 1 [] UNLOCKED
             (mkTask 2 (Some 0) false false) 0 (mkSignal true "undefined" [1]));
    [vm_compute; split; reflexivity | try (vm_compute; reflexivity) ..].
  discriminate.
Defined.

(** X6.  When the promise of a handler that was given the Lock settles,
    leave() runs first; when it returns, the promise of the task is
    settled as the handler's was: fulfilled with its value, or rejected
    with its very error. *)
Theorem settle_after_leave (w w2 : World) (i : nat) (c : Call) (this : lockref) (p : promise)
        (st : settlement) :
  running w !! i = Some c -> call_reactions c = leave_then_settle this p ->
  leave this (set_running (delete i (running w)) w) = (w2, Normal tt) ->
  settle_call i st w = (set_trace (trace w2 ++ [settled p st]) w2, Normal tt).
Proof.
  intros Hc Hr Hleave. unfold settle_call. rewrite Hc, Hr.
  unfold callback, react. destruct st as [v|e]; prims; rewrite Hleave; reflexivity.
Qed.

Lemma settle_after_leave_witness :
  emitted (settle_call 0 (Failed (Error "boom"))) one_running
  = [Stored 0 UNLOCKED; Rejected (OfTask 0) (Error "boom")] /\
  flag 0 (exec (settle_call 0 (Failed (Error "boom"))) one_running) = Some UNLOCKED.
Proof.
  unfold emitted, exec.
  rewrite (settle_after_leave one_running
             (released 0 (mkLock "x" "exclusive" [] true false 0)
                (set_running [] one_running))
             0 (mkCall 1 (Some 0) (leave_then_settle 0 (OfTask 0))) 0 (OfTask 0));
    [vm_compute; split; reflexivity | vm_compute; reflexivity ..].
Defined.

(** X8.  In every state the event loop reaches, a task that tryEnter has
    not dequeued is in the queue of a Lock, its handler was never called,
    and no call runs for it: a handler only runs for a dequeued task. *)
Theorem handler_runs_after_dequeue (w : World) (t : taskref) (tk : Task) :
  reachable w -> tasks w !! t = Some tk -> entered tk = false ->
  (exists l lk, heap w !! l = Some lk /\ t ∈ queue lk) /\
  handler_runs t (trace w) = [] /\
  running_part t (running w).
Proof.
  intros Hreach Htk He.
  destruct (wf_tasks _ _ (reachable_wf w Hreach) t tk Htk He) as (H1 & H2 & H3 & _).
  auto.
Qed.

Lemma handler_runs_after_dequeue_witness :
  (exists l lk, heap one_waiting !! l = Some lk /\ 0 ∈ queue lk) /\
  handler_runs 0 (trace one_waiting) = [].
Proof.
  destruct (handler_runs_after_dequeue one_waiting 0 (mkTask 1 (Some 0) false false))
    as (H1 & H2 & _).
  - exists false, [NewAbortController; Request "x" (with_signal 0) 1]. reflexivity.
  - reflexivity.
  - reflexivity.
  - split; [exact H1|exact H2].
Defined.

(** ** Mutual exclusion on the enter path *)

Section Exclusive.
Variable Bo : bufref -> Prop.

Lemma exclusive_same w w' :
  mem w' = mem w -> heap w' = heap w -> running w' = running w ->
  exclusive Bo w -> exclusive Bo w'.
Proof.
  intros Hm Hh Hr [H1 H2 H3 H4 H5]. constructor; rewrite ?Hm, ?Hh, ?Hr; assumption.
Qed.

(** An update of a Lock that keeps [owner] and [buffer]. *)
Lemma exclusive_lock_update (f : Lock -> Lock) i w w' :
  (forall lk, owner (f lk) = owner lk /\ buffer (f lk) = buffer lk) ->
  mem w' = mem w -> heap w' = alter f i (heap w) -> running w' = running w ->
  exclusive Bo w -> exclusive Bo w'.
Proof.
  intros Hf Hm Hh Hr [H1 H2 H3 H4 H5].
  assert (Hold : forall l lk', alter f i (heap w) !! l = Some lk' ->
            exists lk, heap w !! l = Some lk /\ owner lk' = owner lk /\ buffer lk' = buffer lk).
  { intros l lk'. destruct (decide (i = l)) as [->|Hne].
    - rewrite list_lookup_alter_eq. destruct (heap w !! l) as [lk|]; [|discriminate].
      cbn. intros [= <-]. exists lk. split; [reflexivity|]. apply Hf.
    - rewrite list_lookup_alter_ne by exact Hne. intros Hl. exists lk'. auto. }
  constructor; rewrite ?Hm, ?Hh, ?Hr.
  - intros l1 l2 lk1 lk2 Hl1 Hl2.
    destruct (Hold _ _ Hl1) as (k1 & Hk1 & -> & ->).
    destruct (Hold _ _ Hl2) as (k2 & Hk2 & -> & ->). eauto.
  - intros l lk Hl. destruct (Hold _ _ Hl) as (k & Hk & -> & ->). eauto.
  - intros c Hc. destruct (H3 c Hc) as (l & p & lk & Ha & Hre & Hl & Ho).
    exists l, p. destruct (decide (i = l)) as [->|Hne].
    + exists (f lk). rewrite list_lookup_alter_eq, Hl. cbn.
      destruct (Hf lk) as [-> _]. auto.
    + exists lk. rewrite list_lookup_alter_ne by exact Hne. auto.
  - exact H4.
  - exact H5.
Qed.


(** A change of the memory that keeps the LOCKED flags. *)
Lemma exclusive_mem w w' :
  (forall b, mem w !! b = Some LOCKED -> mem w' !! b = Some LOCKED) ->
  heap w' = heap w -> running w' = running w ->
  exclusive Bo w -> exclusive Bo w'.
Proof.
  intros Hm Hh Hr [H1 H2 H3 H4 H5]. constructor; rewrite ?Hh, ?Hr; try assumption.
  - intros l lk Hl Ho. destruct (H2 l lk Hl Ho) as [Hf Hb]. auto.
  - intros b Hb. auto.
Qed.

Lemma locked_insert (m : list Z) b b' :
  m !! b' = Some LOCKED -> <[b := LOCKED]> m !! b' = Some LOCKED.
Proof.
  intros H. destruct (decide (b = b')) as [->|Hne].
  - rewrite list_lookup_insert_eq; [reflexivity|]. apply lookup_lt_Some in H. exact H.
  - rewrite list_lookup_insert_ne by exact Hne. exact H.
Qed.

Lemma locked_app (m : list Z) v b' :
  m !! b' = Some LOCKED -> (m ++ [v]) !! b' = Some LOCKED.
Proof. intros H. apply lookup_app_l_Some. exact H. Qed.

Lemma locked_fresh (m : list Z) v v0 b' :
  m !! b' = Some LOCKED -> <[length m := v]> (m ++ [v0]) !! b' = Some LOCKED.
Proof.
  intros H. pose proof (lookup_lt_Some _ _ _ H) as Hlt.
  rewrite list_lookup_insert_ne by lia. apply lookup_app_l_Some. exact H.
Qed.

(** tryEnter found the flag of [lk] free: nobody owns its buffer, and no
    handler holds the Lock. *)
Lemma free_buffer w this lk prev :
  exclusive Bo w -> heap w !! this = Some lk ->
  mem w !! buffer lk = Some prev -> prev <> LOCKED ->
  ~ Bo (buffer lk) /\
  (forall l lk', heap w !! l = Some lk' -> owner lk' = true -> buffer lk' <> buffer lk) /\
  free this w.
Proof.
  intros [H1 H2 H3 H4 H5] Hlk Hprev Hne.
  assert (Hown : forall l lk', heap w !! l = Some lk' -> owner lk' = true ->
                               buffer lk' <> buffer lk).
  { intros l lk' Hl Ho Hb. destruct (H2 l lk' Hl Ho) as [Hf _]. congruence. }
  split; [|split; [exact Hown|]].
  - intros Hb. specialize (H5 _ Hb). congruence.
  - intros c Hc Ha. destruct (H3 c Hc) as (l & p & lk' & Ha' & _ & Hl & Ho).
    assert (l = this) by congruence. subst l.
    assert (lk' = lk) by congruence. subst lk'. exact (Hown this lk Hlk Ho eq_refl).
Qed.

(** ... and it takes the flag. *)
Lemma exclusive_acquire w this lk prev :
  exclusive Bo w -> heap w !! this = Some lk ->
  mem w !! buffer lk = Some prev -> prev <> LOCKED ->
  exclusive Bo (set_heap (alter (with_owner true) this (heap w))
                  (set_mem (<[buffer lk := LOCKED]> (mem w)) w)).
Proof.
  intros Hex Hlk Hprev Hne.
  destruct (free_buffer w this lk prev Hex Hlk Hprev Hne) as (Hbo & Hown & Hfree).
  destruct Hex as [H1 H2 H3 H4 H5].
  assert (Hold : forall l lk', alter (with_owner true) this (heap w) !! l = Some lk' ->
            owner lk' = true ->
            (l = this /\ buffer lk' = buffer lk) \/
            (l <> this /\ heap w !! l = Some lk' /\ buffer lk' <> buffer lk)).
  { intros l lk'. destruct (decide (this = l)) as [<-|Hd].
    - rewrite list_lookup_alter_eq, Hlk. cbn. intros [= <-] _. left. auto.
    - rewrite list_lookup_alter_ne by exact Hd. intros Hl Ho. right.
      split; [congruence|]. split; [exact Hl|]. exact (Hown l lk' Hl Ho). }
  constructor; flat.
  - intros l1 l2 lk1 lk2 Hl1 Hl2 Ho1 Ho2 Hb.
    destruct (Hold _ _ Hl1 Ho1) as [[-> Hb1]|(Hn1 & Hk1 & Hb1)];
      destruct (Hold _ _ Hl2 Ho2) as [[-> Hb2]|(Hn2 & Hk2 & Hb2)];
      try reflexivity; try congruence.
    exact (H1 l1 l2 lk1 lk2 Hk1 Hk2 Ho1 Ho2 Hb).
  - intros l lk' Hl Ho. destruct (Hold _ _ Hl Ho) as [[-> Hb]|(Hn & Hk & Hb)].
    + rewrite Hb. split; [|exact Hbo].
      apply list_lookup_insert_eq. apply lookup_lt_Some in Hprev. exact Hprev.
    + destruct (H2 l lk' Hk Ho) as [Hf Hnb]. split; [|exact Hnb].
      apply locked_insert. exact Hf.
  - intros c Hc. destruct (H3 c Hc) as (l & p & lk' & Ha & Hre & Hl & Ho).
    exists l, p, lk'. split; [exact Ha|]. split; [exact Hre|]. split; [|exact Ho].
    rewrite list_lookup_alter_ne; [exact Hl|]. intros <-. exact (Hfree c Hc Ha).
  - exact H4.
  - intros b Hb. apply locked_insert. auto.
Qed.

(** leave releases the flag of a Lock that no handler holds. *)
Lemma exclusive_release w this lk :
  exclusive Bo w -> free this w -> heap w !! this = Some lk -> owner lk = true ->
  exclusive Bo (set_heap (alter (with_owner false) this (heap w))
                  (set_mem (<[buffer lk := UNLOCKED]> (mem w)) w)).
Proof.
  intros [H1 H2 H3 H4 H5] Hfree Hlk Ho.
  assert (Hold : forall l lk', alter (with_owner false) this (heap w) !! l = Some lk' ->
            owner lk' = true ->
            l <> this /\ heap w !! l = Some lk' /\ buffer lk' <> buffer lk).
  { intros l lk'. destruct (decide (this = l)) as [<-|Hd].
    - rewrite list_lookup_alter_eq, Hlk. cbn. intros [= <-]. cbn. discriminate.
    - rewrite list_lookup_alter_ne by exact Hd. intros Hl Ho'.
      split; [congruence|]. split; [exact Hl|]. intros Hb.
      apply Hd. exact (H1 this l lk lk' Hlk Hl Ho Ho' (eq_sym Hb)). }
  destruct (H2 this lk Hlk Ho) as [_ Hbo].
  constructor; flat.
  - intros l1 l2 lk1 lk2 Hl1 Hl2 Ho1 Ho2 Hb.
    destruct (Hold _ _ Hl1 Ho1) as (_ & Hk1 & _). destruct (Hold _ _ Hl2 Ho2) as (_ & Hk2 & _).
    exact (H1 l1 l2 lk1 lk2 Hk1 Hk2 Ho1 Ho2 Hb).
  - intros l lk' Hl Ho'. destruct (Hold _ _ Hl Ho') as (_ & Hk & Hb).
    destruct (H2 l lk' Hk Ho') as [Hf Hnb]. split; [|exact Hnb].
    rewrite list_lookup_insert_ne by congruence. exact Hf.
  - intros c Hc. destruct (H3 c Hc) as (l & p & lk' & Ha & Hre & Hl & Ho').
    exists l, p, lk'. split; [exact Ha|]. split; [exact Hre|]. split; [|exact Ho'].
    rewrite list_lookup_alter_ne; [exact Hl|]. intros <-. exact (Hfree c Hc Ha).
  - exact H4.
  - intros b Hb. rewrite list_lookup_insert_ne; [auto|]. intros <-. exact (Hbo Hb).
Qed.

(** tryEnter calls the handler with a Lock it owns and nobody holds. *)
Lemma exclusive_invoke w this lk h p :
  exclusive Bo w -> free this w -> heap w !! this = Some lk -> owner lk = true ->
  exclusive Bo (set_running (running w ++ [mkCall h (Some this) (leave_then_settle this p)]) w).
Proof.
  intros [H1 H2 H3 H4 H5] Hfree Hlk Ho. constructor; flat; try assumption.
  - intros c Hc. apply elem_of_app in Hc as [Hc|Hc]; [exact (H3 c Hc)|].
    apply list_elem_of_singleton in Hc. subst c. exists this, p, lk. auto.
  - intros i j ci cj Hi Hj Ha.
    apply lookup_app_Some in Hi as [Hi|[Hgi Hi]]; apply lookup_app_Some in Hj as [Hj|[Hgj Hj]].
    + exact (H4 i j ci cj Hi Hj Ha).
    + exfalso. destruct (j - length (running w)); cbn in Hj; [|discriminate].
      injection Hj as <-. cbn in Ha. apply (Hfree ci); [|exact Ha].
      apply list_elem_of_lookup. eauto.
    + exfalso. destruct (i - length (running w)); cbn in Hi; [|discriminate].
      injection Hi as <-. cbn in Ha. apply (Hfree cj); [|symmetry; exact Ha].
      apply list_elem_of_lookup. eauto.
    + destruct (i - length (running w)) eqn:Ei; cbn in Hi; [|discriminate].
      destruct (j - length (running w)) eqn:Ej; cbn in Hj; [|discriminate]. lia.
Qed.

(** A call ends: it is taken off the running calls, and nobody holds its
    Lock any more. *)
Lemma exclusive_delete w i c :
  exclusive Bo w -> running w !! i = Some c ->
  exclusive Bo (set_running (delete i (running w)) w) /\
  forall l, call_arg c = Some l -> free l (set_running (delete i (running w)) w).
Proof.
  intros [H1 H2 H3 H4 H5] Hc.
  assert (Hsub : forall j cj, delete i (running w) !! j = Some cj ->
            exists j', running w !! j' = Some cj /\ j' <> i /\ (j' = j \/ j' = S j) /\
                       (j < i <-> j' = j)).
  { intros j cj Hj. destruct (decide (j < i)) as [Hlt|Hge].
    - rewrite list_lookup_delete_lt in Hj by exact Hlt. exists j. repeat split; auto; lia.
    - rewrite list_lookup_delete_ge in Hj by lia. exists (S j). repeat split; auto; lia. }
  split.
  - constructor; flat; try assumption.
    + intros c' Hc'. apply H3. apply list_elem_of_lookup in Hc' as [j Hj].
      destruct (Hsub j c' Hj) as (j' & Hj' & _). apply list_elem_of_lookup. eauto.
    + intros j1 j2 c1 c2 Hj1 Hj2 Ha.
      destruct (Hsub j1 c1 Hj1) as (j1' & Hj1' & _ & Hd1 & He1).
      destruct (Hsub j2 c2 Hj2) as (j2' & Hj2' & _ & Hd2 & He2).
      pose proof (H4 j1' j2' c1 c2 Hj1' Hj2' Ha). lia.
  - intros l Hl c' Hc' Ha. flat. apply list_elem_of_lookup in Hc' as [j Hj].
    destruct (Hsub j c' Hj) as (j' & Hj' & Hne & _).
    apply Hne. apply (H4 j' i c' c Hj' Hc). congruence.
Qed.

(** A new Lock object. *)
Lemma exclusive_new_lock w lk :
  owner lk = false -> exclusive Bo w -> exclusive Bo (set_heap (heap w ++ [lk]) w).
Proof.
  intros Ho [H1 H2 H3 H4 H5].
  assert (Hold : forall l lk', (heap w ++ [lk]) !! l = Some lk' -> owner lk' = true ->
                               heap w !! l = Some lk').
  { intros l lk' Hl Ho'. apply lookup_app_Some in Hl as [Hl|[_ Hl]]; [exact Hl|].
    destruct (l - length (heap w)); cbn in Hl; [|discriminate]. congruence. }
  constructor; flat; try assumption.
  - intros l1 l2 lk1 lk2 Hl1 Hl2 Ho1 Ho2. eauto.
  - intros l lk' Hl Ho'. eauto.
  - intros c Hc. destruct (H3 c Hc) as (l & p & lk' & Ha & Hre & Hl & Ho').
    exists l, p, lk'. split; [exact Ha|]. split; [exact Hre|]. split; [|exact Ho'].
    apply lookup_app_l_Some. exact Hl.
Qed.


Lemma exclusive_lock_flag (f : Lock -> Lock) i w :
  (forall lk, owner (f lk) = owner lk /\ buffer (f lk) = buffer lk) ->
  exclusive Bo w -> exclusive Bo (set_heap (alter f i (heap w)) w).
Proof. intros Hf. apply (exclusive_lock_update f i); [exact Hf|reflexivity..]. Qed.

(** *** tryEnter and leave *)

Ltac ex_frame W :=
  apply (exclusive_same W); [reflexivity|reflexivity|reflexivity|].

Ltac ends :=
  split; cbn [fst snd]; [|try exact Logic.I].

Lemma tryEnter_with_exclusive leave this :
  (forall w, exclusive Bo w -> free this w -> ends_exclusive Bo this (leave this w)) ->
  forall w, exclusive Bo w -> ends_exclusive Bo this (tryEnter_with leave this w).
Proof.
  intros Hleave w Hex. unfold tryEnter_with. prims.
  destruct (heap w !! this) as [lk|] eqn:Hlk; [|ends; exact Hex].
  destruct (queue lk) as [|task rest] eqn:Hq; [ends; exact Hex|].
  destruct (mem w !! buffer lk) as [prev|] eqn:Hprev; [|ends; exact Hex].
  destruct (Z.eqb_spec prev LOCKED) as [->|Hne]; flat.
  { ends. revert Hex. apply exclusive_mem; [|reflexivity|reflexivity].
    intros b. flat. apply locked_insert. }
  destruct (free_buffer w this lk prev Hex Hlk Hprev Hne) as (_ & _ & Hfree).
  pose proof (exclusive_acquire w this lk prev Hex Hlk Hprev Hne) as H1.
  set (W1 := set_heap _ (set_mem _ w)) in H1.
  assert (Hlk1 : heap W1 !! this = Some (with_owner true lk)).
  { subst W1. flat. rewrite list_lookup_alter_eq, Hlk. reflexivity. }
  pose proof (exclusive_lock_flag (with_trying false) this W1
                (fun lk => conj eq_refl eq_refl) H1) as H2.
  set (W2 := set_heap _ W1) in H2.
  pose proof (exclusive_lock_flag (with_queue rest) this W2
                (fun lk => conj eq_refl eq_refl) H2) as H3.
  set (W3 := set_heap _ W2) in H3.
  assert (Hlk3 : heap W3 !! this = Some (with_queue rest (with_trying false (with_owner true lk)))).
  { subst W3 W2. flat. rewrite !list_lookup_alter_eq, Hlk1. reflexivity. }
  assert (H4 : forall W, mem W = mem W3 -> heap W = heap W3 -> running W = running w ->
                         exclusive Bo W /\ free this W /\
                         exists lk', heap W !! this = Some lk' /\ owner lk' = true).
  { intros W Hm Hh Hr. split; [|split].
    - revert H3. apply exclusive_same; assumption.
    - unfold free. rewrite Hr. exact Hfree.
    - rewrite Hh, Hlk3. eexists. split; reflexivity. }
  subst W3 W2 W1. flat.
  destruct (alter (with_entered true) task (tasks w) !! task) as [tk|]; flat.
  2:{ ends. apply H4; reflexivity. }
  destruct (signal tk) as [s|]; flat.
  2:{ split; cbn [fst snd]; apply H4; reflexivity. }
  destruct (signals w !! s) as [sg|]; flat.
  2:{ ends. apply H4; reflexivity. }
  destruct (aborted sg); flat.
  - match goal with |- context [leave this ?W] =>
      destruct (H4 W eq_refl eq_refl eq_refl) as (Hex' & Hfree' & _);
      pose proof (Hleave W Hex' Hfree') as Hw2;
      destruct (leave this W) as [w2 [[]| |]] end; flat;
      destruct Hw2 as [Hex2 Hfree2]; cbn [fst snd] in *;
      try (split; cbn [fst snd]; assumption).
    destruct (negb (rejected tk)); [|ends; assumption].
    destruct (signals w2 !! s); flat; ends; [|assumption].
    ex_frame w2. exact Hex2.
  - ends.
    match goal with |- exclusive Bo (set_trace _ ?W) => ex_frame W end.
    match goal with |- exclusive Bo (set_running _ ?W) =>
      destruct (H4 W eq_refl eq_refl eq_refl) as (Hex' & Hfree' & lk' & Hlk' & Ho');
      exact (exclusive_invoke W this lk' _ _ Hex' Hfree' Hlk' Ho') end.
Qed.

Lemma leave_with_exclusive tryEnter this :
  (forall w, exclusive Bo w -> ends_exclusive Bo this (tryEnter this w)) ->
  forall w, exclusive Bo w -> free this w -> ends_exclusive Bo this (leave_with tryEnter this w).
Proof.
  intros Htry w Hex Hfree. unfold leave_with. prims.
  destruct (heap w !! this) as [lk|] eqn:Hlk; [|ends; exact Hex].
  destruct (owner lk) eqn:Ho; cbn [negb]; [|ends; exact Hex].
  destruct (mem w !! buffer lk) as [prev|] eqn:Hprev; [|ends; exact Hex].
  flat. rewrite send_spec. apply Htry. flat.
  match goal with |- exclusive Bo ?W =>
    apply (exclusive_same (set_heap (alter (with_owner false) this (heap w))
                                (set_mem (<[buffer lk := UNLOCKED]> (mem w)) w)) W)
  end; try reflexivity.
  apply exclusive_release; assumption.
Qed.

Lemma tryEnter_fuel_exclusive fuel this w :
  exclusive Bo w -> ends_exclusive Bo this (tryEnter_fuel fuel this w).
Proof.
  revert w. induction fuel as [|fuel IH]; intros w Hex; [ends; exact Hex|].
  cbn [tryEnter_fuel]. apply tryEnter_with_exclusive; [|exact Hex].
  intros w' Hex' Hfree'. apply leave_with_exclusive; assumption.
Qed.

Lemma tryEnter_exclusive this w :
  exclusive Bo w -> ends_exclusive Bo this (tryEnter this w).
Proof.
  intros Hex. unfold tryEnter. destruct (heap w !! this); [|ends; exact Hex].
  apply tryEnter_fuel_exclusive. exact Hex.
Qed.

Lemma leave_exclusive this w :
  exclusive Bo w -> free this w -> ends_exclusive Bo this (leave this w).
Proof. apply leave_with_exclusive. intros w'. apply tryEnter_exclusive. Qed.


Lemma tryEnter_keeps_exclusive this : preserves (exclusive Bo) (tryEnter this).
Proof. intros w Hex. exact (proj1 (tryEnter_exclusive this w Hex)). Qed.

(** *** The rest of the module *)

Lemma log_exclusive ev : preserves (exclusive Bo) (log ev).
Proof. intros w Hex. unfold exec, log. flat. ex_frame w. exact Hex. Qed.

Lemma callback_exclusive c : preserves (exclusive Bo) c -> preserves (exclusive Bo) (callback c).
Proof. apply preserves_callback. intros x. apply log_exclusive. Qed.

Lemma enter_exclusive this handler sig : preserves (exclusive Bo) (enter this handler sig).
Proof.
  intros w Hex.
  assert (H : forall W, mem W = mem w ->
            heap W = alter (with_trying true) this
                       (alter (fun lk => with_queue (queue lk ++ [length (tasks w)]) lk) this
                          (heap w)) ->
            running W = running w -> exclusive Bo W).
  { intros W Hm Hh Hr.
    apply (exclusive_same
             (set_heap (alter (with_trying true) this
                          (heap (set_heap (alter (fun lk => with_queue (queue lk ++ [length (tasks w)]) lk)
                                             this (heap w)) w)))
                (set_heap (alter (fun lk => with_queue (queue lk ++ [length (tasks w)]) lk)
                             this (heap w)) w))); [exact Hm|exact Hh|exact Hr|].
    apply exclusive_lock_flag; [intros lk; split; reflexivity|].
    apply exclusive_lock_flag; [intros lk; split; reflexivity|]. exact Hex. }
  unfold exec, enter. prims. flat. destruct sig as [s|]; flat.
  - destruct (signals w !! s); flat; apply H; reflexivity.
  - apply H; reflexivity.
Qed.

Lemma react_exclusive this p st w :
  exclusive Bo w -> free this w -> exclusive Bo (exec (react (leave_then_settle this p) st) w).
Proof.
  intros Hex Hfree. unfold exec. destruct st as [v|e]; cbn [react]; unfold try_catch, bind.
  - pose proof (leave_exclusive this w Hex Hfree) as [H1 H2].
    destruct (leave this w) as [w1 [[]|x|]]; cbn [fst snd] in *.
    + apply log_exclusive. exact H1.
    + pose proof (leave_exclusive this w1 H1 H2) as [H3 _].
      destruct (leave this w1) as [w2 [[]|x'|]]; cbn [fst snd] in *; try exact H3.
      apply log_exclusive. exact H3.
    + exact H1.
  - pose proof (leave_exclusive this w Hex Hfree) as [H1 _].
    destruct (leave this w) as [w1 [[]|x|]]; cbn [fst snd] in *; try exact H1.
    apply log_exclusive. exact H1.
Qed.

Lemma settle_call_exclusive i st : preserves (exclusive Bo) (settle_call i st).
Proof.
  intros w Hex. unfold exec, settle_call.
  destruct (running w !! i) as [c|] eqn:Hc; [|exact Hex].
  destruct (ex_calls _ _ Hex c) as (l & p & lk & Ha & Hre & _).
  { apply list_elem_of_lookup. eauto. }
  destruct (exclusive_delete w i c Hex Hc) as [Hex' Hfree'].
  rewrite Hre. unfold callback, try_catch.
  pose proof (react_exclusive l p st _ Hex' (Hfree' l Ha)) as H. unfold exec in H.
  destruct (react _ st _) as [w1 [[]|x|]]; cbn [fst snd] in *; try exact H.
  apply log_exclusive. exact H.
Qed.

Lemma fire_timer_exclusive : preserves (exclusive Bo) fire_timer.
Proof.
  intros w Hex. unfold exec, fire_timer. destruct (timers w) as [|this more]; [exact Hex|].
  apply callback_exclusive; [apply tryEnter_keeps_exclusive|]. ex_frame w. exact Hex.
Qed.

Lemma get_lock_exclusive l : preserves (exclusive Bo) (get_lock l).
Proof. intros w H. unfold exec, get_lock. destruct (heap w !! l); exact H. Qed.

Lemma send_exclusive m : preserves (exclusive Bo) (send m).
Proof. intros w H. unfold exec. rewrite send_spec. flat. ex_frame w. exact H. Qed.

Lemma new_Lock_exclusive n md b : preserves (exclusive Bo) (new_Lock n md b).
Proof.
  intros w Hex. unfold exec, new_Lock. prims. destruct b as [b|]; flat.
  - apply exclusive_new_lock; [reflexivity|exact Hex].
  - rewrite (list_lookup_middle (mem w) [] 0%Z (length (mem w))) by reflexivity. flat.
    match goal with |- exclusive Bo (set_heap (_ ++ [?lk]) ?W) =>
      apply (exclusive_new_lock W lk); [reflexivity|] end.
    revert Hex. apply exclusive_mem; [|reflexivity|reflexivity].
    intros b'. flat. apply locked_fresh.
Qed.

Lemma collection_set_exclusive n l : preserves (exclusive Bo) (collection_set n l).
Proof. intros w H. unfold exec, collection_set. flat. ex_frame w. exact H. Qed.

Lemma receive_exclusive m : preserves (exclusive Bo) (receive m).
Proof.
  unfold receive. destruct (negb (webLocks m)); [apply preserves_ret|].
  destruct (String.eqb (kind m) "create").
  { apply preserves_bind; [apply new_Lock_exclusive|].
    intros l. apply collection_set_exclusive. }
  destruct (String.eqb (kind m) "leave"); [|apply preserves_ret].
  intros w. apply preserves_for_of. intros l _.
  apply preserves_bind; [apply get_lock_exclusive|].
  intros lk. destruct (_ && _); [apply tryEnter_keeps_exclusive|apply preserves_ret].
Qed.

Lemma on_worker_message_exclusive wk m : preserves (exclusive Bo) (on_worker_message wk m).
Proof.
  unfold on_worker_message. apply preserves_bind; [|intros _; apply receive_exclusive].
  intros w. apply preserves_for_of. intros peer _.
  destruct (bool_decide _); [|apply preserves_ret]. apply log_exclusive.
Qed.

Lemma signal_aborted_exclusive sig : preserves (exclusive Bo) (signal_aborted sig).
Proof.
  intros w H. unfold exec, signal_aborted. destruct sig as [s0|]; [|exact H].
  prims. destruct (signals w !! s0); exact H.
Qed.

Lemma abort_message_exclusive sig : preserves (exclusive Bo) (abort_message sig).
Proof.
  intros w H. unfold exec, abort_message. destruct sig as [s0|]; [|exact H].
  prims. destruct (signals w !! s0); exact H.
Qed.

Lemma request_exclusive n options handler :
  opt_ifAvailable (default (mkOptions None None false false) options) = false ->
  preserves (exclusive Bo) (request n options handler).
Proof.
  intros Hopt. unfold request. cbv zeta. rewrite Hopt.
  repeat (match goal with |- preserves _ (if ?b then _ else _) => destruct b end;
          [apply preserves_throw|]).
  apply preserves_bind; [intros w H; exact H|]. intros found.
  apply preserves_bind.
  { destruct found as [l|].
    - apply preserves_bind; [apply get_lock_exclusive|]. intros lk.
      destruct (negb _); [apply preserves_throw|apply preserves_ret].
    - apply preserves_bind; [apply new_Lock_exclusive|]. intros l.
      apply preserves_bind; [apply collection_set_exclusive|]. intros _.
      apply preserves_bind; [apply get_lock_exclusive|]. intros lk.
      apply preserves_bind; [apply send_exclusive|]. intros _. apply preserves_ret. }
  intros l. apply preserves_bind.
  { destruct (opt_signal _); [apply signal_aborted_exclusive|apply preserves_ret]. }
  intros a. apply preserves_bind.
  { destruct a; [|apply preserves_ret].
    apply preserves_bind; [apply abort_message_exclusive|].
    intros msg. apply preserves_throw. }
  intros _. cbn. apply enter_exclusive.
Qed.

Lemma on_abort_exclusive task : preserves (exclusive Bo) (on_abort task).
Proof.
  intros w H. unfold exec, on_abort. prims.
  destruct (tasks w !! task) as [tk|]; [|exact H].
  destruct (negb (entered tk)); [|exact H]. flat.
  destruct (signal tk) as [s0|]; flat; [|ex_frame w; exact H].
  destruct (signals w !! s0); flat; ex_frame w; exact H.
Qed.

Lemma abort_exclusive s : preserves (exclusive Bo) (abort s).
Proof.
  unfold abort. apply preserves_bind.
  { intros w H. unfold exec, get_signal. destruct (signals w !! s); exact H. }
  intros sg. apply preserves_bind.
  { intros w H. unfold exec, update_signal. flat. ex_frame w. exact H. }
  intros _. apply preserves_bind.
  { intros w H. unfold exec, update_signal. flat. ex_frame w. exact H. }
  intros _. apply preserves_for_of. intros task _. apply on_abort_exclusive.
Qed.

Lemma perform_exclusive a : queued_only a = true -> preserves (exclusive Bo) (perform a).
Proof.
  intros Ha. destruct a; cbn [perform queued_only] in *; try discriminate.
  - apply preserves_bind; [|intros _; apply preserves_ret].
    apply request_exclusive. apply negb_true_iff. exact Ha.
  - intros w H. exact H.
  - intros w H. unfold exec, new_AbortController, bind. flat. ex_frame w. exact H.
  - apply abort_exclusive.
  - intros w H. unfold exec, attach. flat. ex_frame w. exact H.
  - intros w. unfold exec. destruct (bool_decide _); [|intros H; exact H].
    apply callback_exclusive, on_worker_message_exclusive.
  - intros w. unfold exec. destruct (isWorkerThread w); [|intros H; exact H].
    apply callback_exclusive, receive_exclusive.
  - apply fire_timer_exclusive.
  - apply settle_call_exclusive.
  - apply preserves_bind; [apply enter_exclusive|intros _; apply preserves_ret].
  - apply tryEnter_keeps_exclusive.
  - intros w H. unfold exec. flat. revert H. apply exclusive_mem; [|reflexivity|reflexivity].
    intros b. flat. apply locked_app.
Qed.

Lemma step_exclusive a w :
  queued_only a = true -> exclusive Bo w -> exclusive Bo (step a w).
Proof.
  intros Ha H. unfold step. destruct (enabled a w); [|exact H].
  apply perform_exclusive; assumption.
Qed.

End Exclusive.

(** *** One context *)

Lemma init_exclusive worker_thread : exclusive (fun _ => False) (init worker_thread).
Proof.
  constructor; cbn.
  - intros l1 l2 lk1 lk2 Hl. discriminate.
  - intros l lk Hl. discriminate.
  - intros c Hc. inversion Hc.
  - intros i j ci cj Hi. discriminate.
  - intros b [].
Qed.

Lemma run_exclusive Bo acts w :
  Forall (fun a => queued_only a = true) acts -> exclusive Bo w -> exclusive Bo (run acts w).
Proof.
  intros Hall. revert w. induction Hall as [|a acts Ha _ IH]; intros w H; [exact H|].
  cbn. apply IH. apply step_exclusive; assumption.
Qed.

(** X9.  Mutual exclusion on the enter path, within one context.  One
    context (a thread with its event loop) requests locks without
    ifAvailable, aborts, creates buffers, receives messages, runs timers
    and promise reactions, in any order; no tryDirect, no call of leave()
    by user code, and no other thread writes a flag.  Then in every state
    between two callbacks: at most one Lock of the context on a given
    buffer has owner true; at most one handler is running with a Lock on a
    given buffer; and every running handler was given a Lock whose owner
    is true and whose flag is LOCKED. *)
Theorem mutual_exclusion_of_enter (worker_thread : bool) (acts : list action) :
  Forall (fun a => queued_only a = true) acts ->
  let w := run acts (init worker_thread) in
  (forall l1 l2 lk1 lk2,
     heap w !! l1 = Some lk1 -> heap w !! l2 = Some lk2 ->
     owner lk1 = true -> owner lk2 = true -> buffer lk1 = buffer lk2 -> l1 = l2) /\
  (forall i j ci cj li lj lki lkj,
     running w !! i = Some ci -> running w !! j = Some cj ->
     call_arg ci = Some li -> call_arg cj = Some lj ->
     heap w !! li = Some lki -> heap w !! lj = Some lkj ->
     buffer lki = buffer lkj -> i = j) /\
  (forall c, c ∈ running w ->
     exists l lk, call_arg c = Some l /\ heap w !! l = Some lk /\
                  owner lk = true /\ flag (buffer lk) w = Some LOCKED).
Proof.
  intros Hall w.
  pose proof (run_exclusive _ acts _ Hall (init_exclusive worker_thread)) as [H1 H2 H3 H4 _].
  fold w in H1, H2, H3, H4.
  assert (Hheld : forall c, c ∈ running w ->
            exists l lk, call_arg c = Some l /\ heap w !! l = Some lk /\
                         owner lk = true /\ flag (buffer lk) w = Some LOCKED).
  { intros c Hc. destruct (H3 c Hc) as (l & p & lk & Ha & _ & Hl & Ho).
    exists l, lk. repeat split; try assumption. exact (proj1 (H2 l lk Hl Ho)). }
  split; [exact H1|]. split; [|exact Hheld].
  intros i j ci cj li lj lki lkj Hi Hj Hai Haj Hli Hlj Hb.
  destruct (Hheld ci) as (li' & lki' & Hai' & Hli' & Hoi & _).
  { apply list_elem_of_lookup. eauto. }
  destruct (Hheld cj) as (lj' & lkj' & Haj' & Hlj' & Hoj & _).
  { apply list_elem_of_lookup. eauto. }
  assert (li' = li) by congruence. subst li'. assert (lki' = lki) by congruence. subst lki'.
  assert (lj' = lj) by congruence. subst lj'. assert (lkj' = lkj) by congruence. subst lkj'.
  assert (li = lj) by exact (H1 li lj lki lkj Hli Hlj Hoi Hoj Hb). subst lj.
  apply (H4 i j ci cj Hi Hj). congruence.
Qed.

Lemma mutual_exclusion_of_enter_witness :
  let c := mkCall 1 (Some 0) (leave_then_settle 0 (OfTask 0)) in
  let w := run [NewAbortController; Request "x" (with_signal 0) 1; Timeout;
                Request "x" (with_signal 0) 2] (init false) in
  c ∈ running w /\
  exists l lk, call_arg c = Some l /\ heap w !! l = Some lk /\
               owner lk = true /\ flag (buffer lk) w = Some LOCKED.
Proof.
  cbv zeta.
  assert (Hall : Forall (fun a => queued_only a = true)
            [NewAbortController; Request "x" (with_signal 0) 1; Timeout;
             Request "x" (with_signal 0) 2]) by (repeat constructor).
  pose proof (mutual_exclusion_of_enter false _ Hall) as H. cbv zeta in H.
  destruct H as (_ & _ & H).
  assert (Hin : mkCall 1 (Some 0) (leave_then_settle 0 (OfTask 0))
                ∈ running (run [NewAbortController; Request "x" (with_signal 0) 1; Timeout;
                                Request "x" (with_signal 0) 2] (init false))).
  { vm_compute. left. }
  split; [exact Hin|]. exact (H _ Hin).
Defined.

(** ** Acquisitions, queues, the collection, messages and abort *)

Lemma tryEnter_empty w this lk :
  heap w !! this = Some lk -> queue lk = [] -> tryEnter this w = (w, Normal tt).
Proof.
  intros Hlk Hq. rewrite tryEnter_unfold. unfold tryEnter_with. prims. rewrite Hlk, Hq. reflexivity.
Qed.

(** X11.  tryEnter() with nothing to do.  With an empty queue it returns at
    once and does not touch the flag, even a free one.  With a waiting
    task and the flag LOCKED it only does the exchange: the flag stays
    LOCKED, the task stays at the head of the queue, [trying] stays as it
    was and no timer is set; the task is retried by a later leave() or
    leave message only. *)
Theorem tryEnter_without_effect (w : World) (this : lockref) (lk : Lock) :
  heap w !! this = Some lk ->
  (queue lk = [] -> tryEnter this w = (w, Normal tt)) /\
  (queue lk <> [] -> mem w !! buffer lk = Some LOCKED ->
   tryEnter this w = (set_trace (trace w ++ [Exchanged (buffer lk) LOCKED]) w, Normal tt)).
Proof.
  intros Hlk. split.
  - apply tryEnter_empty. exact Hlk.
  - intros Hq Hm. rewrite tryEnter_unfold. unfold tryEnter_with. prims. rewrite Hlk.
    destruct (queue lk) as [|task rest]; [contradiction|]. rewrite Hm. cbn.
    rewrite list_insert_id by exact Hm. destruct w; reflexivity.
Qed.


Lemma tryEnter_without_effect_witness :
  emitted (tryEnter 0) one_running_one_waiting = [Exchanged 0 LOCKED] /\
  timers (exec (tryEnter 0) one_running_one_waiting) = timers one_running_one_waiting.
Proof.
  unfold emitted, exec.
  rewrite (proj2 (tryEnter_without_effect one_running_one_waiting 0
                    (mkLock "x" "exclusive" [1] true true 0) eq_refl));
    [vm_compute; split; reflexivity|discriminate|reflexivity].
Defined.

(** *** What enter and a successful tryEnter do *)

Lemma enter_with_signal w this h s sg :
  signals w !! s = Some sg ->
  enter this h (Some s) w = (queued_world this h s w, Normal (OfTask (length (tasks w)))).
Proof. intros Hsg. unfold enter. prims. flat. rewrite Hsg. reflexivity. Qed.

Lemma tryEnter_serves w this lk task rest prev tk s sg :
  heap w !! this = Some lk -> queue lk = task :: rest ->
  mem w !! buffer lk = Some prev -> prev <> LOCKED ->
  tasks w !! task = Some tk -> signal tk = Some s ->
  signals w !! s = Some sg -> aborted sg = false ->
  tryEnter this w = (serving this lk task rest prev (handler tk) w, Normal tt).
Proof.
  intros Hlk Hq Hprev Hne Htk Hsig Hsg Ha.
  rewrite tryEnter_unfold. unfold tryEnter_with. prims. rewrite Hlk, Hq, Hprev.
  rewrite (proj2 (Z.eqb_neq prev LOCKED) Hne). flat.
  rewrite list_lookup_alter_eq, Htk. cbn [fmap option_fmap option_map]. flat.
  cbn [signal with_entered rejected handler]. rewrite Hsig. flat. rewrite Hsg. flat. rewrite Ha.
  reflexivity.
Qed.

Lemma settle_call_after_leave w w2 i c this p st :
  running w !! i = Some c -> call_reactions c = leave_then_settle this p ->
  leave this (set_running (delete i (running w)) w) = (w2, Normal tt) ->
  settle_call i st w = (set_trace (trace w2 ++ [settled p st]) w2, Normal tt).
Proof.
  intros Hc Hr Hleave. unfold settle_call. rewrite Hc, Hr.
  unfold callback, react. destruct st as [v|e]; prims; rewrite Hleave; reflexivity.
Qed.

Lemma delete_last {A} (l : list A) x : delete (length l) (l ++ [x]) = l.
Proof. induction l as [|y l IH]; cbn; [reflexivity|]. f_equal. exact IH. Qed.

(** X12.  One acquisition from request to release.  The Lock is free with
    an empty queue; enter queues a task with a live token; the timer runs
    tryEnter, which takes the flag and calls the handler with the Lock;
    the handler's promise settles.  Then the flag is UNLOCKED again, the
    Lock is not owner, its queue is empty, no call is left running, the
    leave message was posted, and the promise of the task was settled as
    the handler's, after the release. *)
Theorem acquire_release_cycle (w : World) (this : lockref) (lk : Lock) (h : fn)
        (s : sigref) (sg : AbortSignal) (prev : Z) (st : settlement) :
  heap w !! this = Some lk -> queue lk = [] ->
  mem w !! buffer lk = Some prev -> prev <> LOCKED ->
  signals w !! s = Some sg -> aborted sg = false ->
  let t := length (tasks w) in
  let w1 := exec (enter this h (Some s)) w in
  let w2 := exec (tryEnter this) w1 in
  let w3 := exec (settle_call (length (running w)) st) w2 in
  outcome (enter this h (Some s)) w = Normal (OfTask t) /\
  trace w1 = trace w /\
  trace w2 = trace w ++ [Exchanged (buffer lk) prev; Invoked (OfTask t) h (Some this)] /\
  flag (buffer lk) w2 = Some LOCKED /\
  trace w3 = trace w2 ++ Stored (buffer lk) UNLOCKED :: broadcast w (leave_message lk)
                      ++ [settled (OfTask t) st] /\
  flag (buffer lk) w3 = Some UNLOCKED /\
  heap w3 !! this = Some (mkLock (name lk) (mode lk) [] false false (buffer lk)) /\
  running w3 = running w.
Proof.
  intros Hlk Hq Hprev Hne Hsg Ha t w1 w2 w3.
  assert (Hb : buffer lk < length (mem w)) by (apply lookup_lt_Some in Hprev; exact Hprev).
  assert (E1 : enter this h (Some s) w = (queued_world this h s w, Normal (OfTask t))).
  { apply (enter_with_signal w this h s sg Hsg). }
  assert (Hw1 : w1 = queued_world this h s w) by (subst w1; unfold exec; rewrite E1; reflexivity).
  set (lk1 := with_trying true (with_queue (queue lk ++ [t]) lk)).
  assert (E2 : tryEnter this w1
               = (serving this lk1 t [] prev h w1, Normal tt)).
  { rewrite Hw1.
    apply (tryEnter_serves _ this lk1 t [] prev (mkTask h (Some s) false false) s
             (with_once_listeners (once_listeners sg ++ [t]) sg)).
    - unfold queued_world. flat. rewrite !list_lookup_alter_eq, Hlk. reflexivity.
    - subst lk1. cbn. rewrite Hq. reflexivity.
    - exact Hprev.
    - exact Hne.
    - unfold queued_world. flat. apply (list_lookup_middle (tasks w) [] _ t). reflexivity.
    - reflexivity.
    - unfold queued_world. flat. rewrite list_lookup_alter_eq, Hsg. reflexivity.
    - exact Ha. }
  assert (Hw2 : w2 = serving this lk1 t [] prev h w1) by (subst w2; unfold exec; rewrite E2; reflexivity).
  set (lk2 := with_queue [] (with_trying false (with_owner true lk1))).
  set (W := set_running (delete (length (running w)) (running w2)) w2).
  assert (Hrun2 : running w2 = running w ++ [mkCall h (Some this) (leave_then_settle this (OfTask t))]).
  { rewrite Hw2, Hw1. reflexivity. }
  assert (HlkW : heap W !! this = Some lk2).
  { subst W. rewrite Hw2, Hw1. unfold serving, dequeued, queued_world. flat.
    rewrite !list_lookup_alter_eq, Hlk. reflexivity. }
  assert (HmemW : mem W = <[buffer lk := LOCKED]> (mem w)).
  { subst W. rewrite Hw2, Hw1. reflexivity. }
  assert (E3 : leave this W = (released this lk2 W, Normal tt)).
  { rewrite (leave_releases W this lk2 HlkW eq_refl).
    2:{ rewrite HmemW. apply lookup_lt_is_Some. rewrite length_insert. exact Hb. }
    apply (tryEnter_empty (released this lk2 W) this (with_owner false lk2)).
    - unfold released. flat. rewrite list_lookup_alter_eq, HlkW. reflexivity.
    - reflexivity. }
  assert (E4 : settle_call (length (running w)) st w2
               = (set_trace (trace (released this lk2 W) ++ [settled (OfTask t) st])
                    (released this lk2 W), Normal tt)).
  { apply (settle_call_after_leave w2 _ _ (mkCall h (Some this) (leave_then_settle this (OfTask t)))
             this (OfTask t) st).
    - rewrite Hrun2. apply list_lookup_middle. reflexivity.
    - reflexivity.
    - exact E3. }
  assert (Hw3 : w3 = set_trace (trace (released this lk2 W) ++ [settled (OfTask t) st])
                       (released this lk2 W)).
  { subst w3. unfold exec. rewrite E4. reflexivity. }
  split; [unfold outcome; rewrite E1; reflexivity|].
  split; [rewrite Hw1; reflexivity|].
  split; [rewrite Hw2, Hw1; unfold serving, dequeued, queued_world; flat;
          rewrite <- app_assoc; reflexivity|].
  split; [rewrite Hw2, Hw1; unfold flag, serving, dequeued, queued_world; flat;
          apply list_lookup_insert_eq; exact Hb|].
  split.
  { rewrite Hw3. clear HlkW HmemW E3 E4 Hw3. subst W lk2 lk1.
    unfold released, broadcast, leave_message.
    rewrite Hw2, Hw1. unfold serving, dequeued, queued_world. flat.
    cbn [name buffer with_queue with_trying with_owner].
    rewrite <- !app_assoc. reflexivity. }
  split.
  { rewrite Hw3. unfold flag, released. flat. rewrite HmemW.
    apply list_lookup_insert_eq. rewrite length_insert. exact Hb. }
  split.
  { rewrite Hw3. unfold released. flat. rewrite list_lookup_alter_eq, HlkW. reflexivity. }
  rewrite Hw3. unfold released. subst W. cbn [running set_trace set_heap set_mem set_running].
  rewrite Hrun2. apply delete_last.
Qed.

Lemma acquire_release_cycle_witness :
  flag 0 (exec (settle_call 0 (Fulfilled 7))
            (exec (tryEnter 0) (exec (enter 0 2 (Some 0)) released_once)))
  = Some UNLOCKED.
Proof.
  destruct (acquire_release_cycle released_once 0 (mkLock "x" "exclusive" [] false false 0) 2 0
              (mkSignal false "undefined" [0]) UNLOCKED (Fulfilled 7))
    as (_ & _ & _ & _ & _ & H & _);
    [reflexivity|reflexivity|reflexivity|discriminate|reflexivity|reflexivity|exact H].
Defined.



(** X14.  Direct mode on a free Lock.  The queue is empty and the flag is
    not LOCKED: tryDirect takes the flag and calls the handler exactly
    once, with the Lock; no task is queued and no timer set.  When the
    handler's promise settles, the flag is stored UNLOCKED, the leave
    message is posted, the promise tryDirect returned is settled as the
    handler's, and the Lock and the running calls are as before. *)
Theorem direct_cycle (w : World) (this : lockref) (lk : Lock) (h : fn) (prev : Z)
        (st : settlement) :
  heap w !! this = Some lk -> queue lk = [] -> owner lk = false ->
  mem w !! buffer lk = Some prev -> prev <> LOCKED ->
  let p := OfDirect (directs w) in
  let w1 := exec (tryDirect this h) w in
  let w2 := exec (settle_call (length (running w)) st) w1 in
  outcome (tryDirect this h) w = Normal p /\
  trace w1 = trace w ++ [Exchanged (buffer lk) prev; Invoked p h (Some this)] /\
  flag (buffer lk) w1 = Some LOCKED /\
  tasks w1 = tasks w /\ timers w1 = timers w /\
  trace w2 = trace w1 ++ Stored (buffer lk) UNLOCKED :: broadcast w (leave_message lk)
                      ++ [settled p st] /\
  flag (buffer lk) w2 = Some UNLOCKED /\
  heap w2 !! this = Some lk /\
  running w2 = running w.
Proof.
  intros Hlk Hq Ho Hprev Hne p w1 w2.
  assert (Hb : buffer lk < length (mem w)) by (apply lookup_lt_Some in Hprev; exact Hprev).
  set (W1 := set_trace (trace w ++ [Exchanged (buffer lk) prev; Invoked p h (Some this)])
               (set_running (running w ++ [mkCall h (Some this) (leave_then_settle this p)])
                  (set_heap (alter (with_owner true) this (heap w))
                     (set_mem (<[buffer lk := LOCKED]> (mem w))
                        (set_directs (S (directs w)) w))))).
  assert (E1 : tryDirect this h w = (W1, Normal p)).
  { unfold tryDirect, when. prims. flat. rewrite Hlk, Hq. cbn [length Nat.eqb negb]. flat.
    rewrite Hprev. flat. rewrite (proj2 (Z.eqb_neq prev LOCKED) Hne). flat.
    subst W1. rewrite <- app_assoc. reflexivity. }
  assert (Hw1 : w1 = W1) by (subst w1; unfold exec; rewrite E1; reflexivity).
  set (W := set_running (delete (length (running w)) (running W1)) W1).
  assert (HlkW : heap W !! this = Some (with_owner true lk)).
  { subst W W1. flat. rewrite list_lookup_alter_eq, Hlk. reflexivity. }
  assert (E2 : leave this W = (released this (with_owner true lk) W, Normal tt)).
  { rewrite (leave_releases W this _ HlkW eq_refl).
    2:{ subst W W1. flat. apply lookup_lt_is_Some. rewrite length_insert. exact Hb. }
    apply (tryEnter_empty _ this (with_owner false (with_owner true lk))).
    - unfold released. flat. rewrite list_lookup_alter_eq, HlkW. reflexivity.
    - exact Hq. }
  assert (E3 : settle_call (length (running w)) st W1
               = (set_trace (trace (released this (with_owner true lk) W) ++ [settled p st])
                    (released this (with_owner true lk) W), Normal tt)).
  { apply (settle_call_after_leave W1 _ _ (mkCall h (Some this) (leave_then_settle this p))
             this p st).
    - subst W1. flat. apply list_lookup_middle. reflexivity.
    - reflexivity.
    - exact E2. }
  assert (Hw2 : w2 = set_trace (trace (released this (with_owner true lk) W) ++ [settled p st])
                       (released this (with_owner true lk) W)).
  { subst w2. unfold exec. rewrite Hw1, E3. reflexivity. }
  split; [unfold outcome; rewrite E1; reflexivity|].
  rewrite Hw2, Hw1. clear E1 E2 E3 Hw1 Hw2 HlkW. subst W W1.
  unfold released, broadcast, leave_message, flag. flat. cbn [name buffer with_owner].
  split; [reflexivity|].
  split; [apply list_lookup_insert_eq; exact Hb|].
  split; [reflexivity|]. split; [reflexivity|].
  split; [rewrite <- !app_assoc; reflexivity|].
  split; [apply list_lookup_insert_eq; rewrite length_insert; exact Hb|].
  split; [|apply delete_last].
  rewrite !list_lookup_alter_eq, Hlk. cbn. f_equal. destruct lk. cbn in *. subst. reflexivity.
Qed.

Lemma direct_cycle_witness :
  invocations 2 (emitted (tryDirect 0 2) released_once) = 1 /\
  flag 0 (exec (settle_call 0 (Failed (Error "boom"))) (exec (tryDirect 0 2) released_once))
  = Some UNLOCKED.
Proof.
  destruct (direct_cycle released_once 0 (mkLock "x" "exclusive" [] false false 0) 2 UNLOCKED
              (Failed (Error "boom")))
    as (_ & Ht & _ & _ & _ & _ & H & _);
    [reflexivity|reflexivity|reflexivity|reflexivity|discriminate|].
  split; [|exact H]. unfold emitted. rewrite Ht, drop_app_length. reflexivity.
Defined.




















(** *** The methods *)





























Section Frame.
Variable I : World -> Prop.
Hypothesis HI : lock_frame I.

Ltac fr_peel :=
  lazymatch goal with
  | |- I (set_mem ?x ?W) => apply (fr_mem I HI x W)
  | |- I (set_heap ?x ?W) => apply (fr_heap I HI x W)
  | |- I (set_tasks ?x ?W) => apply (fr_tasks I HI x W)
  | |- I (set_signals (alter ?f ?s _) ?W) =>
      apply (fr_signals I HI f s W); [intros ?; reflexivity|]
  | |- I (set_timers ?x ?W) => apply (fr_timers I HI x W)
  | |- I (set_running ?x ?W) => apply (fr_running I HI x W)
  | |- I (set_directs ?x ?W) => apply (fr_directs I HI x W)
  | |- I (set_trace ?x ?W) => apply (fr_trace I HI x W)
  end.

Ltac frame := repeat fr_peel; try assumption.

Lemma tryEnter_with_kept leave this :
  preserves I (leave this) -> preserves I (tryEnter_with leave this).
Proof.
  intros Hleave w H. unfold exec, tryEnter_with. prims.
  destruct (heap w !! this) as [lk|]; [|exact H].
  destruct (queue lk) as [|task rest]; [exact H|].
  destruct (mem w !! buffer lk) as [prev|]; [|exact H].
  destruct (prev =? LOCKED)%Z; flat; [frame|].
  destruct (alter _ task (tasks w) !! task) as [tk|]; flat; [|frame].
  destruct (signal tk) as [s|]; flat; [|frame].
  destruct (signals w !! s) as [sg|]; flat; [|frame].
  destruct (aborted sg); flat; [|frame].
  match goal with |- context [leave this ?W] =>
    assert (HW : I W) by frame;
    pose proof (Hleave W HW) as Hw2; unfold exec in Hw2;
    destruct (leave this W) as [w2 [[]| |]] end; flat; try exact Hw2.
  destruct (negb (rejected tk)); [|exact Hw2].
  destruct (signals w2 !! s); flat; frame.
Qed.

Lemma leave_with_kept tryEnter this :
  preserves I (tryEnter this) -> preserves I (leave_with tryEnter this).
Proof.
  intros Htry w H. unfold exec, leave_with. prims.
  destruct (heap w !! this) as [lk|]; [|exact H].
  destruct (negb (owner lk)); [exact H|].
  destruct (mem w !! buffer lk); [|exact H].
  flat. rewrite send_spec. apply Htry. flat. frame.
Qed.

Lemma tryEnter_kept this : preserves I (tryEnter this).
Proof. apply (preserves_tryEnter_leave _ tryEnter_with_kept leave_with_kept). Qed.

Lemma leave_kept this : preserves I (leave this).
Proof. apply (preserves_tryEnter_leave _ tryEnter_with_kept leave_with_kept). Qed.

Lemma log_kept ev : preserves I (log ev).
Proof. intros w H. unfold exec, log. flat. frame. Qed.

Lemma callback_kept c : preserves I c -> preserves I (callback c).
Proof. apply preserves_callback. intros x. apply log_kept. Qed.

Lemma enter_kept this handler sig : preserves I (enter this handler sig).
Proof.
  intros w H. unfold exec, enter. prims. flat. destruct sig as [s|]; flat; [|frame].
  destruct (signals w !! s); flat; frame.
Qed.

Lemma tryDirect_kept this handler : preserves I (tryDirect this handler).
Proof.
  intros w H. unfold exec, tryDirect, when. prims. flat.
  destruct (heap w !! this) as [lk|]; flat; [|frame].
  destruct (negb _); flat;
    (destruct (mem w !! buffer lk) as [prev|]; flat; [|frame]);
    (destruct (Z.eqb prev LOCKED); flat; frame).
Qed.

Lemma react_kept r st : preserves I (react r st).
Proof.
  destruct r as [this p|p], st as [v|x]; cbn [react].
  - apply preserves_try_catch.
    + apply preserves_bind; [apply leave_kept|]. intros _. apply log_kept.
    + intros err. apply preserves_bind; [apply leave_kept|]. intros _. apply log_kept.
  - apply preserves_bind; [apply leave_kept|]. intros _. apply log_kept.
  - apply log_kept.
  - apply log_kept.
Qed.

Lemma settle_call_kept i st : preserves I (settle_call i st).
Proof.
  intros w H. unfold exec, settle_call.
  destruct (running w !! i) as [c|]; [|exact H].
  apply callback_kept; [apply react_kept|]. frame.
Qed.

Lemma fire_timer_kept : preserves I fire_timer.
Proof.
  intros w H. unfold exec, fire_timer. destruct (timers w) as [|this more]; [exact H|].
  apply callback_kept; [apply tryEnter_kept|]. frame.
Qed.

Lemma new_Lock_kept n md b : preserves I (new_Lock n md b).
Proof.
  intros w H. unfold exec, new_Lock. prims. destruct b as [b|]; flat; [frame|].
  rewrite (list_lookup_middle (mem w) [] 0%Z (length (mem w))) by reflexivity. flat. frame.
Qed.

Lemma get_lock_kept l : preserves I (get_lock l).
Proof. intros w H. unfold exec, get_lock. destruct (heap w !! l); exact H. Qed.

Lemma send_kept m : preserves I (send m).
Proof. intros w H. unfold exec. rewrite send_spec. flat. frame. Qed.

Lemma on_abort_kept task : preserves I (on_abort task).
Proof.
  intros w H. unfold exec, on_abort. prims.
  destruct (tasks w !! task) as [tk|]; [|exact H].
  destruct (negb (entered tk)); [|exact H]. flat.
  destruct (signal tk) as [s0|]; flat; [|frame].
  destruct (signals w !! s0); flat; frame.
Qed.

Lemma abort_kept s : preserves I (abort s).
Proof.
  unfold abort. apply preserves_bind.
  { intros w H. unfold exec, get_signal. destruct (signals w !! s); exact H. }
  intros sg. apply preserves_bind.
  { intros w H. unfold exec, update_signal. flat. frame. }
  intros _. apply preserves_bind.
  { intros w H. unfold exec, update_signal. flat. frame. }
  intros _. apply preserves_for_of. intros task _. apply on_abort_kept.
Qed.

Lemma use_lock_kept l options handler : preserves I (use_lock l options handler).
Proof.
  unfold use_lock. cbv zeta. apply preserves_bind.
  { destruct (opt_signal _) as [s|]; [|apply preserves_ret].
    intros w H. unfold exec, signal_aborted. prims. destruct (signals w !! s); exact H. }
  intros a. apply preserves_bind.
  { destruct a; [|apply preserves_ret].
    apply preserves_bind; [|intros msg; apply preserves_throw].
    intros w H. unfold exec, abort_message. destruct (opt_signal _) as [s|]; [|exact H].
    prims. destruct (signals w !! s); exact H. }
  intros _. destruct (opt_ifAvailable _); cbn; [apply tryDirect_kept|apply enter_kept].
Qed.

End Frame.

(** *** The collection *)

Lemma Map_get_frame n r : lock_frame (fun w => Map_get n (collection w) = r).
Proof. constructor; intros; assumption. Qed.

Lemma request_keeps_registered n l name options handler w :
  Map_get n (collection w) = Some l ->
  Map_get n (collection (exec (request name options handler) w)) = Some l.
Proof.
  intros Hn. destruct (passes_checks name options) eqn:Hc.
  2:{ rewrite request_failed_checks by exact Hc. exact Hn. }
  unfold exec. rewrite (request_after_checks _ _ _ _ Hc).
  destruct (Map_get name (collection w)) as [l0|] eqn:Hget.
  - destruct (heap w !! l0) as [lk|]; [|exact Hn].
    destruct (String.eqb _ _); [|exact Hn].
    apply (use_lock_kept _ (Map_get_frame n (Some l))). exact Hn.
  - cbv zeta. apply (use_lock_kept _ (Map_get_frame n (Some l))). flat.
    rewrite Map_get_set_ne; [exact Hn|]. intros ->. congruence.
Qed.

Lemma Map_get_set_some n name l m :
  is_Some (Map_get n m) -> is_Some (Map_get n (Map_set name l m)).
Proof.
  intros H. destruct (decide (n = name)) as [->|Hne].
  - rewrite Map_get_set_eq. eauto.
  - rewrite Map_get_set_ne by exact Hne. exact H.
Qed.

Lemma receive_keeps_names n m :
  preserves (fun w => is_Some (Map_get n (collection w))) (receive m).
Proof.
  assert (HI : lock_frame (fun w => is_Some (Map_get n (collection w)))).
  { constructor; intros; assumption. }
  unfold receive. destruct (negb (webLocks m)); [apply preserves_ret|].
  destruct (String.eqb (kind m) "create").
  { apply preserves_bind; [apply (new_Lock_kept _ HI)|].
    intros l w H. unfold exec, collection_set. flat. apply Map_get_set_some. exact H. }
  destruct (String.eqb (kind m) "leave"); [|apply preserves_ret].
  intros w H.
  refine (preserves_for_of (fun w => is_Some (Map_get n (collection w))) _ _ _ w H).
  intros l _.
  apply preserves_bind; [apply get_lock_kept|].
  intros lk. destruct (_ && _); [apply (tryEnter_kept _ HI)|apply preserves_ret].
Qed.

Lemma step_keeps_registered a w n l :
  Map_get n (collection w) = Some l ->
  is_Some (Map_get n (collection (step a w))) /\
  (is_message a = false -> Map_get n (collection (step a w)) = Some l).
Proof.
  intros Hn. pose proof (Map_get_frame n (Some l)) as HI.
  assert (HI' : lock_frame (fun w => is_Some (Map_get n (collection w)))).
  { constructor; intros; assumption. }
  unfold step. destruct (enabled a w); [|split; [rewrite Hn; eauto|intros _; exact Hn]].
  assert (Hsame : Map_get n (collection (exec (perform a) w)) = Some l ->
                  is_Some (Map_get n (collection (exec (perform a) w))) /\
                  (is_message a = false -> Map_get n (collection (exec (perform a) w)) = Some l)).
  { intros H. split; [rewrite H; eauto|intros _; exact H]. }
  destruct a;
    lazymatch goal with
    | |- context [perform (WorkerMessage _ _)] => idtac
    | |- context [perform (ParentMessage _)] => idtac
    | _ => apply Hsame
    end; cbn [perform is_message].
  - rewrite exec_then_ret. apply request_keeps_registered. exact Hn.
  - exact Hn.
  - rewrite exec_then_ret. exact Hn.
  - apply (abort_kept _ HI). exact Hn.
  - exact Hn.
  - split; [|discriminate]. unfold exec. destruct (bool_decide _); [|cbn [fst]; rewrite Hn; eauto].
    refine (preserves_callback _ _ (fun x => log_kept _ HI' _) _ w _); [|cbv beta; rewrite Hn; eauto].
    unfold on_worker_message. apply preserves_bind; [|intros _; apply receive_keeps_names].
    intros w' H'.
    refine (preserves_for_of (fun w => is_Some (Map_get n (collection w))) _ _ _ w' H').
    intros peer _.
    destruct (bool_decide _); [apply (log_kept _ HI')|apply preserves_ret].
  - split; [|discriminate]. unfold exec. destruct (isWorkerThread w); [|cbn [fst]; rewrite Hn; eauto].
    refine (preserves_callback _ _ (fun x => log_kept _ HI' _) _ w _); [|cbv beta; rewrite Hn; eauto].
    apply receive_keeps_names.
  - apply (fire_timer_kept _ HI). exact Hn.
  - apply (settle_call_kept _ HI). exact Hn.
  - rewrite exec_then_ret. apply (enter_kept _ HI). exact Hn.
  - apply (tryEnter_kept _ HI). exact Hn.
  - apply (leave_kept _ HI). exact Hn.
  - rewrite exec_then_ret. apply (tryDirect_kept _ HI). exact Hn.
  - exact Hn.
  - exact Hn.
Qed.

(** X16.  Nothing is ever unregistered.  A name that is registered stays
    registered whatever happens afterwards, and it keeps the very same
    Lock object as long as no message is received (only a received create
    message puts another Lock under a registered name). *)
Theorem registration_is_kept (w : World) (n : string) (l : lockref) (acts : list action) :
  Map_get n (collection w) = Some l ->
  is_Some (Map_get n (collection (run acts w))) /\
  (Forall (fun a => is_message a = false) acts ->
   Map_get n (collection (run acts w)) = Some l).
Proof.
  intros Hn. split.
  - assert (H : is_Some (Map_get n (collection w))) by (rewrite Hn; eauto).
    clear Hn. revert w H. induction acts as [|a acts IH]; intros w [l0 Hl0]; [eauto|].
    cbn. apply IH. exact (proj1 (step_keeps_registered a w n l0 Hl0)).
  - intros Hall. revert w Hn. induction Hall as [|a acts Ha _ IH]; intros w Hn; [exact Hn|].
    cbn. apply IH. exact (proj2 (step_keeps_registered a w n l Hn) Ha).
Qed.

Lemma registration_is_kept_witness :
  Map_get "x" (collection (run [Abort 0; Timeout; Request "y" None 5; Request "x" None 6]
                             one_waiting)) = Some 0.
Proof.
  refine (proj2 (registration_is_kept one_waiting "x" 0 _ _) _); [reflexivity|].
  repeat constructor.
Defined.

(** X17.  A request that passes the option checks registers its name.
    Whatever the request then does (it may still be rejected for its mode
    or its signal), the name is registered afterwards: with the Lock that
    was registered before, if there was one, and else with a new Lock
    object. *)
Theorem request_registers_name (w : World) (name : string) (options : option Options)
        (handler : fn) :
  passes_checks name options = true ->
  Map_get name (collection (exec (request name options handler) w))
  = Some (default (length (heap w)) (Map_get name (collection w))).
Proof.
  intros Hc. destruct (Map_get name (collection w)) as [l0|] eqn:Hget.
  - apply request_keeps_registered. exact Hget.
  - unfold exec. rewrite (request_after_checks _ _ _ _ Hc), Hget. cbv zeta.
    apply (use_lock_kept _ (Map_get_frame name (Some (length (heap w))))). flat.
    apply Map_get_set_eq.
Qed.

Lemma request_registers_name_witness :
  Map_get "y" (collection (exec (request "y" (with_signal 0) 2) registered_and_aborted))
  = Some 1.
Proof. exact (request_registers_name registered_and_aborted "y" (with_signal 0) 2 eq_refl). Defined.

(** *** Messages *)

Lemma for_of_skip {A} (xs : list A) (body : A -> M unit) w :
  (forall x, x ∈ xs -> body x w = (w, Normal tt)) -> for_of xs body w = (w, Normal tt).
Proof.
  induction xs as [|x xs IH]; intros Hb; [reflexivity|].
  cbn [for_of]. unfold bind. rewrite (Hb x) by left.
  apply IH. intros y Hy. apply Hb. right. exact Hy.
Qed.

Lemma relay_all wk m peers w :
  for_of peers (fun peer => if bool_decide (peer ≠ wk) then log (Posted (Some peer) m) else ret tt) w
  = (set_trace (trace w ++ map (fun peer => Posted (Some peer) m)
                             (filter (fun peer => peer <> wk) peers)) w, Normal tt).
Proof.
  revert w. induction peers as [|peer peers IH]; intros w.
  - cbn. rewrite app_nil_r, set_trace_same. reflexivity.
  - cbn [for_of]. unfold bind. rewrite filter_cons.
    destruct (decide (peer <> wk)) as [Hne|Heq].
    + rewrite bool_decide_eq_true_2 by exact Hne. unfold log at 1. rewrite IH.
      unfold set_trace. flat. cbn [map]. rewrite <- app_assoc. reflexivity.
    + rewrite bool_decide_eq_false_2 by exact Heq. unfold ret at 1. apply IH.
Qed.

(** X18.  The hub relays.  When an attached worker sends a message, the
    hub first posts it to every other attached worker, in the order they
    were attached and never back to the sender, whether or not it is a
    message of this module; then it handles the message itself as
    receive does. *)
Theorem hub_relays_to_the_other_workers (w : World) (wk : worker) (m : Message) :
  on_worker_message wk m w = receive m (set_trace (trace w ++ relayed wk m w) w) /\
  (Posted (Some wk) m ∉ relayed wk m w) /\
  (forall peer, peer ∈ workers w -> peer <> wk -> Posted (Some peer) m ∈ relayed wk m w).
Proof.
  split; [|split].
  - unfold on_worker_message, bind. rewrite relay_all. reflexivity.
  - unfold relayed. intros Hin. apply list_elem_of_fmap in Hin as (peer & Heq & Hin).
    injection Heq as <-. apply list_elem_of_filter in Hin as [Hne _]. apply Hne. reflexivity.
  - intros peer Hin Hne. unfold relayed. apply list_elem_of_fmap. exists peer.
    split; [reflexivity|]. apply list_elem_of_filter. split; assumption.
Qed.

Lemma hub_relays_to_the_other_workers_witness :
  let m := mkMessage true "leave" "x" None None in
  Posted (Some 2) m ∈ relayed 1 m (run [Attach 1; Attach 2] (init false)).
Proof.
  intros m.
  apply (proj2 (proj2 (hub_relays_to_the_other_workers
                         (run [Attach 1; Attach 2] (init false)) 1 m)) 2).
  - vm_compute. right. left.
  - discriminate.
Defined.

(** X19.  Messages that change nothing.  receive ignores a message that is
    not of this module or whose kind is neither create nor leave; and a
    leave message for a name under which no Lock is waiting for a retry
    (no Lock at all, for a name never created here) is a no-op. *)
Theorem receive_ignores (w : World) (m : Message) :
  collection_ok w ->
  webLocks m = false \/
  (kind m <> "create" /\ kind m <> "leave") \/
  (kind m = "leave" /\ nothing_trying (msg_name m) w) ->
  receive m w = (w, Normal tt).
Proof.
  intros Hok H. unfold receive. destruct (webLocks m); cbn [negb]; [|reflexivity].
  destruct H as [H|[[H1 H2]|[H1 H2]]]; [discriminate| |].
  - rewrite (proj2 (String.eqb_neq _ _) H1), (proj2 (String.eqb_neq _ _) H2). reflexivity.
  - rewrite H1. cbn [String.eqb Ascii.eqb Bool.eqb]. cbn.
    apply for_of_skip. intros l Hl. apply list_elem_of_fmap in Hl as ([k l'] & -> & Hin).
    cbn [snd]. unfold bind, get_lock.
    unfold collection_ok in Hok. rewrite Forall_forall in Hok. specialize (Hok _ Hin).
    cbn in Hok. apply lookup_lt_is_Some_2 in Hok as [lk Hlk]. rewrite Hlk.
    destruct (String.eqb_spec (name lk) (msg_name m)) as [Hn|Hn]; [|reflexivity].
    rewrite (H2 k l' lk Hin Hlk Hn). reflexivity.
Qed.

Lemma receive_ignores_witness :
  receive (mkMessage true "leave" "never-created" None None) one_waiting
  = (one_waiting, Normal tt).
Proof.
  apply receive_ignores.
  - unfold collection_ok. vm_compute. repeat constructor.
  - right. right. split; [reflexivity|].
    intros k l lk Hin Hl Hn. vm_compute in Hin.
    apply list_elem_of_singleton in Hin. injection Hin as -> ->.
    vm_compute in Hl. injection Hl as <-. discriminate.
Defined.

(** *** The options of request *)

Lemma enter_never_throws this handler sig w e :
  outcome (enter this handler sig) w <> Throw e.
Proof.
  unfold outcome, enter. prims. flat. destruct sig as [s|]; flat; [|discriminate].
  destruct (signals w !! s); flat; discriminate.
Qed.

Lemma tryDirect_never_throws this handler w e :
  outcome (tryDirect this handler) w <> Throw e.
Proof.
  unfold outcome, tryDirect, when. prims. flat.
  destruct (heap w !! this) as [lk|]; flat; [|discriminate].
  destruct (negb _); flat;
    (destruct (mem w !! buffer lk) as [prev|]; flat; [|discriminate]);
    (destruct (Z.eqb prev LOCKED); flat; discriminate).
Qed.

Lemma use_lock_not_unsupported l options handler w :
  outcome (use_lock l options handler) w <> Throw (Error "NotSupportedError").
Proof.
  unfold outcome, use_lock. cbv zeta.
  set (o := default (mkOptions None None false false) options).
  assert (Hrun : forall w', (match [enter l handler (opt_signal o); tryDirect l handler]
                                   !! (if opt_ifAvailable o then DIRECT_CALL else DEFAULT_CALL)
                             with Some f => f
                             | None => throw (TypeError "func[type] is not a function")
                             end w').2 <> Throw (Error "NotSupportedError")).
  { intros w'. destruct (opt_ifAvailable o); cbn.
    - apply tryDirect_never_throws.
    - apply enter_never_throws. }
  prims. destruct (opt_signal o) as [s|]; flat; [|apply Hrun].
  destruct (signals w !! s) as [sg|]; flat; [|discriminate].
  destruct (aborted sg); flat; [|apply Hrun].
  destruct (signals w !! s); flat; discriminate.
Qed.

Section LoggedOnly.
Variable w0 : World.

Lemma logged_events w w' evs :
  trace w' = trace w ++ evs -> Forall not_unsupported evs ->
  logged_only not_unsupported w0 w -> logged_only not_unsupported w0 w'.
Proof.
  intros Ht Hevs (added & Hw & Hok). exists (added ++ evs).
  split; [rewrite Ht, Hw, app_assoc; reflexivity|]. apply Forall_app. split; assumption.
Qed.

Lemma logged_same w w' :
  trace w' = trace w -> logged_only not_unsupported w0 w -> logged_only not_unsupported w0 w'.
Proof. intros Ht (added & Hw & Hok). exists added. rewrite Ht. split; assumption. Qed.

Lemma posted_not_unsupported w m : Forall not_unsupported (broadcast w m).
Proof.
  unfold broadcast. destruct (isWorkerThread w); [repeat constructor; intros p; discriminate|].
  apply Forall_fmap, Forall_forall. intros wk _ p. discriminate.
Qed.

Ltac logged H :=
  first
    [ apply (logged_same _ _ eq_refl H)
    | refine (logged_events _ _ _ _ _ H);
      [flat; rewrite <- ?app_assoc; reflexivity
      |repeat first [apply Forall_nil_2
                    |apply posted_not_unsupported
                    |apply Forall_cons; split; [intros ?; discriminate|]
                    |apply Forall_app; split]] ].

Lemma enter_logged this handler sig :
  preserves (logged_only not_unsupported w0) (enter this handler sig).
Proof.
  intros w H. unfold exec, enter. prims. flat. destruct sig as [s|]; flat; [|logged H].
  destruct (signals w !! s); flat; logged H.
Qed.

Lemma tryDirect_logged this handler :
  preserves (logged_only not_unsupported w0) (tryDirect this handler).
Proof.
  intros w H. unfold exec, tryDirect, when. prims. flat.
  destruct (heap w !! this) as [lk|]; flat; [|logged H].
  destruct (negb _); flat;
    (destruct (mem w !! buffer lk) as [prev|]; flat; [|logged H]);
    (destruct (Z.eqb prev LOCKED); flat; logged H).
Qed.

Lemma new_Lock_logged n md b : preserves (logged_only not_unsupported w0) (new_Lock n md b).
Proof.
  intros w H. unfold exec, new_Lock. prims. destruct b as [b|]; flat; [logged H|].
  rewrite (list_lookup_middle (mem w) [] 0%Z (length (mem w))) by reflexivity. flat. logged H.
Qed.

Lemma get_lock_logged l : preserves (logged_only not_unsupported w0) (get_lock l).
Proof. intros w H. unfold exec, get_lock. destruct (heap w !! l); exact H. Qed.

Lemma request_logged name options handler :
  preserves (logged_only not_unsupported w0) (request name options handler).
Proof.
  unfold request. cbv zeta.
  repeat (match goal with |- preserves _ (if ?b then _ else _) => destruct b end;
          [apply preserves_throw|]).
  apply preserves_bind; [intros w H; exact H|]. intros found.
  apply preserves_bind.
  { destruct found as [l|].
    - apply preserves_bind; [apply get_lock_logged|]. intros lk.
      destruct (negb _); [apply preserves_throw|apply preserves_ret].
    - apply preserves_bind; [apply new_Lock_logged|]. intros l.
      apply preserves_bind.
      { intros w H. unfold exec, collection_set. flat. logged H. }
      intros _. apply preserves_bind; [apply get_lock_logged|]. intros lk.
      apply preserves_bind; [|intros _; apply preserves_ret].
      intros w H. unfold exec. rewrite send_spec. flat. logged H. }
  intros l. apply preserves_bind.
  { destruct (opt_signal _) as [s|]; [|apply preserves_ret].
    intros w H. unfold exec, signal_aborted. prims. destruct (signals w !! s); exact H. }
  intros a. apply preserves_bind.
  { destruct a; [|apply preserves_ret].
    apply preserves_bind; [|intros msg; apply preserves_throw].
    intros w H. unfold exec, abort_message. destruct (opt_signal _) as [s|]; [|exact H].
    prims. destruct (signals w !! s); exact H. }
  intros _. destruct (opt_ifAvailable _); cbn.
  - apply tryDirect_logged.
  - apply enter_logged.
Qed.

End LoggedOnly.

(** X20.  NotSupportedError from request itself.  The option checks are
    the only place where the code of request produces
    Error('NotSupportedError').  When a check fails (the name starts with
    '-', or steal comes with ifAvailable, or steal with a mode other than
    'exclusive', or a signal with steal or ifAvailable), the body of
    request throws that error before anything is looked up: nothing at
    all has changed.  When the checks pass, the body of request does not
    throw that error, and the call rejects no promise with it: what it
    logs is added to the trace and holds no such rejection.  (The promise
    of a request that passes the checks follows the handler's promise; an
    error the handler rejects with is the handler's, whatever its
    message.) *)
Theorem request_not_supported (w : World) (name : string) (options : option Options)
        (handler : fn) :
  (passes_checks name options = false ->
   request name options handler w = (w, Throw (Error "NotSupportedError"))) /\
  (passes_checks name options = true ->
   outcome (request name options handler) w <> Throw (Error "NotSupportedError") /\
   exists added,
     trace (exec (request name options handler) w) = trace w ++ added /\
     forall p, Rejected p (Error "NotSupportedError") ∉ added).
Proof.
  split.
  - unfold passes_checks, request. cbv zeta.
    destruct (starts_with_dash name); [reflexivity|].
    destruct (opt_steal _ && opt_ifAvailable _); [reflexivity|].
    destruct (opt_steal _ && negb _); [reflexivity|].
    destruct (bool_decide _ && _); [reflexivity|].
    discriminate.
  - intros Hc. split.
    + intros Hout. unfold outcome in Hout. rewrite (request_after_checks _ _ _ _ Hc) in Hout.
      destruct (Map_get name (collection w)) as [l|].
      * destruct (heap w !! l) as [lk|]; [|discriminate].
        destruct (String.eqb _ _); [|discriminate].
        exact (use_lock_not_unsupported _ _ _ _ Hout).
      * exact (use_lock_not_unsupported _ _ _ _ Hout).
    + destruct (request_logged w name options handler w) as (added & Hadded & Hok).
      { exists []. split; [rewrite app_nil_r; reflexivity|constructor]. }
      exists added. split; [exact Hadded|].
      intros p Hin. rewrite Forall_forall in Hok. exact (Hok _ Hin p eq_refl).
Qed.

Lemma request_not_supported_witness :
  request "-x" None 1 one_waiting = (one_waiting, Throw (Error "NotSupportedError")) /\
  outcome (request "x" None 2) one_waiting <> Throw (Error "NotSupportedError").
Proof.
  split.
  - apply (proj1 (request_not_supported one_waiting "-x" None 1)). reflexivity.
  - apply (proj2 (request_not_supported one_waiting "x" None 2)). reflexivity.
Defined.

(** X21.  steal does nothing.  The only requests with steal: true that
    pass the option checks ask for the exclusive mode without signal and
    without ifAvailable, and such a request does exactly what the same
    request without steal does: nothing is ever stolen. *)
Theorem steal_has_no_effect (w : World) (name : string) (md : option string)
        (sig : option sigref) (ia : bool) (handler : fn) :
  passes_checks name (Some (mkOptions md sig ia true)) = true ->
  ia = false /\ sig = None /\ default "exclusive" md = "exclusive" /\
  request name (Some (mkOptions md sig ia true)) handler w
  = request name (Some (mkOptions md sig ia false)) handler w.
Proof.
  intros Hc. pose proof Hc as Hc'. apply passes_checks_inv in Hc'. cbv zeta in Hc'.
  cbn [default from_option id opt_steal opt_ifAvailable opt_signal andb orb] in Hc'.
  destruct Hc' as (H1 & H2 & H3 & H4). subst ia.
  apply negb_false_iff, String.eqb_eq in H3. unfold requested_mode in H3.
  cbn [default from_option id opt_mode] in H3.
  assert (sig = None) as ->.
  { destruct sig; [|reflexivity]. rewrite andb_true_r in H4.
    apply bool_decide_eq_false_1 in H4. exfalso. apply H4. eauto. }
  split; [reflexivity|]. split; [reflexivity|]. split; [exact H3|].
  assert (Hc2 : passes_checks name (Some (mkOptions md None false false)) = true).
  { unfold passes_checks. cbn [default from_option id opt_steal opt_ifAvailable opt_signal
                                 opt_mode andb orb negb].
    rewrite H1. reflexivity. }
  rewrite (request_after_checks _ _ _ _ Hc), (request_after_checks _ _ _ _ Hc2). reflexivity.
Qed.

Lemma steal_has_no_effect_witness :
  request "z" (Some (mkOptions None None false true)) 4 one_waiting
  = request "z" (Some (mkOptions None None false false)) 4 one_waiting.
Proof.
  exact (proj2 (proj2 (proj2 (steal_has_no_effect one_waiting "z" None None false 4 eq_refl)))).
Defined.

Lemma on_abort_untouched t tk w0 t' :
  entered tk = true -> preserves (untouched t tk w0) (on_abort t').
Proof.
  intros Hent w [H1 H2 H3 H4 H5 H6 H7]. unfold exec, on_abort. prims.
  destruct (tasks w !! t') as [tk'|] eqn:Htk'; [|split; assumption].
  destruct (negb (entered tk')) eqn:Hne; [|split; assumption]. flat.
  assert (Hneq : t' <> t).
  { intros ->. rewrite H1 in Htk'. injection Htk' as <-. rewrite Hent in Hne. discriminate. }
  assert (Htask : alter (with_rejected true) t' (tasks w) !! t = Some tk).
  { rewrite list_lookup_alter_ne by exact Hneq. exact H1. }
  destruct (signal tk') as [s0|]; flat; [|split; flat; assumption].
  destruct (signals w !! s0) as [sg|]; flat; [|split; flat; assumption].
  split; flat; try assumption.
  - rewrite settlements_snoc. cbn [settles].
    destruct (Nat.eqb_spec t t') as [->|_]; [congruence|]. rewrite app_nil_r. exact H2.
  - rewrite handler_runs_snoc. cbn [runs]. rewrite app_nil_r. exact H3.
Qed.

(** X22.  Aborting after the handler has started changes nothing for that
    request.  Once a task was taken from the queue, abort() on any
    controller (its own included) neither settles its promise nor marks
    it rejected, starts no handler, and leaves the running calls, the
    timers, the Locks and the shared flags as they are: the handler of a
    request cannot be cancelled and the lock is not released. *)
Theorem abort_after_entry (w : World) (s : sigref) (t : taskref) (tk : Task) :
  tasks w !! t = Some tk -> entered tk = true ->
  let w' := exec (abort s) w in
  tasks w' !! t = Some tk /\
  settlements t (trace w') = settlements t (trace w) /\
  handler_runs t (trace w') = handler_runs t (trace w) /\
  running w' = running w /\ timers w' = timers w /\ heap w' = heap w /\ mem w' = mem w.
Proof.
  intros Htk Hent w'.
  assert (H : untouched t tk w w').
  { assert (Hp : preserves (untouched t tk w) (abort s)).
    { unfold abort. apply preserves_bind.
      { intros w1 H. unfold exec, get_signal. destruct (signals w1 !! s); exact H. }
      intros sg. apply preserves_bind.
      { intros w1 [H1 H2 H3 H4 H5 H6 H7]. split; assumption. }
      intros _. apply preserves_bind.
      { intros w1 [H1 H2 H3 H4 H5 H6 H7]. split; assumption. }
      intros _. apply preserves_for_of. intros t' _. apply on_abort_untouched. exact Hent. }
    apply Hp. split; [exact Htk|reflexivity..]. }
  destruct H as [H1 H2 H3 H4 H5 H6 H7]. repeat split; assumption.
Qed.

Lemma abort_after_entry_witness :
  settlements 0 (trace (exec (abort 0) one_running)) = settlements 0 (trace one_running) /\
  running (exec (abort 0) one_running) = running one_running.
Proof.
  destruct (abort_after_entry one_running 0 0 (mkTask 1 (Some 0) false true) eq_refl eq_refl)
    as (_ & H2 & _ & H4 & _).
  split; [exact H2|exact H4].
Defined.

Lemma on_abort_signals t w : signals (exec (on_abort t) w) = signals w.
Proof.
  unfold exec, on_abort. prims.
  destruct (tasks w !! t) as [tk|]; [|reflexivity].
  destruct (negb (entered tk)); [|reflexivity]. flat.
  destruct (signal tk) as [s0|]; flat; [|reflexivity].
  destruct (signals w !! s0); flat; reflexivity.
Qed.

Lemma set_signals_same w : set_signals (signals w) w = w.
Proof. destruct w. reflexivity. Qed.

(** X23.  abort() twice.  A second abort() on the same controller does
    nothing: the callbacks were removed as they fired, so no promise is
    rejected a second time. *)
Theorem abort_twice (w : World) (s : sigref) :
  exec (abort s) (exec (abort s) w) = exec (abort s) w /\
  (is_Some (signals w !! s) ->
   exists sg, signals (exec (abort s) w) !! s = Some sg /\
              aborted sg = true /\ once_listeners sg = []).
Proof.
  destruct (signals w !! s) as [sg|] eqn:Hs.
  - set (w1 := exec (abort s) w).
    assert (H1 : signals w1 !! s = Some (mkSignal true (reason sg) [])).
    { assert (Hp : preserves (fun w' => signals w' !! s = Some (mkSignal true (reason sg) []))
                             (for_of (once_listeners sg) on_abort)).
      { apply preserves_for_of. intros t _ w' H. rewrite on_abort_signals. exact H. }
      subst w1. unfold exec, abort, bind at 1, get_signal. rewrite Hs.
      unfold bind at 1, update_signal at 1. unfold bind at 1, update_signal at 1.
      apply Hp. flat. rewrite !list_lookup_alter_eq, Hs. reflexivity. }
    split; [|intros _; eexists; split; [exact H1|split; reflexivity]].
    unfold exec at 1, abort, bind at 1, get_signal. rewrite H1.
    unfold bind at 1, update_signal at 1. unfold bind at 1, update_signal at 1.
    cbn [once_listeners for_of ret fst]. flat.
    assert (Hid : forall f : AbortSignal -> AbortSignal,
               f (mkSignal true (reason sg) []) = mkSignal true (reason sg) [] ->
               alter f s (signals w1) = signals w1).
    { intros f Hf. apply list_eq. intros i. destruct (decide (i = s)) as [->|Hne].
      - rewrite list_lookup_alter_eq, H1. cbn. rewrite Hf. reflexivity.
      - rewrite list_lookup_alter_ne by congruence. reflexivity. }
    rewrite (Hid (with_aborted true)) by reflexivity.
    rewrite (Hid (with_once_listeners [])) by reflexivity.
    rewrite !set_signals_same. reflexivity.
  - split; [|intros [? ?]; discriminate].
    assert (H : exec (abort s) w = w).
    { unfold exec, abort, bind, get_signal. rewrite Hs. reflexivity. }
    rewrite !H. reflexivity.
Qed.

Lemma abort_twice_witness :
  exists sg, signals (exec (abort 0) one_waiting) !! 0 = Some sg /\
             aborted sg = true /\ once_listeners sg = [].
Proof.
  apply (proj2 (abort_twice one_waiting 0)). vm_compute. eauto.
Defined.
